(** * yellowpages: dependency-graph engine and catalog integrity checker

    A shallow embedding of [deps.ts] (reverse index, depth-bounded
    traversals, orphan detection, combined query) and of the pure checks
    of [commands/lint.ts], followed by the properties the specification
    states about them.

    Conventions of the embedding.
    - JavaScript strings are Rocq strings, one character per code unit;
      [Array.prototype.sort] on strings is the lexicographic order on
      them.
    - An optional field [f?: T] is an [option T]; [x ?? d] is
      [default d x]; truthiness of an optional string is [truthy].
    - [Map<string, V>] read by key only is a [gmap string V]; a [Map]
      that is iterated is an association list in insertion order.
    - [Set<string>] is a [gset string].  A set or an array that the
      source mutates while it is shared between calls is threaded
      through the calls as explicit state.
    - A loop that pushes one record for every element passing a test is
      the [filter] of the test followed by the [fmap] of the record.
    - The recursive traversals take a fuel argument and return [None]
      when it runs out; the theorems show that the fuel the top-level
      entry points supply is always enough. *)

From Stdlib Require Import ZArith Lia DecimalString Ascii.
From stdpp Require Import gmap strings list fin_maps.

#[local] Set Warnings "-register-all,-clear-no-such-hyp".

Open Scope Z_scope.

(** ** Data model ([types.ts]) *)

(** [Dependency]: a directed edge to [dep_service], annotated with the
    API consumed and a free-text description. *)
Record Dependency := mkDependency {
  dep_service : string;
  dep_api : option string;
  dep_description : option string
}.

(** [Service], restricted to the fields the core reads. *)
Record Service := mkService {
  svc_id : string;
  svc_name : string;
  svc_system : option string;
  svc_owner : option string;
  svc_dependsOn : option (list Dependency)
}.

(** [System] and [Owner], restricted likewise. *)
Record System := mkSystem {
  sys_id : string;
  sys_name : string;
  sys_owner : option string
}.

Record Owner := mkOwner {
  own_id : string;
  own_name : string
}.

(** [s.dependsOn ?? []] *)
Definition deps_of (s : Service) : list Dependency :=
  default [] (svc_dependsOn s).

(** [new Map(services.map((s) => [s.id, s]))]: a later entry with the
    same id replaces an earlier one. *)
Definition serviceMap_of (services : list Service) : gmap string Service :=
  foldl (fun m s => <[svc_id s := s]> m) ∅ services.

(** A JavaScript number used as a depth limit.  A finite limit is
    represented by the least integer not below it, which is all that
    the comparison with an integer depth observes. *)
Inductive number :=
| Num (z : Z)
| PosInfinity
| NegInfinity
| NaN.

(** [d >= maxDepth] for an integer [d]. *)
Definition geq (d : Z) (maxDepth : number) : bool :=
  match maxDepth with
  | Num z => z <=? d
  | PosInfinity => false
  | NegInfinity => true
  | NaN => false
  end.

(** ** Dependency graph engine ([deps.ts]) *)

Inductive DepNode := mkDepNode {
  node_id : string;
  node_name : string;
  node_api : option string;
  node_description : option string;
  node_children : list DepNode
}.

Record DepsResult := mkDepsResult {
  res_service : string * string;   (* {id, name} *)
  res_dependents : list DepNode;
  res_dependencies : list DepNode
}.

(** An entry of the reverse index: [{service, api?, description?}]. *)
Record RevEntry := mkRevEntry {
  rev_service : Service;
  rev_api : option string;
  rev_description : option string
}.

(** The inner loop of [buildReverseIndex]: one service's dependencies. *)
Definition addDependents (s : Service) (reverse : gmap string (list RevEntry))
  : gmap string (list RevEntry) :=
  foldl (fun reverse dep =>
           let list := default [] (reverse !! dep_service dep) in
           <[dep_service dep := list ++ [mkRevEntry s (dep_api dep) (dep_description dep)]]> reverse)
        reverse (deps_of s).

Definition buildReverseIndex (services : list Service) : gmap string (list RevEntry) :=
  foldl (fun reverse s => addDependents s reverse) ∅ services.

(** [xs.map(f)] where the callback [f] reads and updates a state [St]
    shared by the whole traversal and may run out of fuel: the elements
    are visited left to right, each one starting from the state the
    previous one left. *)
Fixpoint map_st {A B St : Type} (f : A → St → option (B * St))
    (xs : list A) (st : St) : option (list B * St) :=
  match xs with
  | [] => Some ([], st)
  | x :: xs =>
    '(y, st) ← f x st;
    '(ys, st) ← map_st f xs st;
    Some (y :: ys, st)
  end.

(** [walkDown] with its optional parameters [visited] and [depth] made
    explicit.  The visited set [v] is one mutable object shared by the
    whole traversal, so every call returns it next to its forest. *)
Fixpoint walkDown_from (fuel : nat) (serviceId : string)
    (serviceMap : gmap string Service) (maxDepth : number)
    (v : gset string) (d : Z) : option (list DepNode * gset string) :=
  match fuel with
  | O => None
  | S fuel =>
    if geq d maxDepth || bool_decide (serviceId ∈ v) then Some ([], v)
    else
      let v := {[serviceId]} ∪ v in
      match serviceMap !! serviceId with
      | None => Some ([], v)
      | Some service =>
        map_st (fun dep v =>
                  let target := serviceMap !! dep_service dep in
                  '(children, v) ← walkDown_from fuel (dep_service dep) serviceMap maxDepth v (d + 1);
                  Some (mkDepNode (dep_service dep)
                                  (default (dep_service dep) (svc_name <$> target))
                                  (dep_api dep) (dep_description dep) children, v))
               (deps_of service) v
      end
  end.

(** [walkDown(serviceId, serviceMap, maxDepth)]: a fresh visited set,
    depth 0. *)
Definition walkDown (serviceId : string) (serviceMap : gmap string Service)
    (maxDepth : number) : option (list DepNode) :=
  fst <$> walkDown_from (S (size serviceMap)) serviceId serviceMap maxDepth ∅ 0.

(** [walkUp], in the same style, over the reverse index. *)
Fixpoint walkUp_from (fuel : nat) (serviceId : string)
    (reverseIndex : gmap string (list RevEntry)) (maxDepth : number)
    (v : gset string) (d : Z) : option (list DepNode * gset string) :=
  match fuel with
  | O => None
  | S fuel =>
    if geq d maxDepth || bool_decide (serviceId ∈ v) then Some ([], v)
    else
      let v := {[serviceId]} ∪ v in
      let dependents := default [] (reverseIndex !! serviceId) in
      map_st (fun dep v =>
                '(children, v) ← walkUp_from fuel (svc_id (rev_service dep)) reverseIndex maxDepth v (d + 1);
                Some (mkDepNode (svc_id (rev_service dep)) (svc_name (rev_service dep))
                                (rev_api dep) (rev_description dep) children, v))
             dependents v
  end.

Definition walkUp (serviceId : string) (reverseIndex : gmap string (list RevEntry))
    (maxDepth : number) : option (list DepNode) :=
  fst <$> walkUp_from (S (size reverseIndex)) serviceId reverseIndex maxDepth ∅ 0.

(** [findOrphans]: services with no dependencies in or out. *)
Definition findOrphans (services : list Service) : list Service :=
  let reverseIndex := buildReverseIndex services in
  filter (fun s =>
            let hasDepsDown := (0 <? length (deps_of s))%nat in
            let hasDepsUp := (0 <? length (default [] (reverseIndex !! svc_id s)))%nat in
            negb hasDepsDown && negb hasDepsUp = true)
         services.

Inductive Direction := Up | Down.

(** [resolveDeps]: both directions, unless [direction] selects one. *)
Definition resolveDeps (serviceId : string) (services : list Service)
    (maxDepth : number) (direction : option Direction) : option DepsResult :=
  let serviceMap := serviceMap_of services in
  let reverseIndex := buildReverseIndex services in
  let service := serviceMap !! serviceId in
  dependents ← match direction with
               | Some Down => Some []
               | _ => walkUp serviceId reverseIndex maxDepth
               end;
  dependencies ← match direction with
                 | Some Up => Some []
                 | _ => walkDown serviceId serviceMap maxDepth
                 end;
  Some (mkDepsResult (serviceId, default serviceId (svc_name <$> service))
                     dependents dependencies).

(** ** Catalog integrity checker ([commands/lint.ts]) *)

Inductive Severity := error | warning.

Record LintResult := mkLintResult {
  lr_type : string;
  lr_severity : Severity;
  lr_entity : string;
  lr_entityKind : string;
  lr_message : string;
  lr_fix : option string
}.

(** Truthiness of an optional string: [undefined] and the empty string
    are falsy. *)
Definition truthy (o : option string) : bool :=
  match o with
  | None => false
  | Some s => negb (String.eqb s EmptyString)
  end.

(** The value of an optional string inside a template literal, read
    only where the field is truthy. *)
Definition str (o : option string) : string := default EmptyString o.

(** The double-quote character, and [`${n}`] for a count. *)
Definition dquote : string := String (Ascii.ascii_of_nat 34) EmptyString.

Definition show_nat (n : nat) : string := NilEmpty.string_of_uint (Nat.to_uint n).

Definition findOrphanedSystemRefs (services : list Service) (systemIds : gset string)
  : list LintResult :=
  (fun s =>
     mkLintResult "orphaned_system_ref" error (svc_name s) "service"
       ("References system " +:+ dquote +:+ str (svc_system s) +:+ dquote
          +:+ " which does not exist")
       (Some ("yp service rm " +:+ svc_name s +:+ "  OR  yp system add --name <name>")))
  <$> filter (fun s => truthy (svc_system s)
                       && negb (bool_decide (str (svc_system s) ∈ systemIds)) = true)
             services.

Definition findOrphanedOwnerRefs (services : list Service) (systems : list System)
    (ownerIds : gset string) : list LintResult :=
  ((fun s =>
      mkLintResult "orphaned_owner_ref" error (svc_name s) "service"
        ("References owner " +:+ dquote +:+ str (svc_owner s) +:+ dquote
           +:+ " which does not exist") None)
   <$> filter (fun s => truthy (svc_owner s)
                        && negb (bool_decide (str (svc_owner s) ∈ ownerIds)) = true)
              services)
  ++
  ((fun sys =>
      mkLintResult "orphaned_owner_ref" error (sys_name sys) "system"
        ("References owner " +:+ dquote +:+ str (sys_owner sys) +:+ dquote
           +:+ " which does not exist") None)
   <$> filter (fun sys => truthy (sys_owner sys)
                          && negb (bool_decide (str (sys_owner sys) ∈ ownerIds)) = true)
              systems).

Definition findMissingOwners (services : list Service) : list LintResult :=
  (fun s =>
     mkLintResult "missing_owner" warning (svc_name s) "service"
       "Has no owner assigned"
       (Some ("yp service add --name " +:+ svc_name s +:+ " --owner <owner>")))
  <$> filter (fun s => negb (truthy (svc_owner s)) = true) services.

Definition findDanglingDeps (services : list Service) (serviceIds : gset string)
  : list LintResult :=
  s ← services;
  (fun dep =>
     mkLintResult "dangling_dependency" error (svc_name s) "service"
       ("Depends on " +:+ dquote +:+ dep_service dep +:+ dquote +:+ " which does not exist")
       None)
  <$> filter (fun dep => negb (bool_decide (dep_service dep ∈ serviceIds)) = true) (deps_of s).

(** [for (const x of xs) body(x)] where the body updates a shared state
    and may run out of fuel. *)
Fixpoint for_st {A St : Type} (body : A → St → option St) (xs : list A) (st : St)
  : option St :=
  match xs with
  | [] => Some st
  | x :: xs => st ← body x st; for_st body xs st
  end.

(** [[a, b].sort().join(":")] *)
Definition sorted_pair_key (a b : string) : string :=
  if String.leb a b then a +:+ ":" +:+ b else b +:+ ":" +:+ a.

Section CircularDeps.
(** The record pushed when a cycle is found is a function of the
    origin [service] and of the [id] where the walk closed; the walk
    itself does not look at it, so it is a parameter here. *)
Context {R : Type} (emit : Service → string → R).

(** The mutable objects of [findCircularDeps]. *)
Record WalkState := mkWalkState {
  ancestors : gset string;
  reported : gset string;
  results : list R
}.

(** The local function [walk] of the loop body for the origin
    [service]. *)
Fixpoint walk (fuel : nat) (service : Service) (serviceMap : gmap string Service)
    (id : string) (st : WalkState) : option WalkState :=
  match fuel with
  | O => None
  | S fuel =>
    if bool_decide (id ∈ ancestors st) then
      let key := sorted_pair_key (svc_id service) id in
      if bool_decide (key ∈ reported st) then Some st
      else Some (mkWalkState (ancestors st) ({[key]} ∪ reported st)
                             (results st ++ [emit service id]))
    else
      let st := mkWalkState ({[id]} ∪ ancestors st) (reported st) (results st) in
      let s := serviceMap !! id in
      st ← for_st (fun dep st => walk fuel service serviceMap (dep_service dep) st)
                  (default [] (s ≫= svc_dependsOn)) st;
      Some (mkWalkState (ancestors st ∖ {[id]}) (reported st) (results st))
  end.

Definition findCircularDeps_with (services : list Service) : option (list R) :=
  let serviceMap := serviceMap_of services in
  st ← for_st (fun service st =>
                 let st := mkWalkState {[svc_id service]} (reported st) (results st) in
                 let s := serviceMap !! svc_id service in
                 for_st (fun dep st =>
                           walk (S (size serviceMap)) service serviceMap (dep_service dep) st)
                        (default [] (s ≫= svc_dependsOn)) st)
              services (mkWalkState ∅ ∅ []);
  Some (results st).
End CircularDeps.

Arguments WalkState R : clear implicits.
Arguments mkWalkState {R} _ _ _.

(** The finding pushed by [walk]. *)
Definition circularFinding (serviceMap : gmap string Service) (service : Service)
    (id : string) : LintResult :=
  let target := serviceMap !! id in
  mkLintResult "circular_dependency" error (svc_name service) "service"
    ("Circular dependency detected: " +:+ svc_name service +:+ " ↔ "
       +:+ default id (svc_name <$> target))
    None.

Definition findCircularDeps (services : list Service) : option (list LintResult) :=
  findCircularDeps_with (circularFinding (serviceMap_of services)) services.

(** The same run of [findCircularDeps], recording instead of each
    finding the origin service and the id where the cycle was detected. *)
Definition circularDetections (services : list Service) : option (list (Service * string)) :=
  findCircularDeps_with (fun service id => (service, id)) services.

Section DuplicateNames.
(** [String.prototype.toLowerCase] is taken as given. *)
Variable toLowerCase : string → string.

(** [seen.get(k)] and [seen.set(k, n)] on a [Map] that is iterated
    afterwards: an existing key keeps its place, a new one goes last. *)
Fixpoint seen_get (seen : list (string * nat)) (k : string) : option nat :=
  match seen with
  | [] => None
  | (k', n) :: seen => if String.eqb k' k then Some n else seen_get seen k
  end.

Fixpoint seen_set (seen : list (string * nat)) (k : string) (n : nat)
  : list (string * nat) :=
  match seen with
  | [] => [(k, n)]
  | (k', n') :: seen =>
    if String.eqb k' k then (k', n) :: seen else (k', n') :: seen_set seen k n
  end.

(** The local function [check] of [findDuplicateNames]; [items] are
    the names of the entities of one kind. *)
Definition check (items : list string) (kind : string) : list LintResult :=
  let seen :=
    foldl (fun seen item =>
             let lower := toLowerCase item in
             seen_set seen lower (default 0 (seen_get seen lower) + 1)%nat)
          [] items in
  (fun '(name, count) =>
     mkLintResult "duplicate_name" error name kind
       (show_nat count +:+ " " +:+ kind +:+ "s share the name "
          +:+ dquote +:+ name +:+ dquote)
       None)
  <$> filter (fun '(name, count) => (1 <? count)%nat = true) seen.

Definition findDuplicateNames (services : list Service) (systems : list System)
    (owners : list Owner) : list LintResult :=
  check (svc_name <$> services) "service"
  ++ check (sys_name <$> systems) "system"
  ++ check (own_name <$> owners) "owner".
End DuplicateNames.

Definition findEmptySystems (systems : list System) (services : list Service)
  : list LintResult :=
  (fun sys =>
     mkLintResult "empty_system" warning (sys_name sys) "system"
       "System has no services" None)
  <$> filter (fun sys =>
                negb (existsb (fun s => bool_decide (svc_system s = Some (sys_id sys)))
                              services) = true)
             systems.

(** [runLintChecks]: all checks, concatenated. *)
Definition runLintChecks (toLowerCase : string → string) (services : list Service)
    (systems : list System) (owners : list Owner) : option (list LintResult) :=
  let serviceIds : gset string := list_to_set (svc_id <$> services) in
  let systemIds : gset string := list_to_set (sys_id <$> systems) in
  let ownerIds : gset string := list_to_set (own_id <$> owners) in
  circular ← findCircularDeps services;
  Some (findOrphanedSystemRefs services systemIds
        ++ findOrphanedOwnerRefs services systems ownerIds
        ++ findMissingOwners services
        ++ findDanglingDeps services serviceIds
        ++ circular
        ++ findDuplicateNames toLowerCase services systems owners
        ++ findEmptySystems systems services).


(** ** Notions used to state the properties *)

#[global] Instance Dependency_eq_dec : EqDecision Dependency.
Proof. solve_decision. Defined.

#[global] Instance Service_eq_dec : EqDecision Service.
Proof. solve_decision. Defined.

#[global] Instance RevEntry_eq_dec : EqDecision RevEntry.
Proof. solve_decision. Defined.

#[global] Instance Severity_eq_dec : EqDecision Severity.
Proof. solve_decision. Defined.

#[global] Instance LintResult_eq_dec : EqDecision LintResult.
Proof. solve_decision. Defined.

(** The ids a service depends on. *)
Definition dep_ids (s : Service) : list string := dep_service <$> deps_of s.

(** The dependency edges of a catalog in the order [buildReverseIndex]
    meets them: the target id paired with the entry recorded for it. *)
Definition edges_of (s : Service) : list (string * RevEntry) :=
  (fun dep => (dep_service dep, mkRevEntry s (dep_api dep) (dep_description dep)))
  <$> deps_of s.

Definition edges (services : list Service) : list (string * RevEntry) :=
  services ≫= edges_of.

Definition entries_for (k : string) (es : list (string * RevEntry)) : list RevEntry :=
  snd <$> filter (fun e => e.1 = k) es.

(** Orphan, in the words of the specification: an empty own dependency
    list, and an id that appears in no other service's list. *)
Definition isolated (services : list Service) (s : Service) : Prop :=
  deps_of s = [] ∧ Forall (fun t => t ≠ s → svc_id s ∉ dep_ids t) services.

#[global] Instance isolated_dec services s : Decision (isolated services s).
Proof. unfold isolated. apply _. Defined.

(** How many of [names] are equal to [l] once lower-cased. *)
Definition share_count (toLowerCase : string → string) (names : list string) (l : string)
  : nat :=
  length (filter (fun n => toLowerCase n = l) names).

(** Lower-casing of the letters A to Z, for the examples. *)
Definition ascii_lower (c : Ascii.ascii) : Ascii.ascii :=
  let n := Ascii.nat_of_ascii c in
  if ((65 <=? n) && (n <=? 90))%nat then Ascii.ascii_of_nat (n + 32) else c.

Fixpoint lower (s : string) : string :=
  match s with
  | EmptyString => EmptyString
  | String c s => String (ascii_lower c) (lower s)
  end.

(** The nodes of a forest at recursion depth [k], the roots being at
    depth 1. *)
Fixpoint nodes_at (k : nat) (forest : list DepNode) : list DepNode :=
  match k with
  | O => []
  | S k' =>
    match k' with
    | O => forest
    | S _ => forest ≫= (fun n => nodes_at k' (node_children n))
    end
  end.

(** All the nodes of a tree, and of a forest, parents first. *)
Fixpoint tree_nodes (n : DepNode) : list DepNode :=
  n :: (fix forest_nodes (ns : list DepNode) : list DepNode :=
          match ns with
          | [] => []
          | n :: ns => tree_nodes n ++ forest_nodes ns
          end) (node_children n).

Definition forest_nodes (forest : list DepNode) : list DepNode :=
  forest ≫= tree_nodes.

(** How often the id [i] occurs in a forest. *)
Definition occurrences (i : string) (forest : list DepNode) : nat :=
  length (filter (fun n => node_id n = i) (forest_nodes forest)).

(** [i] is a child of a root of the forest whose id is [parent]. *)
Definition child_of (i parent : string) (forest : list DepNode) : Prop :=
  ∃ n, n ∈ forest ∧ node_id n = parent ∧ i ∈ node_id <$> node_children n.

(** The diamond of the specification: A depends on B and C, each of
    which depends on D. *)
Definition diamond : list Service :=
  [mkService "A" "a" None None (Some [mkDependency "B" None None; mkDependency "C" None None]);
   mkService "B" "b" None None (Some [mkDependency "D" None None]);
   mkService "C" "c" None None (Some [mkDependency "D" None None]);
   mkService "D" "d" None None None].

(** A detection of [findCircularDeps]: the origin service and the id
    where the walk closed a cycle; its dedup key, and the unordered pair
    of ids it stands for. *)
Definition detection_key (p : Service * string) : string :=
  sorted_pair_key (svc_id p.1) p.2.

Definition unordered_pair (p : Service * string) : gset string :=
  {[svc_id p.1; p.2]}.

(** Whether a string contains the separator of the dedup key. *)
Fixpoint has_colon (s : string) : bool :=
  match s with
  | EmptyString => false
  | String c s => Ascii.eqb c ":"%char || has_colon s
  end.

(** A catalog with unique ids in which the key of a self-dependency,
    of [x:x] on itself, is also the key of another detection, of the
    origin [x] closing at [x:x:x]. *)
Definition colliding : list Service :=
  [mkService "x" "O" None None (Some [mkDependency "x:x:x" None None]);
   mkService "x:x:x" "P" None None (Some [mkDependency "x:x:x" None None]);
   mkService "x:x" "A" None None (Some [mkDependency "x:x" None None])].

(** ** Auxiliary definitions of the proofs *)

(** One step of [buildReverseIndex], on an edge. *)
Definition add_edge (reverse : gmap string (list RevEntry)) (e : string * RevEntry)
  : gmap string (list RevEntry) :=
  <[e.1 := default [] (reverse !! e.1) ++ [e.2]]> reverse.

(** Rendering the results of a walk state. *)
Definition map_results {R R' : Type} (g : R → R') (st : WalkState R) : WalkState R' :=
  mkWalkState (ancestors st) (reported st) (g <$> results st).

(** The finding [check] pushes for an entry of [seen]. *)
Definition duplicateFinding (kind : string) (p : string * nat) : LintResult :=
  mkLintResult "duplicate_name" error p.1 kind
    (show_nat p.2 +:+ " " +:+ kind +:+ "s share the name " +:+ dquote +:+ p.1 +:+ dquote)
    None.

(** The body of the counting loop of [check]. *)
Definition seen_step (toLowerCase : string → string) (seen : list (string * nat))
    (item : string) : list (string * nat) :=
  seen_set seen (toLowerCase item) (default 0 (seen_get seen (toLowerCase item)) + 1)%nat.

(** The body of the loop of [findCircularDeps] over the origins. *)
Definition origin_body {R : Type} (emit : Service → string → R)
    (m : gmap string Service) (service : Service) (st : WalkState R)
  : option (WalkState R) :=
  for_st (fun dep st => walk emit (S (size m)) service m (dep_service dep) st)
         (default [] (m !! svc_id service ≫= svc_dependsOn))
         (mkWalkState {[svc_id service]} (reported st) (results st)).

(** The reported keys are the keys of the detections, each once. *)
Definition keys_agree (st : WalkState (Service * string)) : Prop :=
  reported st = list_to_set (detection_key <$> results st)
  ∧ NoDup (detection_key <$> results st).


(** The catalog of the test suite of [deps.ts]. *)
Definition sample : list Service :=
  [mkService "gw" "gateway" None None
     (Some [mkDependency "auth" (Some "OAuth") None;
            mkDependency "payments" (Some "Checkout API") None]);
   mkService "auth" "auth" None None None;
   mkService "payments" "payments" None None
     (Some [mkDependency "stripe" None (Some "Processes events");
            mkDependency "auth" (Some "Service tokens") None]);
   mkService "stripe" "stripe-webhook" None None None;
   mkService "notifications" "notifications" None None None].

(** A service with the given dependencies and nothing else. *)
Definition plain (i n : string) (targets : list string) : Service :=
  mkService i n None None (Some ((fun t => mkDependency t None None) <$> targets)).

(** ** Relation resolver ([relations.ts]) *)

Record CatalogData := mkCatalogData {
  cat_services : list Service;
  cat_systems : list System;
  cat_owners : list Owner
}.

(** [ResolvedService]; an entry of [dependents] has the shape of an
    entry of the reverse index. *)
Record ResolvedService := mkResolvedService {
  rs_service : Service;
  rs_owner : option Owner;
  rs_system : option System;
  rs_dependents : list RevEntry
}.

Record ResolvedSystem := mkResolvedSystem {
  ry_system : System;
  ry_owner : option Owner;
  ry_services : list Service
}.

Record ResolvedOwner := mkResolvedOwner {
  ro_owner : Owner;
  ro_services : list Service;
  ro_systems : list System
}.

(** [o.id === ref] where [ref] is an optional string: [undefined] is
    equal to no string. *)
Definition ref_is (ref : option string) (i : string) : bool :=
  match ref with
  | None => false
  | Some r => String.eqb r i
  end.

(** [resolveService]: the first service with the id, its owner and
    system if the references are set and resolve, and for every service
    that depends on the id the first of its dependencies on it. *)
Definition resolveService (serviceId : string) (catalog : CatalogData)
  : option ResolvedService :=
  match find (fun s => String.eqb (svc_id s) serviceId) (cat_services catalog) with
  | None => None
  | Some service =>
    Some (mkResolvedService service
            (if truthy (svc_owner service)
             then find (fun o => String.eqb (own_id o) (str (svc_owner service)))
                       (cat_owners catalog)
             else None)
            (if truthy (svc_system service)
             then find (fun s => String.eqb (sys_id s) (str (svc_system service)))
                       (cat_systems catalog)
             else None)
            (omap (fun s =>
                     match find (fun d => String.eqb (dep_service d) serviceId) (deps_of s) with
                     | None => None
                     | Some dep => Some (mkRevEntry s (dep_api dep) (dep_description dep))
                     end)
                  (filter (fun s => existsb (fun d => String.eqb (dep_service d) serviceId)
                                            (deps_of s) = true)
                          (cat_services catalog))))
  end.

Definition resolveSystem (systemId : string) (catalog : CatalogData)
  : option ResolvedSystem :=
  match find (fun s => String.eqb (sys_id s) systemId) (cat_systems catalog) with
  | None => None
  | Some system =>
    Some (mkResolvedSystem system
            (if truthy (sys_owner system)
             then find (fun o => String.eqb (own_id o) (str (sys_owner system)))
                       (cat_owners catalog)
             else None)
            (filter (fun s => ref_is (svc_system s) systemId = true) (cat_services catalog)))
  end.

Definition resolveOwner (ownerId : string) (catalog : CatalogData)
  : option ResolvedOwner :=
  match find (fun o => String.eqb (own_id o) ownerId) (cat_owners catalog) with
  | None => None
  | Some owner =>
    Some (mkResolvedOwner owner
            (filter (fun s => ref_is (svc_owner s) ownerId = true) (cat_services catalog))
            (filter (fun s => ref_is (sys_owner s) ownerId = true) (cat_systems catalog)))
  end.

(** ** The [lint] command ([commands/lint.ts]) *)

(** The object the command prints with [--json]. *)
Record LintReport := mkLintReport {
  rep_success : bool;
  rep_errors : nat;
  rep_warnings : nat;
  rep_results : list LintResult
}.

(** [lint], on a catalog already read from the store: the report and
    the exit code of the process. *)
Definition lint (toLowerCase : string → string) (services : list Service)
    (systems : list System) (owners : list Owner) : option (LintReport * nat) :=
  results ← runLintChecks toLowerCase services systems owners;
  let errors := filter (fun r => lr_severity r = error) results in
  let warnings := filter (fun r => lr_severity r = warning) results in
  Some (mkLintReport (length errors =? 0)%nat (length errors) (length warnings) results,
        if (0 <? length errors)%nat then 1%nat else 0%nat).

(** ** The [deps] command ([commands/deps.ts]) *)

Section RenderTree.
(** [dim] of [utils/output.ts], a styling of the terminal library, is
    taken as given. *)
Variable dim : string → string.

(** [parts.join(" ")] *)
Fixpoint join_space (parts : list string) : string :=
  match parts with
  | [] => EmptyString
  | [p] => p
  | p :: parts => p +:+ " " +:+ join_space parts
  end.

(** The line [renderTree] prints for a node. *)
Definition node_line (prefix connector : string) (node : DepNode) : string :=
  let parts :=
    [node_name node]
    ++ (if truthy (node_api node) then [dim ("(" +:+ str (node_api node) +:+ ")")] else [])
    ++ (if truthy (node_description node)
        then [dim ("— " +:+ str (node_description node))] else []) in
  prefix +:+ connector +:+ join_space parts.

(** One iteration of the loop of [renderTree], for the node at index
    [i] where [isLast] tells whether [i] is the last index; the lines
    are returned in the order they are printed. *)
Fixpoint renderNode (prefix : string) (isLast : bool) (node : DepNode) : list string :=
  let connector := if isLast then "└── " else "├── " in
  let childPrefix := if isLast then "    " else "│   " in
  node_line prefix connector node
  :: (fix renderTree (nodes : list DepNode) : list string :=
        match nodes with
        | [] => []
        | node :: nodes =>
          renderNode (prefix +:+ childPrefix)
                     (match nodes with [] => true | _ => false end) node
          ++ renderTree nodes
        end) (node_children node).

Fixpoint renderTree (nodes : list DepNode) (prefix : string) : list string :=
  match nodes with
  | [] => []
  | node :: nodes =>
    renderNode prefix (match nodes with [] => true | _ => false end) node
    ++ renderTree nodes prefix
  end.
End RenderTree.

(** ** Notions used to state further properties *)

(** [a] depends on [b]: the service that the id [a] resolves to lists
    [b] in its [dependsOn]. *)
Definition depends (m : gmap string Service) (a b : string) : Prop :=
  ∃ s, m !! a = Some s ∧ b ∈ dep_ids s.

(** What a node shows of the dependency it was built from. *)
Definition node_label (n : DepNode) : string * string * option string * option string :=
  (node_id n, node_name n, node_api n, node_description n).

Definition dep_label (m : gmap string Service) (dep : Dependency)
  : string * string * option string * option string :=
  (dep_service dep, default (dep_service dep) (svc_name <$> m !! dep_service dep),
   dep_api dep, dep_description dep).

Definition entry_label (e : RevEntry) : string * string * option string * option string :=
  (svc_id (rev_service e), svc_name (rev_service e), rev_api e, rev_description e).

(** The ids of the nodes of a forest that have children. *)
Definition expanded (forest : list DepNode) : list string :=
  node_id <$> filter (fun n => node_children n ≠ []) (forest_nodes forest).

(** Where a node has children, they are the dependencies of its
    service. *)
Definition children_of_service (m : gmap string Service) (n : DepNode) : Prop :=
  node_children n = []
  ∨ ∃ s, m !! node_id n = Some s
         ∧ node_label <$> node_children n = dep_label m <$> deps_of s.

(** Every reference that is set resolves: systems and owners named by
    services, owners named by systems, and targets of dependencies. *)
Definition refs_resolve (services : list Service) (systems : list System)
    (owners : list Owner) : Prop :=
  (∀ s, s ∈ services → truthy (svc_system s) = true →
        str (svc_system s) ∈ sys_id <$> systems)
  ∧ (∀ s, s ∈ services → truthy (svc_owner s) = true →
          str (svc_owner s) ∈ own_id <$> owners)
  ∧ (∀ y, y ∈ systems → truthy (sys_owner y) = true →
          str (sys_owner y) ∈ own_id <$> owners)
  ∧ (∀ s d, s ∈ services → d ∈ deps_of s → dep_service d ∈ svc_id <$> services).

(** A catalog about which the checker has nothing to say. *)
Definition clean_catalog (toLowerCase : string → string) (services : list Service)
    (systems : list System) (owners : list Owner) : Prop :=
  refs_resolve services systems owners
  ∧ (∀ s, s ∈ services → truthy (svc_owner s) = true)
  ∧ (∀ x, ¬ tc (depends (serviceMap_of services)) x x)
  ∧ NoDup (toLowerCase <$> (svc_name <$> services))
  ∧ NoDup (toLowerCase <$> (sys_name <$> systems))
  ∧ NoDup (toLowerCase <$> (own_name <$> owners))
  ∧ (∀ y, y ∈ systems → ∃ s, s ∈ services ∧ svc_system s = Some (sys_id y)).

(** The finding of [findDanglingDeps] for an edge of the catalog. *)
Definition danglingFinding (e : string * RevEntry) : LintResult :=
  mkLintResult "dangling_dependency" error (svc_name (rev_service e.2)) "service"
    ("Depends on " +:+ dquote +:+ e.1 +:+ dquote +:+ " which does not exist") None.

(** Membership in a list given by its elements. *)
Ltac in_list := solve [repeat first [left | right]].

(** The catalog of the tests of the relation resolver. *)
Definition makeCatalog : CatalogData :=
  mkCatalogData
    [mkService "s1" "checkout" (Some "sys1") (Some "o1")
       (Some [mkDependency "s2" (Some "OAuth") None]);
     mkService "s2" "auth" (Some "sys2") (Some "o2") (Some []);
     mkService "s3" "admin-ui" None (Some "o1")
       (Some [mkDependency "s1" None None; mkDependency "s2" None None])]
    [mkSystem "sys1" "payments" (Some "o1"); mkSystem "sys2" "identity" (Some "o2")]
    [mkOwner "o1" "platform"; mkOwner "o2" "auth-team"].

(** A line of [renderTree] for a node: the prefix, an indentation, a
    connector and the text of the node. *)
Definition rendered_as (dim : string → string) (prefix line : string) (node : DepNode)
  : Prop :=
  ∃ indent connector,
    connector ∈ ["└── "; "├── "] ∧ line = node_line dim (prefix +:+ indent) connector node.

(** Induction on a node with the property known for its children. *)
Section DepNode_induction.
Variable P : DepNode → Prop.
Hypothesis Hnode : ∀ n, Forall P (node_children n) → P n.

Fixpoint DepNode_forest_ind (n : DepNode) : P n :=
  match n with
  | mkDepNode i name api description children =>
    Hnode (mkDepNode i name api description children)
      ((fix go (cs : list DepNode) : Forall P cs :=
          match cs with
          | [] => @List.Forall_nil _ P
          | c :: cs => @List.Forall_cons _ P c cs (DepNode_forest_ind c) (go cs)
          end) children)
  end.
End DepNode_induction.

(** [b] is recorded in a reverse index as a dependent of [a]. *)
Definition dependent_in (rev : gmap string (list RevEntry)) (a b : string) : Prop :=
  ∃ e, e ∈ default [] (rev !! a) ∧ svc_id (rev_service e) = b.

(** A service of the list with id [a] lists [b] in its [dependsOn]. *)
Definition depends_in (services : list Service) (a b : string) : Prop :=
  ∃ s, s ∈ services ∧ svc_id s = a ∧ b ∈ dep_ids s.

(** The ids a forest mentions. *)
Definition forest_ids (forest : list DepNode) : list string :=
  node_id <$> forest_nodes forest.

(** A forest of two trees that each have the node [shared] as their
    only child: the one under the first root has the children [sub],
    the one under the second root has none. *)
Definition shared_under_both (shared : string) (forest sub : list DepNode) : Prop :=
  ∃ first second s1 s2,
    forest = [first; second]
    ∧ node_children first = [s1] ∧ node_children second = [s2]
    ∧ node_id s1 = shared ∧ node_id s2 = shared
    ∧ node_children s1 = sub ∧ node_children s2 = [].

(** A diamond stored out of order, whose shared service has a
    dependency of its own. *)
Definition diamond_with_tail : list Service :=
  [mkService "D" "d" None None (Some [mkDependency "E" None None]);
   mkService "C" "c" None None (Some [mkDependency "D" None None]);
   mkService "E" "e" None None None;
   mkService "B" "b" None None (Some [mkDependency "D" None None]);
   mkService "A" "a" None None
     (Some [mkDependency "B" None None; mkDependency "C" None None])].

(** ** The embedding on the cases of the repository's test suites *)

Example walkDown_one_level :
  walkDown "gw" (serviceMap_of sample) (Num 1)
  = Some [mkDepNode "auth" "auth" (Some "OAuth") None [];
          mkDepNode "payments" "payments" (Some "Checkout API") None []].
Proof. vm_compute. reflexivity. Qed.

Example walkDown_all_levels :
  walkDown "gw" (serviceMap_of sample) (Num 10)
  = Some [mkDepNode "auth" "auth" (Some "OAuth") None [];
          mkDepNode "payments" "payments" (Some "Checkout API") None
            [mkDepNode "stripe" "stripe-webhook" None (Some "Processes events") [];
             mkDepNode "auth" "auth" (Some "Service tokens") None []]].
Proof. vm_compute. reflexivity. Qed.

Example walkDown_two_cycle :
  walkDown "a" (serviceMap_of [plain "a" "a" ["b"]; plain "b" "b" ["a"]]) (Num 10)
  = Some [mkDepNode "b" "b" None None [mkDepNode "a" "a" None None []]].
Proof. vm_compute. reflexivity. Qed.

Example walkDown_self_loop_unbounded :
  walkDown "a" (serviceMap_of [plain "a" "a" ["a"]]) NaN
  = Some [mkDepNode "a" "a" None None []].
Proof. vm_compute. reflexivity. Qed.

Example walkUp_two_levels :
  walkUp "stripe" (buildReverseIndex sample) (Num 10)
  = Some [mkDepNode "payments" "payments" None (Some "Processes events")
            [mkDepNode "gw" "gateway" (Some "Checkout API") None []]].
Proof. vm_compute. reflexivity. Qed.

Example reverse_index_of_sample :
  length <$> buildReverseIndex sample !! "auth" = Some 2%nat
  ∧ buildReverseIndex sample !! "gw" = None
  ∧ buildReverseIndex sample !! "notifications" = None.
Proof. vm_compute. done. Qed.

Example findOrphans_sample : svc_name <$> findOrphans sample = ["notifications"].
Proof. vm_compute. reflexivity. Qed.

Example resolveDeps_depth_one :
  resolveDeps "gw" sample (Num 1) (Some Down)
  = Some (mkDepsResult ("gw", "gateway") []
            [mkDepNode "auth" "auth" (Some "OAuth") None [];
             mkDepNode "payments" "payments" (Some "Checkout API") None []]).
Proof. vm_compute. reflexivity. Qed.

Example findCircularDeps_linear :
  findCircularDeps [plain "s1" "svc-a" ["s2"]; plain "s2" "svc-b" ["s3"];
                    plain "s3" "svc-c" []] = Some [].
Proof. vm_compute. reflexivity. Qed.

Example findCircularDeps_diamond : findCircularDeps diamond = Some [].
Proof. vm_compute. reflexivity. Qed.

Example findCircularDeps_self :
  findCircularDeps [plain "s1" "svc-a" ["s1"]]
  = Some [mkLintResult "circular_dependency" error "svc-a" "service"
            "Circular dependency detected: svc-a ↔ svc-a" None].
Proof. vm_compute. reflexivity. Qed.

Example circularDetections_three_cycle :
  fmap (M:=list) (fun p => (svc_id p.1, p.2))
  <$> circularDetections [plain "s1" "svc-a" ["s2"]; plain "s2" "svc-b" ["s3"];
                          plain "s3" "svc-c" ["s1"]]
  = Some [("s1", "s1"); ("s2", "s2"); ("s3", "s3")].
Proof. vm_compute. reflexivity. Qed.

Example findDuplicateNames_case_insensitive :
  findDuplicateNames lower
    [plain "s1" "Auth-Service" []; plain "s2" "auth-service" []] [] []
  = [mkLintResult "duplicate_name" error "auth-service" "service"
       ("2 services share the name " +:+ dquote +:+ "auth-service" +:+ dquote) None].
Proof. vm_compute. reflexivity. Qed.

Example runLintChecks_clean :
  runLintChecks lower
    [mkService "s1" "checkout" (Some "sys1") (Some "o1") (Some [])]
    [mkSystem "sys1" "payments" (Some "o1")] [mkOwner "o1" "platform"]
  = Some [].
Proof. vm_compute. reflexivity. Qed.

(** ** Reverse index *)

Lemma addDependents_edges s reverse :
  addDependents s reverse = foldl add_edge reverse (edges_of s).
Proof.
  unfold addDependents, edges_of. generalize (deps_of s) as ds.
  intros ds. revert reverse. induction ds as [|d ds IH]; intros reverse; simpl; [done|].
  by rewrite IH.
Qed.

Lemma buildReverseIndex_edges_from services reverse :
  foldl (fun reverse s => addDependents s reverse) reverse services
  = foldl add_edge reverse (edges services).
Proof.
  unfold edges. revert reverse.
  induction services as [|s services IH]; intros reverse; simpl; [done|].
  by rewrite foldl_app, IH, addDependents_edges.
Qed.

Lemma buildReverseIndex_edges services :
  buildReverseIndex services = foldl add_edge ∅ (edges services).
Proof. apply buildReverseIndex_edges_from. Qed.

Lemma entries_for_cons k e es :
  entries_for k (e :: es)
  = if decide (e.1 = k) then e.2 :: entries_for k es else entries_for k es.
Proof.
  unfold entries_for. rewrite filter_cons. by case_decide.
Qed.

Lemma lookup_foldl_add_edge es acc k :
  foldl add_edge acc es !! k
  = if decide (entries_for k es = []) then acc !! k
    else Some (default [] (acc !! k) ++ entries_for k es).
Proof.
  revert acc. induction es as [|[k' x] es IH]; intros acc; simpl.
  - done.
  - rewrite IH, entries_for_cons. unfold add_edge. simpl.
    destruct (decide (k' = k)) as [->|Hne].
    + rewrite lookup_insert_eq. simpl.
      destruct (decide (entries_for k es = [])) as [He|He].
      * by rewrite He.
      * by rewrite <-(assoc_L (++)).
    + by rewrite lookup_insert_ne.
Qed.

(** The reverse index at [k]: the entries of the edges into [k], in
    order, and no key when there is none. *)
Lemma buildReverseIndex_lookup services k :
  buildReverseIndex services !! k
  = if decide (entries_for k (edges services) = []) then None
    else Some (entries_for k (edges services)).
Proof.
  rewrite buildReverseIndex_edges, lookup_foldl_add_edge, lookup_empty. done.
Qed.

Lemma elem_of_entries_for k es x :
  x ∈ entries_for k es ↔ (k, x) ∈ es.
Proof.
  unfold entries_for. rewrite list_elem_of_fmap. split.
  - intros [[k' x'] [-> [Hk ?]%list_elem_of_filter]]. simpl in *. by subst.
  - intros ?. exists (k, x). split; [done|]. by apply list_elem_of_filter.
Qed.

Lemma elem_of_edges services k x :
  (k, x) ∈ edges services
  ↔ ∃ S D, S ∈ services ∧ D ∈ deps_of S
           ∧ k = dep_service D ∧ x = mkRevEntry S (dep_api D) (dep_description D).
Proof.
  unfold edges, edges_of. rewrite list_elem_of_bind. split.
  - intros [S [[D [[= -> ->] ?]]%list_elem_of_fmap ?]]. by exists S, D.
  - intros (S & D & ? & ? & -> & ->). exists S. split; [|done].
    apply list_elem_of_fmap. by exists D.
Qed.

Lemma buildReverseIndex_None services k :
  buildReverseIndex services !! k = None
  ↔ ∀ S, S ∈ services → k ∉ dep_ids S.
Proof.
  rewrite buildReverseIndex_lookup. split.
  - case_decide as He; [|done]. intros _ S HS [D [-> HD]]%list_elem_of_fmap.
    assert (mkRevEntry S (dep_api D) (dep_description D) ∈ entries_for (dep_service D) (edges services)) as Hin.
    { apply elem_of_entries_for, elem_of_edges. by exists S, D. }
    rewrite He in Hin. by apply not_elem_of_nil in Hin.
  - intros Hno. rewrite decide_True; [done|].
    destruct (entries_for k (edges services)) as [|x l] eqn:E; [done|].
    assert (x ∈ entries_for k (edges services)) as Hin by (rewrite E; left).
    apply elem_of_entries_for, elem_of_edges in Hin as (S & D & HS & HD & -> & _).
    exfalso. apply (Hno S HS). apply list_elem_of_fmap. by exists D.
Qed.

(** C6. Every dependency [D] of every service [S] of the array is
    recorded under [D]'s target id by an entry that references [S] and
    carries [D]'s api and description unchanged; an id that no service
    depends on is not a key of the map. *)
Theorem C6_buildReverseIndex_correct (services : list Service) :
  (∀ S D, S ∈ services → D ∈ deps_of S →
     ∃ entries, buildReverseIndex services !! dep_service D = Some entries
                ∧ mkRevEntry S (dep_api D) (dep_description D) ∈ entries)
  ∧ (∀ i, (∀ S D, S ∈ services → D ∈ deps_of S → dep_service D ≠ i) →
          buildReverseIndex services !! i = None).
Proof.
  split.
  - intros S D HS HD.
    assert (mkRevEntry S (dep_api D) (dep_description D)
              ∈ entries_for (dep_service D) (edges services)) as Hin.
    { apply elem_of_entries_for, elem_of_edges. by exists S, D. }
    rewrite buildReverseIndex_lookup. case_decide as He.
    + rewrite He in Hin. by apply not_elem_of_nil in Hin.
    + eauto.
  - intros i Hno. apply buildReverseIndex_None.
    intros S HS [D [-> HD]]%list_elem_of_fmap. by apply (Hno S D).
Qed.

Lemma C6_buildReverseIndex_correct_witness :
  let gw := mkService "gw" "gateway" None None
              (Some [mkDependency "auth" (Some "OAuth") None]) in
  let auth := mkService "auth" "auth" None None None in
  (∀ S D, S ∈ [gw; auth] → D ∈ deps_of S →
     ∃ entries, buildReverseIndex [gw; auth] !! dep_service D = Some entries
                ∧ mkRevEntry S (dep_api D) (dep_description D) ∈ entries)
  ∧ (∀ i, (∀ S D, S ∈ [gw; auth] → D ∈ deps_of S → dep_service D ≠ i) →
          buildReverseIndex [gw; auth] !! i = None).
Proof.
  apply (C6_buildReverseIndex_correct
           [mkService "gw" "gateway" None None
              (Some [mkDependency "auth" (Some "OAuth") None]);
            mkService "auth" "auth" None None None]).
Defined.

(** ** Orphans *)

Lemma findOrphans_filter services :
  findOrphans services
  = filter (fun s => deps_of s = [] ∧ Forall (fun t => svc_id s ∉ dep_ids t) services) services.
Proof.
  unfold findOrphans. apply list_filter_iff. intros s.
  rewrite andb_true_iff, !negb_true_iff, !Nat.ltb_ge, Forall_forall.
  split.
  - intros [Hd Hu]. split.
    + destruct (deps_of s); [done|simpl in Hd; lia].
    + apply buildReverseIndex_None.
      destruct (buildReverseIndex services !! svc_id s) as [l|] eqn:E; [|done].
      rewrite buildReverseIndex_lookup in E. case_decide; [done|].
      injection E as <-. simpl in Hu.
      destruct (entries_for (svc_id s) (edges services)); [done|simpl in Hu; lia].
  - intros [Hd Hu]. rewrite Hd. split; [done|].
    apply buildReverseIndex_None in Hu. by rewrite Hu.
Qed.

(** C7. [findOrphans] keeps, in the order of the array, exactly the
    services with no outgoing and no incoming dependency edge. *)
Theorem C7_findOrphans_exact (services : list Service) :
  findOrphans services = filter (isolated services) services
  ∧ ∀ s, s ∈ findOrphans services ↔
         s ∈ services ∧ deps_of s = []
         ∧ ∀ t, t ∈ services → t ≠ s → svc_id s ∉ dep_ids t.
Proof.
  assert (∀ s, isolated services s ↔
               deps_of s = [] ∧ Forall (fun t => svc_id s ∉ dep_ids t) services) as Hiso.
  { intros s. unfold isolated. rewrite !Forall_forall. split.
    - intros [Hd Ht]. split; [done|]. intros t Hin.
      destruct (decide (t = s)) as [->|Hne]; [|by apply Ht].
      unfold dep_ids. rewrite Hd. apply not_elem_of_nil.
    - intros [Hd Ht]. split; [done|]. intros t Hin _. by apply Ht. }
  assert (findOrphans services = filter (isolated services) services) as Heq.
  { rewrite findOrphans_filter. apply list_filter_iff. intros s. by rewrite Hiso. }
  split; [done|]. intros s. rewrite Heq, list_elem_of_filter. unfold isolated.
  rewrite Forall_forall. clear. tauto.
Qed.

(** ** The loops [for_st] and [map_st] *)

Lemma for_st_inv {A St : Type} (P : St → Prop) (body : A → St → option St) xs st st' :
  (∀ x s s', x ∈ xs → P s → body x s = Some s' → P s') →
  P st → for_st body xs st = Some st' → P st'.
Proof.
  revert st. induction xs as [|x xs IH]; intros st Hbody HP Hrun; simpl in Hrun.
  - by simplify_eq.
  - destruct (body x st) as [s1|] eqn:E; simpl in Hrun; [|done].
    apply (IH s1); [|by eapply Hbody; [left| |]|done].
    intros y s s' Hy. apply Hbody. by right.
Qed.

Lemma for_st_total {A St : Type} (P : St → Prop) (body : A → St → option St) xs st :
  (∀ x s, x ∈ xs → P s → ∃ s', body x s = Some s' ∧ P s') →
  P st → ∃ st', for_st body xs st = Some st' ∧ P st'.
Proof.
  revert st. induction xs as [|x xs IH]; intros st Hbody HP; simpl.
  - eauto.
  - destruct (Hbody x st) as (s1 & -> & HP1); [left|done|]. simpl.
    apply IH; [|done]. intros y s Hy. apply Hbody. by right.
Qed.

Lemma for_st_app {A St : Type} (body : A → St → option St) xs ys st :
  for_st body (xs ++ ys) st = for_st body xs st ≫= for_st body ys.
Proof.
  revert st. induction xs as [|x xs IH]; intros st; simpl; [done|].
  destruct (body x st); simpl; [apply IH|done].
Qed.

(** ** Cycle detection: the walk *)

Section walk_facts.
Context {R : Type} (emit : Service → string → R).
Implicit Types st : WalkState R.

(** A walk leaves the ancestor set as it found it and only appends to
    the results and to the reported keys. *)
Lemma walk_frame fuel service m i st st' :
  walk emit fuel service m i st = Some st' →
  ancestors st' = ancestors st
  ∧ results st `prefix_of` results st'
  ∧ reported st ⊆ reported st'.
Proof.
  revert i st st'. induction fuel as [|fuel IH]; intros i st st' Hw; simpl in Hw; [done|].
  case_bool_decide as Hin.
  - case_bool_decide; simplify_eq; simpl.
    + done.
    + split_and!; [done|by apply prefix_app_r|set_solver].
  - match type of Hw with context [for_st ?b ?l ?s] =>
      destruct (for_st b l s) as [s1|] eqn:E; simpl in Hw; [|done];
      apply (for_st_inv (fun s' => ancestors s' = {[i]} ∪ ancestors st
                                    ∧ results st `prefix_of` results s'
                                    ∧ reported st ⊆ reported s')) in E
    end.
    + destruct E as (Ha & Hr & Hk). simplify_eq. simpl. rewrite Ha.
      split_and!; [set_solver|done|done].
    + intros d s s' _ (Ha & Hr & Hk) Hs. apply IH in Hs as (Ha' & Hr' & Hk').
      split_and!; [congruence|by etrans|by etrans].
    + done.
Qed.

(** Fuel beyond the number of services not yet on the path is enough. *)
Lemma walk_total fuel service m i st :
  (size (dom m ∖ ancestors st) < fuel)%nat →
  ∃ st', walk emit fuel service m i st = Some st'.
Proof.
  revert i st. induction fuel as [|fuel IH]; intros i st Hfuel; [lia|]. simpl.
  case_bool_decide as Hin.
  - case_bool_decide; eauto.
  - destruct (m !! i) as [s|] eqn:Hs; simpl; [|eauto].
    match goal with |- context [for_st ?b ?l ?s0] =>
      destruct (for_st_total (fun s' => ancestors s' = {[i]} ∪ ancestors st) b l s0)
        as (s1 & -> & _)
    end; simpl; [|done|eauto].
    intros d s' _ Ha. destruct (IH (dep_service d) s') as [s'' Hs''].
    + rewrite Ha.
      assert (dom m ∖ ({[i]} ∪ ancestors st) ⊂ dom m ∖ ancestors st) as Hlt.
      { apply elem_of_dom_2 in Hs. set_solver. }
      apply subset_size in Hlt. lia.
    + exists s''. split; [done|]. apply walk_frame in Hs'' as [-> _]. done.
Qed.

Lemma findCircularDeps_with_total services :
  ∃ rs, findCircularDeps_with emit services = Some rs.
Proof.
  unfold findCircularDeps_with.
  match goal with |- context [for_st ?b ?l ?s0] =>
    destruct (for_st_total (fun _ => True) b l s0) as (s1 & -> & _)
  end; simpl; [|done|eauto].
  intros service st _ _.
  match goal with |- context [for_st ?b ?l ?s0] =>
    destruct (for_st_total (fun s' => ancestors s' = {[svc_id service]}) b l s0)
      as (s1 & -> & _)
  end; [|done|eauto].
  intros d s' _ Ha.
  destruct (walk_total (S (size (serviceMap_of services))) service
              (serviceMap_of services) (dep_service d) s') as [s'' Hs''].
  - rewrite <-size_dom.
    assert (size (dom (serviceMap_of services) ∖ ancestors s')
            ≤ size (dom (serviceMap_of services)))%nat; [|lia].
    apply subseteq_size. set_solver.
  - exists s''. split; [done|]. apply walk_frame in Hs'' as [-> _]. done.
Qed.
End walk_facts.

(** *** The walk does not depend on what it records *)

Lemma for_st_sim {A St St' : Type} (h : St → St')
    (body : A → St → option St) (body' : A → St' → option St') xs st :
  (∀ x s, x ∈ xs → body' x (h s) = h <$> body x s) →
  for_st body' xs (h st) = h <$> for_st body xs st.
Proof.
  revert st. induction xs as [|x xs IH]; intros st Hbody; simpl; [done|].
  rewrite Hbody by left. destruct (body x st) as [s1|]; simpl; [|done].
  apply IH. intros y s Hy. apply Hbody. by right.
Qed.

Section walk_map.
Context {R R' : Type} (emit : Service → string → R) (g : R → R').

Lemma walk_map fuel service m i st :
  walk (fun s i => g (emit s i)) fuel service m i (map_results g st)
  = map_results g <$> walk emit fuel service m i st.
Proof.
  revert i st. induction fuel as [|fuel IH]; intros i st; simpl; [done|].
  case_bool_decide.
  - case_bool_decide; simpl; [done|].
    unfold map_results. simpl. by rewrite fmap_app.
  - match goal with |- context [for_st ?b ?l (mkWalkState ?a ?k ?r)] =>
      change (mkWalkState a k r)
        with (map_results g (mkWalkState ({[i]} ∪ ancestors st) (reported st) (results st)))
    end.
    erewrite for_st_sim; [|intros; apply IH].
    match goal with |- context [for_st ?b ?l ?s] => destruct (for_st b l s) end; done.
Qed.

Lemma findCircularDeps_with_map services :
  findCircularDeps_with (fun s i => g (emit s i)) services
  = fmap (M:=list) g <$> findCircularDeps_with emit services.
Proof.
  unfold findCircularDeps_with.
  change (@mkWalkState R' ∅ ∅ [])
    with (map_results g (@mkWalkState R ∅ ∅ [])).
  erewrite for_st_sim; cycle 1.
  { intros service st _. cbv beta zeta.
    change (reported (map_results g st)) with (reported st).
    change (results (map_results g st)) with (g <$> results st).
    match goal with |- context [for_st ?b ?l (mkWalkState ?a ?k ?r)] =>
      change (mkWalkState a k r)
        with (map_results g (mkWalkState {[svc_id service]} (reported st) (results st)))
    end.
    apply for_st_sim. intros. apply walk_map. }
  match goal with |- context [for_st ?b ?l ?s] => destruct (for_st b l s) end; done.
Qed.
End walk_map.

(** The findings of [findCircularDeps] are its detections, rendered. *)
Lemma findCircularDeps_detections services :
  findCircularDeps services
  = fmap (M:=list) (fun p => circularFinding (serviceMap_of services) p.1 p.2)
    <$> circularDetections services.
Proof.
  unfold findCircularDeps, circularDetections.
  by rewrite <-(findCircularDeps_with_map (fun s i => (s, i))).
Qed.

Lemma findCircularDeps_total services :
  ∃ fs, findCircularDeps services = Some fs
        ∧ Forall (fun f => lr_type f = "circular_dependency") fs.
Proof.
  rewrite findCircularDeps_detections.
  destruct (findCircularDeps_with_total (fun s i => (s, i)) services) as [ps Hps].
  unfold circularDetections. rewrite Hps. simpl. eexists. split; [done|].
  apply Forall_fmap, Forall_true. done.
Qed.

(** ** Traversals: termination *)

Lemma map_st_inv {A B St : Type} (P : St → Prop) (Q : B → Prop)
    (f : A → St → option (B * St)) xs st ys st' :
  (∀ x s y s', x ∈ xs → P s → f x s = Some (y, s') → Q y ∧ P s') →
  P st → map_st f xs st = Some (ys, st') → Forall Q ys ∧ P st'.
Proof.
  revert st ys. induction xs as [|x xs IH]; intros st ys Hf HP Hrun; simpl in Hrun.
  - by simplify_eq.
  - destruct (f x st) as [[y s1]|] eqn:E; simpl in Hrun; [|done].
    destruct (map_st f xs s1) as [[ys1 s2]|] eqn:E1; simpl in Hrun; [|done].
    simplify_eq. destruct (Hf x st y s1) as [HQ HP1]; [left|done|done|].
    destruct (IH s1 ys1) as [HQs HP2]; [|done|done|by split; [constructor|]].
    intros z s z' s' Hz. apply Hf. by right.
Qed.

Lemma map_st_total {A B St : Type} (P : St → Prop)
    (f : A → St → option (B * St)) xs st :
  (∀ x s, x ∈ xs → P s → ∃ y s', f x s = Some (y, s') ∧ P s') →
  P st → ∃ ys st', map_st f xs st = Some (ys, st') ∧ P st'.
Proof.
  revert st. induction xs as [|x xs IH]; intros st Hf HP; simpl.
  - eauto.
  - destruct (Hf x st) as (y & s1 & -> & HP1); [left|done|]. simpl.
    destruct (IH s1) as (ys & s2 & -> & HP2); [|done|simpl; eauto].
    intros z s Hz. apply Hf. by right.
Qed.

Lemma map_st_mono {A B St : Type} (f f' : A → St → option (B * St)) xs st r :
  (∀ x s r, x ∈ xs → f x s = Some r → f' x s = Some r) →
  map_st f xs st = Some r → map_st f' xs st = Some r.
Proof.
  revert st r. induction xs as [|x xs IH]; intros st r Hf Hrun; simpl in *; [done|].
  destruct (f x st) as [[y s1]|] eqn:E; simpl in Hrun; [|done].
  rewrite (Hf x st (y, s1)) by (done || left). simpl.
  destruct (map_st f xs s1) as [[ys s2]|] eqn:E1; simpl in Hrun; [|done].
  rewrite (IH s1 (ys, s2)); [done| |done]. intros z s r' Hz. apply Hf. by right.
Qed.

(** The visited set only grows. *)
Lemma walkDown_from_visited fuel i m maxDepth v d forest v' :
  walkDown_from fuel i m maxDepth v d = Some (forest, v') → v ⊆ v'.
Proof.
  revert i v d forest v'. induction fuel as [|fuel IH]; intros i v d forest v' Hw;
    simpl in Hw; [done|].
  destruct (geq d maxDepth || bool_decide (i ∈ v)); [by simplify_eq|].
  destruct (m !! i) as [s|]; [|simplify_eq; set_solver].
  apply (map_st_inv (fun s => v ⊆ s) (fun _ => True)) in Hw as [_ ?]; [done| |set_solver].
  intros dep v0 y v1 _ Hs Hdep. split; [done|].
  destruct (walkDown_from fuel _ m maxDepth v0 (d + 1)) as [[ch s1]|] eqn:E;
    simpl in Hdep; [|done].
  simplify_eq. apply IH in E. set_solver.
Qed.

Lemma walkUp_from_visited fuel i rev maxDepth v d forest v' :
  walkUp_from fuel i rev maxDepth v d = Some (forest, v') → v ⊆ v'.
Proof.
  revert i v d forest v'. induction fuel as [|fuel IH]; intros i v d forest v' Hw;
    simpl in Hw; [done|].
  destruct (geq d maxDepth || bool_decide (i ∈ v)); [by simplify_eq|].
  apply (map_st_inv (fun s => v ⊆ s) (fun _ => True)) in Hw as [_ ?]; [done| |set_solver].
  intros dep v0 y v1 _ Hs Hdep. split; [done|].
  destruct (walkUp_from fuel _ rev maxDepth v0 (d + 1)) as [[ch s1]|] eqn:E;
    simpl in Hdep; [|done].
  simplify_eq. apply IH in E. set_solver.
Qed.

(** Every call that goes past its guard marks a service that was not
    marked before, so fuel beyond the number of unmarked keys of the map
    is never used up. *)
Lemma walkDown_from_total fuel i m maxDepth v d :
  (size (dom m ∖ v) < fuel)%nat →
  ∃ forest v', walkDown_from fuel i m maxDepth v d = Some (forest, v').
Proof.
  revert i v d. induction fuel as [|fuel IH]; intros i v d Hfuel; [lia|]. simpl.
  destruct (geq d maxDepth || bool_decide (i ∈ v)) eqn:Hguard; [eauto|].
  apply orb_false_iff in Hguard as [_ Hin%bool_decide_eq_false].
  destruct (m !! i) as [s|] eqn:Hs; [|eauto].
  assert (size (dom m ∖ ({[i]} ∪ v)) < size (dom m ∖ v))%nat as Hlt.
  { apply subset_size. apply elem_of_dom_2 in Hs. set_solver. }
  match goal with |- context [map_st ?f ?l ?s0] =>
    destruct (map_st_total (fun s' => {[i]} ∪ v ⊆ s') f l s0) as (ys & s1 & -> & _)
  end; [|done|eauto].
  intros dep v0 _ Hsub.
  destruct (IH (dep_service dep) v0 (d + 1)) as (ch & s'' & Hch).
  - assert (size (dom m ∖ v0) ≤ size (dom m ∖ ({[i]} ∪ v)))%nat; [|lia].
    apply subseteq_size. set_solver.
  - rewrite Hch. simpl. eexists _, _. split; [done|].
    apply walkDown_from_visited in Hch. set_solver.
Qed.

Lemma walkUp_from_total fuel i rev maxDepth v d :
  (size (dom rev ∖ v) < fuel)%nat →
  ∃ forest v', walkUp_from fuel i rev maxDepth v d = Some (forest, v').
Proof.
  revert i v d. induction fuel as [|fuel IH]; intros i v d Hfuel; [lia|]. simpl.
  destruct (geq d maxDepth || bool_decide (i ∈ v)) eqn:Hguard; [eauto|].
  apply orb_false_iff in Hguard as [_ Hin%bool_decide_eq_false].
  destruct (rev !! i) as [l|] eqn:Hl; simpl; [|eauto].
  assert (size (dom rev ∖ ({[i]} ∪ v)) < size (dom rev ∖ v))%nat as Hlt.
  { apply subset_size. apply elem_of_dom_2 in Hl. set_solver. }
  match goal with |- context [map_st ?f ?l ?s0] =>
    destruct (map_st_total (fun s' => {[i]} ∪ v ⊆ s') f l s0) as (ys & s1 & -> & _)
  end; [|done|eauto].
  intros dep v0 _ Hsub.
  destruct (IH (svc_id (rev_service dep)) v0 (d + 1)) as (ch & s'' & Hch).
  - assert (size (dom rev ∖ v0) ≤ size (dom rev ∖ ({[i]} ∪ v)))%nat; [|lia].
    apply subseteq_size. set_solver.
  - rewrite Hch. simpl. eexists _, _. split; [done|].
    apply walkUp_from_visited in Hch. set_solver.
Qed.

(** More fuel does not change a result. *)
Lemma walkDown_from_fuel fuel fuel' i m maxDepth v d r :
  (fuel ≤ fuel')%nat →
  walkDown_from fuel i m maxDepth v d = Some r →
  walkDown_from fuel' i m maxDepth v d = Some r.
Proof.
  revert fuel' i v d r. induction fuel as [|fuel IH]; intros fuel' i v d r Hle Hw; [done|].
  destruct fuel' as [|fuel']; [lia|]. simpl in *.
  destruct (geq d maxDepth || bool_decide (i ∈ v)); [done|].
  destruct (m !! i) as [s|]; [|done].
  eapply map_st_mono; [|done]. intros dep s0 r0 _ Hdep. simpl in *.
  destruct (walkDown_from fuel _ m maxDepth s0 (d + 1)) as [r1|] eqn:E; [|done].
  by rewrite (IH fuel' _ _ _ r1) by (lia || done).
Qed.

Lemma walkUp_from_fuel fuel fuel' i rev maxDepth v d r :
  (fuel ≤ fuel')%nat →
  walkUp_from fuel i rev maxDepth v d = Some r →
  walkUp_from fuel' i rev maxDepth v d = Some r.
Proof.
  revert fuel' i v d r. induction fuel as [|fuel IH]; intros fuel' i v d r Hle Hw; [done|].
  destruct fuel' as [|fuel']; [lia|]. simpl in *.
  destruct (geq d maxDepth || bool_decide (i ∈ v)); [done|].
  eapply map_st_mono; [|done]. intros dep s0 r0 _ Hdep. simpl in *.
  destruct (walkUp_from fuel _ rev maxDepth s0 (d + 1)) as [r1|] eqn:E; [|done].
  by rewrite (IH fuel' _ _ _ r1) by (lia || done).
Qed.

Lemma walkDown_total i m maxDepth : ∃ forest, walkDown i m maxDepth = Some forest.
Proof.
  unfold walkDown.
  destruct (walkDown_from_total (S (size m)) i m maxDepth ∅ 0) as (forest & v' & ->).
  - rewrite <-size_dom.
    assert (size (dom m ∖ (∅ : gset string)) ≤ size (dom m))%nat; [|lia].
    apply subseteq_size. set_solver.
  - simpl. eauto.
Qed.

Lemma walkUp_total i rev maxDepth : ∃ forest, walkUp i rev maxDepth = Some forest.
Proof.
  unfold walkUp.
  destruct (walkUp_from_total (S (size rev)) i rev maxDepth ∅ 0) as (forest & v' & ->).
  - rewrite <-size_dom.
    assert (size (dom rev ∖ (∅ : gset string)) ≤ size (dom rev))%nat; [|lia].
    apply subseteq_size. set_solver.
  - simpl. eauto.
Qed.

(** The top-level calls agree with any run that had fuel enough. *)
Lemma walkDown_run fuel i m maxDepth forest v' :
  walkDown_from fuel i m maxDepth ∅ 0 = Some (forest, v') →
  walkDown i m maxDepth = Some forest.
Proof.
  intros Hrun. destruct (walkDown_total i m maxDepth) as [forest' Htop].
  rewrite Htop. unfold walkDown in Htop.
  destruct (walkDown_from (S (size m)) i m maxDepth ∅ 0) as [[f1 v1]|] eqn:E;
    simpl in Htop; [|done]. simplify_eq.
  destruct (decide (fuel ≤ S (size m))%nat).
  - apply (walkDown_from_fuel _ (S (size m))) in Hrun; [|done]. congruence.
  - apply (walkDown_from_fuel _ fuel) in E; [|lia]. congruence.
Qed.

Lemma walkUp_run fuel i rev maxDepth forest v' :
  walkUp_from fuel i rev maxDepth ∅ 0 = Some (forest, v') →
  walkUp i rev maxDepth = Some forest.
Proof.
  intros Hrun. destruct (walkUp_total i rev maxDepth) as [forest' Htop].
  rewrite Htop. unfold walkUp in Htop.
  destruct (walkUp_from (S (size rev)) i rev maxDepth ∅ 0) as [[f1 v1]|] eqn:E;
    simpl in Htop; [|done]. simplify_eq.
  destruct (decide (fuel ≤ S (size rev))%nat).
  - apply (walkUp_from_fuel _ (S (size rev))) in Hrun; [|done]. congruence.
  - apply (walkUp_from_fuel _ fuel) in E; [|lia]. congruence.
Qed.

Lemma size_unmarked (m : gset string) (v : gset string) : (size (m ∖ v) < S (size m))%nat.
Proof.
  assert (size (m ∖ v) ≤ size m)%nat; [|lia]. apply subseteq_size. set_solver.
Qed.

(** C4. Whatever the dependency relation (cycles and self-loops
    included) and whatever the depth limit, [walkDown] and [walkUp]
    return a forest; so do they when the caller passes a visited set
    and a depth of its own. *)
Theorem C4_walks_terminate :
  (∀ (serviceId : string) (serviceMap : gmap string Service) (maxDepth : number),
     ∃ forest, walkDown serviceId serviceMap maxDepth = Some forest)
  ∧ (∀ (serviceId : string) (reverseIndex : gmap string (list RevEntry)) (maxDepth : number),
       ∃ forest, walkUp serviceId reverseIndex maxDepth = Some forest)
  ∧ (∀ (serviceId : string) (serviceMap : gmap string Service) (maxDepth : number)
       (visited : gset string) (depth : Z),
       ∃ forest visited',
         walkDown_from (S (size serviceMap)) serviceId serviceMap maxDepth visited depth
         = Some (forest, visited'))
  ∧ (∀ (serviceId : string) (reverseIndex : gmap string (list RevEntry)) (maxDepth : number)
       (visited : gset string) (depth : Z),
       ∃ forest visited',
         walkUp_from (S (size reverseIndex)) serviceId reverseIndex maxDepth visited depth
         = Some (forest, visited')).
Proof.
  split_and!.
  - apply walkDown_total.
  - apply walkUp_total.
  - intros. apply walkDown_from_total. rewrite <-size_dom. apply size_unmarked.
  - intros. apply walkUp_from_total. rewrite <-size_dom. apply size_unmarked.
Qed.

(** ** Traversals: the depth bound *)

Lemma nodes_at_nil k : nodes_at k [] = [].
Proof. by destruct k as [|[|k]]. Qed.

Lemma nodes_at_SS k forest :
  nodes_at (S (S k)) forest = forest ≫= (fun n => nodes_at (S k) (node_children n)).
Proof. done. Qed.

Lemma bind_nil_Forall {A B : Type} (f : A → list B) (xs : list A) :
  Forall (fun x => f x = []) xs → xs ≫= f = [].
Proof. induction 1 as [|x xs Hx _ IH]; [done|]. by rewrite bind_cons, Hx, IH. Qed.

(** A call at depth [d] with limit [D] returns a forest whose levels
    beyond [D - d] are empty and whose nodes at level [D - d] are
    leaves. *)
Lemma walkDown_from_depth fuel i m (D : Z) v d forest v' :
  walkDown_from fuel i m (Num D) v d = Some (forest, v') →
  (∀ k : nat, D - d < Z.of_nat k → nodes_at k forest = [])
  ∧ (∀ k : nat, Z.of_nat k = D - d → Forall (fun n => node_children n = []) (nodes_at k forest))
  ∧ (D ≤ d → forest = []).
Proof.
  revert i v d forest v'. induction fuel as [|fuel IH]; intros i v d forest v' Hw;
    simpl in Hw; [done|].
  destruct (D <=? d) eqn:Hd; simpl in Hw.
  { simplify_eq. split_and!; intros; rewrite ?nodes_at_nil; done. }
  apply Z.leb_gt in Hd.
  destruct (bool_decide (i ∈ v)).
  { simplify_eq. split_and!; intros; rewrite ?nodes_at_nil; done. }
  destruct (m !! i) as [s|].
  2:{ simplify_eq. split_and!; intros; rewrite ?nodes_at_nil; done. }
  apply (map_st_inv (fun _ => True)
           (fun n => (∀ k : nat, D - (d + 1) < Z.of_nat k → nodes_at k (node_children n) = [])
                     ∧ (∀ k : nat, Z.of_nat k = D - (d + 1) →
                          Forall (fun n => node_children n = []) (nodes_at k (node_children n)))
                     ∧ (D ≤ d + 1 → node_children n = [])))
    in Hw as [Hall _]; [| |done].
  2:{ intros dep v0 y v1 _ _ Hdep. split; [|done].
      destruct (walkDown_from fuel _ m (Num D) v0 (d + 1)) as [[ch v2]|] eqn:E;
        simpl in Hdep; [|done].
      simplify_eq. simpl. by eapply IH. }
  split_and!.
  - intros [|[|k]] Hk; [done|lia|]. rewrite nodes_at_SS. apply bind_nil_Forall.
    eapply Forall_impl; [done|]. intros n (Hn & _ & _). apply Hn. lia.
  - intros [|[|k]] Hk; [done| |].
    + simpl. eapply Forall_impl; [done|]. intros n (_ & _ & Hn). apply Hn. lia.
    + rewrite nodes_at_SS. apply Forall_bind.
      eapply Forall_impl; [done|]. intros n (_ & Hn & _). apply Hn. lia.
  - lia.
Qed.

(** C5. With an integer limit [d], [walkDown] returns no node at a
    recursion depth greater than [d], the nodes at depth [d] have no
    children, and a limit of zero or less gives no node at all. *)
Theorem C5_walkDown_depth_bound (serviceId : string) (serviceMap : gmap string Service)
    (d : Z) :
  ∃ forest,
    walkDown serviceId serviceMap (Num d) = Some forest
    ∧ (∀ k : nat, d < Z.of_nat k → nodes_at k forest = [])
    ∧ (∀ n, n ∈ nodes_at (Z.to_nat d) forest → node_children n = [])
    ∧ (d ≤ 0 → forest = []).
Proof.
  destruct (walkDown_total serviceId serviceMap (Num d)) as [forest Hrun].
  exists forest. split; [done|]. unfold walkDown in Hrun.
  destruct (walkDown_from (S (size serviceMap)) serviceId serviceMap (Num d) ∅ 0)
    as [[f v]|] eqn:E; simpl in Hrun; [|done]. simplify_eq.
  apply walkDown_from_depth in E as (Hdeep & Hleaf & Hzero). split_and!.
  - intros k Hk. apply Hdeep. lia.
  - intros n Hn. destruct (decide (0 ≤ d)) as [Hpos|Hneg].
    + specialize (Hleaf (Z.to_nat d)). rewrite Forall_forall in Hleaf.
      apply Hleaf; [lia|done].
    + rewrite Hzero in Hn by lia. rewrite nodes_at_nil in Hn.
      by apply elem_of_nil in Hn.
  - intros Hd. apply Hzero. lia.
Qed.

Lemma C5_walkDown_depth_bound_witness :
  ∃ forest,
    walkDown "gw" (serviceMap_of
                     [mkService "gw" "gateway" None None
                        (Some [mkDependency "payments" None None]);
                      mkService "payments" "payments" None None
                        (Some [mkDependency "stripe" None None])]) (Num 1)
    = Some forest
    ∧ (∀ k : nat, 1 < Z.of_nat k → nodes_at k forest = [])
    ∧ (∀ n, n ∈ nodes_at (Z.to_nat 1) forest → node_children n = [])
    ∧ (1 ≤ 0 → forest = []).
Proof.
  apply (C5_walkDown_depth_bound "gw"
           (serviceMap_of
              [mkService "gw" "gateway" None None
                 (Some [mkDependency "payments" None None]);
               mkService "payments" "payments" None None
                 (Some [mkDependency "stripe" None None])]) 1).
Defined.

(** ** Traversals: single steps, unknown ids, and the diamond *)

Lemma serviceMap_of_lookup_from services (m : gmap string Service) i :
  i ∉ (svc_id <$> services) →
  foldl (fun m s => <[svc_id s := s]> m) m services !! i = m !! i.
Proof.
  revert m. induction services as [|s services IH]; intros m Hi; simpl; [done|].
  rewrite fmap_cons in Hi. apply not_elem_of_cons in Hi as [Hne Hi].
  rewrite IH by done. by rewrite lookup_insert_ne.
Qed.

Lemma serviceMap_of_None services i :
  i ∉ (svc_id <$> services) → serviceMap_of services !! i = None.
Proof. intros Hi. unfold serviceMap_of. by rewrite serviceMap_of_lookup_from. Qed.

Lemma walkDown_from_stop fuel i m maxDepth v d :
  geq d maxDepth = true ∨ i ∈ v →
  walkDown_from (S fuel) i m maxDepth v d = Some ([], v).
Proof.
  intros Hstop. simpl.
  destruct (geq d maxDepth); [done|]. rewrite bool_decide_eq_true_2; [done|].
  by destruct Hstop.
Qed.

Lemma walkDown_from_absent fuel i m maxDepth v d :
  geq d maxDepth = false → i ∉ v → m !! i = None →
  walkDown_from (S fuel) i m maxDepth v d = Some ([], {[i]} ∪ v).
Proof. intros Hd Hv Hm. simpl. by rewrite Hd, bool_decide_eq_false_2, Hm. Qed.

Lemma walkDown_from_expand fuel i m maxDepth v d service :
  geq d maxDepth = false → i ∉ v → m !! i = Some service →
  walkDown_from (S fuel) i m maxDepth v d
  = map_st (fun dep v =>
              '(children, v) ← walkDown_from fuel (dep_service dep) m maxDepth v (d + 1);
              Some (mkDepNode (dep_service dep)
                              (default (dep_service dep) (svc_name <$> m !! dep_service dep))
                              (dep_api dep) (dep_description dep) children, v))
           (deps_of service) ({[i]} ∪ v).
Proof. intros Hd Hv Hm. simpl. by rewrite Hd, bool_decide_eq_false_2, Hm. Qed.

Lemma walkUp_from_stop fuel i rev maxDepth v d :
  geq d maxDepth = true ∨ i ∈ v →
  walkUp_from (S fuel) i rev maxDepth v d = Some ([], v).
Proof.
  intros Hstop. simpl.
  destruct (geq d maxDepth); [done|]. rewrite bool_decide_eq_true_2; [done|].
  by destruct Hstop.
Qed.

Lemma walkUp_from_expand fuel i rev maxDepth v d :
  geq d maxDepth = false → i ∉ v →
  walkUp_from (S fuel) i rev maxDepth v d
  = map_st (fun dep v =>
              '(children, v) ← walkUp_from fuel (svc_id (rev_service dep)) rev maxDepth v (d + 1);
              Some (mkDepNode (svc_id (rev_service dep)) (svc_name (rev_service dep))
                              (rev_api dep) (rev_description dep) children, v))
           (default [] (rev !! i)) ({[i]} ∪ v).
Proof. intros Hd Hv. simpl. by rewrite Hd, bool_decide_eq_false_2. Qed.

Lemma walkDown_unknown i m maxDepth : m !! i = None → walkDown i m maxDepth = Some [].
Proof.
  intros Hm. destruct (geq 0 maxDepth) eqn:Hd.
  - apply (walkDown_run 1 _ _ _ _ ∅). apply walkDown_from_stop. by left.
  - apply (walkDown_run 1 _ _ _ _ ({[i]} ∪ ∅)). by apply walkDown_from_absent.
Qed.

Lemma walkUp_unknown i rev maxDepth : rev !! i = None → walkUp i rev maxDepth = Some [].
Proof.
  intros Hm. destruct (geq 0 maxDepth) eqn:Hd.
  - apply (walkUp_run 1 _ _ _ _ ∅). apply walkUp_from_stop. by left.
  - apply (walkUp_run 1 _ _ _ _ ({[i]} ∪ ∅)).
    rewrite walkUp_from_expand by done. by rewrite Hm.
Qed.

(** C2, as the code has it. For an id that no service of the array
    bears, [resolveDeps] returns without error, echoes the id as the
    name and lists no dependencies; it lists no dependents either when
    no service of the array names the id in its [dependsOn]. *)
Theorem C2_resolveDeps_unknown_id (serviceId : string) (services : list Service)
    (maxDepth : number) (direction : option Direction) :
  serviceId ∉ (svc_id <$> services) →
  ∃ dependents,
    resolveDeps serviceId services maxDepth direction
    = Some (mkDepsResult (serviceId, serviceId) dependents [])
    ∧ ((∀ s, s ∈ services → serviceId ∉ dep_ids s) → dependents = []).
Proof.
  intros Hid. unfold resolveDeps.
  rewrite (serviceMap_of_None _ _ Hid). simpl.
  assert (∃ dependents,
            match direction with
            | Some Down => Some []
            | _ => walkUp serviceId (buildReverseIndex services) maxDepth
            end = Some dependents
            ∧ ((∀ s, s ∈ services → serviceId ∉ dep_ids s) → dependents = []))
    as (dependents & -> & Hnone).
  { destruct (walkUp_total serviceId (buildReverseIndex services) maxDepth) as [up Hup].
    assert ((∀ s, s ∈ services → serviceId ∉ dep_ids s) → up = []) as Hup'.
    { intros Hno%buildReverseIndex_None.
      rewrite (walkUp_unknown _ _ _ Hno) in Hup. congruence. }
    destruct direction as [[]|]; eauto. }
  assert (match direction with
          | Some Up => Some []
          | _ => walkDown serviceId (serviceMap_of services) maxDepth
          end = Some []) as ->.
  { rewrite walkDown_unknown by by apply serviceMap_of_None. by destruct direction as [[]|]. }
  simpl. eauto.
Qed.

Lemma C2_resolveDeps_unknown_id_witness :
  ∃ dependents,
    resolveDeps "ghost" [mkService "s1" "checkout" None None None] (Num 10) None
    = Some (mkDepsResult ("ghost", "ghost") dependents [])
    ∧ ((∀ s, s ∈ [mkService "s1" "checkout" None None None] → "ghost" ∉ dep_ids s)
       → dependents = []).
Proof.
  apply (C2_resolveDeps_unknown_id "ghost" [mkService "s1" "checkout" None None None]
           (Num 10) None).
  vm_compute. intros H. inversion H as [|? ? ? H']; subst. inversion H'.
Defined.

(** C2, as stated, fails for a dangling reference: [checkout] depends
    on the id [ghost], which no service bears, and [resolveDeps] lists
    [checkout] among the dependents of [ghost]. *)
Lemma C2_unknown_id_with_dependents :
  let services := [mkService "s1" "checkout" None None
                     (Some [mkDependency "ghost" None None])] in
  ("ghost" ∉ svc_id <$> services)
  ∧ resolveDeps "ghost" services (Num 10) None
    = Some (mkDepsResult ("ghost", "ghost")
              [mkDepNode "s1" "checkout" None None []] [])
  ∧ resolveDeps "ghost" services (Num 10) None
    ≠ Some (mkDepsResult ("ghost", "ghost") [] []).
Proof.
  split_and!.
  - simpl. rewrite list_elem_of_singleton. done.
  - vm_compute. reflexivity.
  - vm_compute. discriminate.
Qed.

Lemma geq_1_0 maxDepth : geq 1 maxDepth = false → geq 0 maxDepth = false.
Proof. destruct maxDepth; simpl; try done. rewrite !Z.leb_gt. lia. Qed.

Lemma distinct4 (a b c d : string) :
  NoDup [a; b; c; d] → a ≠ b ∧ a ≠ c ∧ a ≠ d ∧ b ≠ c ∧ b ≠ d ∧ c ≠ d.
Proof. rewrite !NoDup_cons. set_solver. Qed.


(** ** Owner checks *)

Lemma filter_type_other (t t' : string) (fs : list LintResult) :
  t ≠ t' → Forall (fun f => lr_type f = t') fs →
  filter (fun f => lr_type f = t) fs = [].
Proof.
  intros Hne Hall. induction Hall as [|f fs Hf _ IH]; [done|].
  rewrite filter_cons, IH. case_decide; [congruence|done].
Qed.

Lemma filter_type_same (t : string) (fs : list LintResult) :
  Forall (fun f => lr_type f = t) fs →
  filter (fun f => lr_type f = t) fs = fs.
Proof.
  intros Hall. induction Hall as [|f fs Hf _ IH]; [done|].
  rewrite filter_cons, IH. by case_decide.
Qed.

Lemma Forall_fmap_type {A : Type} (t : string) (mk : A → LintResult) (xs : list A) :
  (∀ x, lr_type (mk x) = t) → Forall (fun f => lr_type f = t) (mk <$> xs).
Proof. intros Hmk. apply Forall_fmap, Forall_true. intros x. apply Hmk. Qed.

Lemma findOrphanedSystemRefs_type services systemIds :
  Forall (fun f => lr_type f = "orphaned_system_ref")
         (findOrphanedSystemRefs services systemIds).
Proof. by apply Forall_fmap_type. Qed.

Lemma findOrphanedOwnerRefs_type services systems ownerIds :
  Forall (fun f => lr_type f = "orphaned_owner_ref")
         (findOrphanedOwnerRefs services systems ownerIds).
Proof. apply Forall_app; split; by apply Forall_fmap_type. Qed.

Lemma findMissingOwners_type services :
  Forall (fun f => lr_type f = "missing_owner") (findMissingOwners services).
Proof. by apply Forall_fmap_type. Qed.

Lemma findDanglingDeps_type services serviceIds :
  Forall (fun f => lr_type f = "dangling_dependency")
         (findDanglingDeps services serviceIds).
Proof.
  unfold findDanglingDeps. apply Forall_forall.
  intros f (s & Hf & _)%list_elem_of_bind.
  apply list_elem_of_fmap in Hf as (d & -> & _). done.
Qed.

Lemma check_type toLowerCase items kind :
  Forall (fun f => lr_type f = "duplicate_name") (check toLowerCase items kind).
Proof. apply Forall_fmap_type. by intros []. Qed.

Lemma findDuplicateNames_type toLowerCase services systems owners :
  Forall (fun f => lr_type f = "duplicate_name")
         (findDuplicateNames toLowerCase services systems owners).
Proof. unfold findDuplicateNames. rewrite !Forall_app. split_and!; apply check_type. Qed.

Lemma findEmptySystems_type systems services :
  Forall (fun f => lr_type f = "empty_system") (findEmptySystems systems services).
Proof. by apply Forall_fmap_type. Qed.

(** [runLintChecks] always returns, and its findings of type
    [orphaned_owner_ref] are those of [findOrphanedOwnerRefs]. *)
Lemma runLintChecks_owner_refs toLowerCase services systems owners :
  ∃ fs, runLintChecks toLowerCase services systems owners = Some fs
        ∧ filter (fun f => lr_type f = "orphaned_owner_ref") fs
          = findOrphanedOwnerRefs services systems (list_to_set (own_id <$> owners))
        ∧ ∀ f, f ∈ findMissingOwners services → f ∈ fs.
Proof.
  unfold runLintChecks.
  destruct (findCircularDeps_total services) as (cs & -> & Hcs). simpl.
  eexists. split; [done|]. split.
  - rewrite !filter_app.
    rewrite (fun Hne => filter_type_other "orphaned_owner_ref" _ _ Hne (findOrphanedSystemRefs_type _ _)) by done.
    rewrite (filter_type_same _ _ (findOrphanedOwnerRefs_type _ _ _)).
    rewrite (fun Hne => filter_type_other "orphaned_owner_ref" _ _ Hne (findMissingOwners_type _)) by done.
    rewrite (fun Hne => filter_type_other "orphaned_owner_ref" _ _ Hne (findDanglingDeps_type _ _)) by done.
    rewrite (fun Hne => filter_type_other "orphaned_owner_ref" _ _ Hne Hcs) by done.
    rewrite (fun Hne => filter_type_other "orphaned_owner_ref" _ _ Hne (findDuplicateNames_type _ _ _ _)) by done.
    rewrite (fun Hne => filter_type_other "orphaned_owner_ref" _ _ Hne (findEmptySystems_type _ _)) by done.
    by rewrite app_nil_r.
  - intros f Hf. rewrite !elem_of_app. auto.
Qed.

(** C10. A service whose owner is the empty string gets a
    [missing_owner] warning, and contributes no [orphaned_owner_ref]
    error: the findings of that type are the same with and without the
    service, and none names it unless another service bears its name. *)
Theorem C10_empty_owner_is_missing_owner (toLowerCase : string → string)
    (pre post : list Service) (s : Service) (systems : list System) (owners : list Owner) :
  svc_owner s = Some EmptyString →
  ∃ fs fs',
    runLintChecks toLowerCase (pre ++ s :: post) systems owners = Some fs
    ∧ runLintChecks toLowerCase (pre ++ post) systems owners = Some fs'
    ∧ mkLintResult "missing_owner" warning (svc_name s) "service"
        "Has no owner assigned"
        (Some ("yp service add --name " +:+ svc_name s +:+ " --owner <owner>")) ∈ fs
    ∧ filter (fun f => lr_type f = "orphaned_owner_ref") fs
      = filter (fun f => lr_type f = "orphaned_owner_ref") fs'
    ∧ ((∀ t, t ∈ pre ++ post → svc_name t ≠ svc_name s) →
       ∀ f, f ∈ fs → lr_type f = "orphaned_owner_ref" →
            lr_entityKind f = "service" → lr_entity f ≠ svc_name s).
Proof.
  intros Howner.
  destruct (runLintChecks_owner_refs toLowerCase (pre ++ s :: post) systems owners)
    as (fs & Hfs & Hrefs & Hmiss).
  destruct (runLintChecks_owner_refs toLowerCase (pre ++ post) systems owners)
    as (fs' & Hfs' & Hrefs' & _).
  assert (findOrphanedOwnerRefs (pre ++ s :: post) systems (list_to_set (own_id <$> owners))
          = findOrphanedOwnerRefs (pre ++ post) systems (list_to_set (own_id <$> owners)))
    as Hsame.
  { unfold findOrphanedOwnerRefs. rewrite !filter_app, filter_cons.
    rewrite decide_False; [done|]. by rewrite Howner. }
  exists fs, fs'. split_and!; [done|done| | |].
  - apply Hmiss. unfold findMissingOwners. apply list_elem_of_fmap.
    exists s. split; [done|]. apply list_elem_of_filter. split.
    + by rewrite Howner.
    + apply elem_of_app. right. left.
  - by rewrite Hrefs, Hrefs', Hsame.
  - intros Hnames f Hf Hty Hkind.
    assert (f ∈ filter (fun f => lr_type f = "orphaned_owner_ref") fs) as Hin
      by by apply list_elem_of_filter.
    rewrite Hrefs, Hsame in Hin. unfold findOrphanedOwnerRefs in Hin.
    apply elem_of_app in Hin as [Hin|Hin];
      apply list_elem_of_fmap in Hin as (x & -> & Hx); simpl in *.
    + apply list_elem_of_filter in Hx as [_ Hx]. by apply Hnames.
    + done.
Qed.

Lemma C10_empty_owner_is_missing_owner_witness :
  ∃ fs fs',
    runLintChecks id [mkService "s1" "svc-a" None (Some EmptyString) None] [] []
    = Some fs
    ∧ runLintChecks id [] [] [] = Some fs'
    ∧ mkLintResult "missing_owner" warning "svc-a" "service"
        "Has no owner assigned"
        (Some "yp service add --name svc-a --owner <owner>") ∈ fs
    ∧ filter (fun f => lr_type f = "orphaned_owner_ref") fs
      = filter (fun f => lr_type f = "orphaned_owner_ref") fs'
    ∧ ((∀ t, t ∈ @nil Service → svc_name t ≠ "svc-a") →
       ∀ f, f ∈ fs → lr_type f = "orphaned_owner_ref" →
            lr_entityKind f = "service" → lr_entity f ≠ "svc-a").
Proof.
  apply (C10_empty_owner_is_missing_owner id [] []
           (mkService "s1" "svc-a" None (Some EmptyString) None) [] []).
  reflexivity.
Defined.

(** ** Duplicate names *)

Lemma seen_get_set seen k n k' :
  seen_get (seen_set seen k n) k'
  = if decide (k = k') then Some n else seen_get seen k'.
Proof.
  induction seen as [|[k0 n0] seen IH]; simpl.
  - destruct (String.eqb_spec k k'); by case_decide.
  - destruct (String.eqb_spec k0 k) as [->|Hne]; simpl.
    + destruct (String.eqb_spec k k'); by case_decide.
    + rewrite IH. destruct (String.eqb_spec k0 k'); [|done].
      case_decide; [congruence|done].
Qed.

Lemma seen_set_keys seen k n :
  (seen_set seen k n).*1 = if decide (k ∈ seen.*1) then seen.*1 else seen.*1 ++ [k].
Proof.
  induction seen as [|[k0 n0] seen IH]; [done|].
  cbn [seen_set]. destruct (String.eqb_spec k0 k) as [->|Hne].
  - rewrite !fmap_cons. cbn [fst]. rewrite decide_True; [done|left].
  - rewrite !fmap_cons, IH. cbn [fst]. destruct (decide (k ∈ seen.*1)) as [Hin|Hin].
    + rewrite decide_True; [done|by right].
    + rewrite decide_False; [done|]. rewrite elem_of_cons. intros [?|?]; congruence.
Qed.

Lemma seen_set_NoDup seen k n : NoDup seen.*1 → NoDup (seen_set seen k n).*1.
Proof.
  intros Hnd. rewrite seen_set_keys. case_decide; [done|].
  apply NoDup_app. split_and!; [done| |apply NoDup_singleton].
  intros x Hx ->%list_elem_of_singleton. done.
Qed.

Lemma findings_for_absent kind l (seen : list (string * nat)) :
  l ∉ seen.*1 →
  filter (fun f => lr_entity f = l)
         (duplicateFinding kind <$> filter (fun p => (1 <? p.2)%nat = true) seen) = [].
Proof.
  induction seen as [|[k c] seen IH]; intros Hl; [done|].
  simpl in Hl. apply not_elem_of_cons in Hl as [Hne Hl].
  rewrite filter_cons; simpl. case_decide; [|by apply IH].
  rewrite fmap_cons, filter_cons; simpl. rewrite decide_False by done. by apply IH.
Qed.

Lemma findings_for kind l (seen : list (string * nat)) :
  NoDup seen.*1 →
  filter (fun f => lr_entity f = l)
         (duplicateFinding kind <$> filter (fun p => (1 <? p.2)%nat = true) seen)
  = if (1 <? default 0 (seen_get seen l))%nat
    then [duplicateFinding kind (l, default 0%nat (seen_get seen l))] else [].
Proof.
  induction seen as [|[k c] seen IH]; intros Hnd; [done|].
  simpl in Hnd. apply NoDup_cons in Hnd as [Hk Hnd]. simpl.
  destruct (String.eqb_spec k l) as [->|Hne]; simpl.
  - rewrite filter_cons; simpl. destruct (1 <? c)%nat eqn:Hc.
    + rewrite decide_True by done. rewrite fmap_cons, filter_cons; simpl.
      rewrite decide_True by done. by rewrite findings_for_absent.
    + rewrite decide_False by done. by apply findings_for_absent.
  - rewrite filter_cons; simpl. case_decide; [|by apply IH].
    rewrite fmap_cons, filter_cons; simpl. rewrite decide_False by done. by apply IH.
Qed.

Lemma filter_kind_other kind kind' l (fs : list LintResult) :
  kind ≠ kind' → Forall (fun f => lr_entityKind f = kind') fs →
  filter (fun f => lr_entityKind f = kind ∧ lr_entity f = l) fs = [].
Proof.
  intros Hne Hall. induction Hall as [|f fs Hf _ IH]; [done|].
  rewrite filter_cons, IH. case_decide as H; [|done]. destruct H. congruence.
Qed.

Lemma filter_kind_same kind l (fs : list LintResult) :
  Forall (fun f => lr_entityKind f = kind) fs →
  filter (fun f => lr_entityKind f = kind ∧ lr_entity f = l) fs
  = filter (fun f => lr_entity f = l) fs.
Proof.
  intros Hall. induction Hall as [|f fs Hf _ IH]; [done|].
  rewrite !filter_cons, IH. repeat case_decide; tauto.
Qed.

Section dup_names.
Variable toLowerCase : string → string.

Lemma seen_fold_NoDup items seen :
  NoDup seen.*1 → NoDup (foldl (seen_step toLowerCase) seen items).*1.
Proof.
  revert seen. induction items as [|x items IH]; intros seen Hnd; simpl; [done|].
  apply IH, seen_set_NoDup, Hnd.
Qed.

Lemma seen_fold_count items seen l :
  default 0%nat (seen_get (foldl (seen_step toLowerCase) seen items) l)
  = (default 0 (seen_get seen l) + share_count toLowerCase items l)%nat.
Proof.
  revert seen. induction items as [|x items IH]; intros seen; simpl.
  - unfold share_count. simpl. lia.
  - rewrite IH. unfold seen_step, share_count. rewrite seen_get_set, filter_cons.
    destruct (decide (toLowerCase x = l)) as [->|]; simpl; lia.
Qed.

Lemma check_unfold items kind :
  check toLowerCase items kind
  = duplicateFinding kind
    <$> filter (fun p => (1 <? p.2)%nat = true) (foldl (seen_step toLowerCase) [] items).
Proof.
  unfold check. etrans; [apply list_fmap_ext|f_equal; apply list_filter_iff].
  - intros _ [n c] _. reflexivity.
  - by intros [].
Qed.

(** The findings of one [check] for the lower-cased name [l]. *)
Lemma check_for items kind l :
  filter (fun f => lr_entity f = l) (check toLowerCase items kind)
  = if (1 <? share_count toLowerCase items l)%nat
    then [duplicateFinding kind (l, share_count toLowerCase items l)] else [].
Proof.
  rewrite check_unfold, findings_for by (apply seen_fold_NoDup; constructor).
  by rewrite seen_fold_count.
Qed.

Lemma check_kind items kind :
  Forall (fun f => lr_entityKind f = kind ∧ lr_type f = "duplicate_name"
                   ∧ lr_severity f = error)
         (check toLowerCase items kind).
Proof. rewrite check_unfold. apply Forall_fmap, Forall_true. done. Qed.

End dup_names.

(** C9. Names are compared after lower-casing and per kind: for each
    kind and each lower-cased name, [findDuplicateNames] has one finding
    if two or more entities of that kind bear the name, stating how
    many, and none otherwise; so a service and a system with the same
    name give no finding. *)
Theorem C9_findDuplicateNames_scoped (toLowerCase : string → string)
    (services : list Service) (systems : list System) (owners : list Owner) :
  let fs := findDuplicateNames toLowerCase services systems owners in
  (∀ f, f ∈ fs → lr_type f = "duplicate_name" ∧ lr_severity f = error)
  ∧ (∀ kind names l,
       (kind, names) ∈ [("service", svc_name <$> services);
                        ("system", sys_name <$> systems);
                        ("owner", own_name <$> owners)] →
       filter (fun f => lr_entityKind f = kind ∧ lr_entity f = l) fs
       = if (2 <=? share_count toLowerCase names l)%nat
         then [mkLintResult "duplicate_name" error l kind
                 (show_nat (share_count toLowerCase names l) +:+ " " +:+ kind
                    +:+ "s share the name " +:+ dquote +:+ l +:+ dquote)
                 None]
         else [])
  ∧ (∀ (s : Service) (sy : System),
       svc_name s = sys_name sy → findDuplicateNames toLowerCase [s] [sy] [] = []).
Proof.
  simpl. split_and!.
  - intros f Hf. unfold findDuplicateNames in Hf.
    rewrite !elem_of_app in Hf.
    destruct Hf as [Hf|[Hf|Hf]];
      eapply Forall_forall in Hf; try apply check_kind; simpl in Hf; tauto.
  - intros kind names l Hin. unfold findDuplicateNames. rewrite !filter_app.
    pose proof (fun items k =>
      Forall_impl _ (fun f => lr_entityKind f = k) _ (check_kind toLowerCase items k)
        (fun f H => proj1 H)) as Hk.
    assert ((1 <? share_count toLowerCase names l)%nat
            = (2 <=? share_count toLowerCase names l)%nat) as Hcmp
      by (destruct (share_count toLowerCase names l) as [|[|n]]; done).
    rewrite !elem_of_cons, elem_of_nil in Hin.
    destruct Hin as [[= -> ->]|[[= -> ->]|[[= -> ->]|[]]]].
    + rewrite (filter_kind_same _ _ _ (Hk _ _)), check_for.
      rewrite (filter_kind_other "service" "system" l _ ltac:(done) (Hk _ _)).
      rewrite (filter_kind_other "service" "owner" l _ ltac:(done) (Hk _ _)).
      by rewrite Hcmp, app_nil_r.
    + rewrite (filter_kind_same _ _ _ (Hk _ "system")), check_for.
      rewrite (filter_kind_other "system" "service" l _ ltac:(done) (Hk _ _)).
      rewrite (filter_kind_other "system" "owner" l _ ltac:(done) (Hk _ _)).
      by rewrite Hcmp, app_nil_r.
    + rewrite (filter_kind_same _ _ _ (Hk _ "owner")), check_for.
      rewrite (filter_kind_other "owner" "service" l _ ltac:(done) (Hk _ _)).
      rewrite (filter_kind_other "owner" "system" l _ ltac:(done) (Hk _ _)).
      by rewrite Hcmp.
  - intros s sy _. reflexivity.
Qed.

Lemma C9_findDuplicateNames_scoped_witness :
  let services := [mkService "s3" "svc-c" None None None;
                   mkService "s5" "SVC-C" None None None;
                   mkService "s6" "payments" None None None] in
  let systems := [mkSystem "sys1" "payments" None] in
  let fs := findDuplicateNames lower services systems [] in
  (∀ f, f ∈ fs → lr_type f = "duplicate_name" ∧ lr_severity f = error)
  ∧ (∀ kind names l,
       (kind, names) ∈ [("service", svc_name <$> services);
                        ("system", sys_name <$> systems);
                        ("owner", own_name <$> [])] →
       filter (fun f => lr_entityKind f = kind ∧ lr_entity f = l) fs
       = if (2 <=? share_count lower names l)%nat
         then [mkLintResult "duplicate_name" error l kind
                 (show_nat (share_count lower names l) +:+ " " +:+ kind
                    +:+ "s share the name " +:+ dquote +:+ l +:+ dquote)
                 None]
         else [])
  ∧ (∀ (s : Service) (sy : System),
       svc_name s = sys_name sy → findDuplicateNames lower [s] [sy] [] = []).
Proof.
  apply (C9_findDuplicateNames_scoped lower
           [mkService "s3" "svc-c" None None None;
            mkService "s5" "SVC-C" None None None;
            mkService "s6" "payments" None None None]
           [mkSystem "sys1" "payments" None] []).
Defined.


(** ** Cycle detection: what gets reported *)

Lemma for_st_hit {A St : Type} (P Q : St → Prop) (body : A → St → option St) xs x st st' :
  x ∈ xs →
  (∀ y s s', P s → body y s = Some s' → P s') →
  (∀ y s s', Q s → body y s = Some s' → Q s') →
  (∀ s s', P s → body x s = Some s' → Q s') →
  P st → for_st body xs st = Some st' → Q st'.
Proof.
  intros (l1 & l2 & ->)%list_elem_of_split HP HQ Hx Hst Hrun.
  rewrite for_st_app in Hrun.
  destruct (for_st body l1 st) as [s1|] eqn:E1; simpl in Hrun; [|done].
  destruct (body x s1) as [s2|] eqn:E2; simpl in Hrun; [|done].
  apply (for_st_inv P) in E1; [|by eauto|done].
  apply (for_st_inv Q) in Hrun; [done|by eauto|by eauto].
Qed.

Lemma serviceMap_of_Some services i s :
  serviceMap_of services !! i = Some s → s ∈ services ∧ svc_id s = i.
Proof.
  unfold serviceMap_of.
  cut (∀ (l : list Service) (m : gmap string Service),
         (∀ i s, m !! i = Some s → (s ∈ services ∧ svc_id s = i)) →
         (∀ s, s ∈ l → s ∈ services) →
         ∀ i s, foldl (fun m s => <[svc_id s := s]> m) m l !! i = Some s →
                s ∈ services ∧ svc_id s = i).
  { intros H. apply (H services ∅); [|done]. intros i' s'. by rewrite lookup_empty. }
  clear. induction l as [|x l IH]; intros m Hm Hl i s; simpl; [apply Hm|].
  apply IH.
  - intros i' s'. destruct (decide (svc_id x = i')) as [<-|Hne].
    + rewrite lookup_insert_eq. intros [= <-]. split; [apply Hl; left|done].
    + rewrite lookup_insert_ne by done. apply Hm.
  - intros s' Hs'. apply Hl. by right.
Qed.

Lemma serviceMap_of_unique services s :
  NoDup (svc_id <$> services) → s ∈ services →
  serviceMap_of services !! svc_id s = Some s.
Proof.
  intros Hnd (l1 & l2 & ->)%list_elem_of_split. unfold serviceMap_of.
  rewrite foldl_app. simpl. rewrite serviceMap_of_lookup_from.
  - apply lookup_insert_eq.
  - rewrite fmap_app, fmap_cons in Hnd. apply NoDup_app in Hnd as (_ & _ & Hnd).
    by apply NoDup_cons in Hnd as [? _].
Qed.

Section reported_facts.
Context {R : Type} (emit : Service → string → R).
Implicit Types st : WalkState R.

Lemma findCircularDeps_with_unfold services :
  findCircularDeps_with emit services
  = results <$> for_st (origin_body emit (serviceMap_of services)) services (mkWalkState ∅ ∅ []).
Proof. reflexivity. Qed.

(** A walk entered on an id of the current path reports the key of
    the origin and that id, unless it is reported already. *)
Lemma walk_closes fuel service m i st st' :
  i ∈ ancestors st → walk emit fuel service m i st = Some st' →
  sorted_pair_key (svc_id service) i ∈ reported st'.
Proof.
  intros Hin Hw. destruct fuel as [|fuel]; simpl in Hw; [done|].
  rewrite bool_decide_eq_true_2 in Hw by done.
  case_bool_decide; simplify_eq; simpl; [done|set_solver].
Qed.

(** A walk entered on [b] with only [a] on the path, where [b] depends
    on [a], reports the key of the origin and [a]: at once if [b] is
    [a], and otherwise when it comes to [a] among the dependencies of
    [b]. *)
Lemma walk_back fuel service m a b sb st st' :
  m !! b = Some sb → a ∈ dep_ids sb → ancestors st = {[a]} →
  walk emit fuel service m b st = Some st' →
  sorted_pair_key (svc_id service) a ∈ reported st'.
Proof.
  intros Hb Ha Hanc Hw. destruct (decide (b = a)) as [->|Hne].
  { eapply walk_closes; [|exact Hw]. rewrite Hanc. set_solver. }
  destruct fuel as [|fuel]; simpl in Hw; [done|].
  rewrite bool_decide_eq_false_2 in Hw by (rewrite Hanc; set_solver).
  rewrite Hb in Hw. simpl in Hw.
  match type of Hw with context [for_st ?body ?l ?s0] =>
    destruct (for_st body l s0) as [s1|] eqn:E; simpl in Hw; [|done]
  end.
  simplify_eq. simpl.
  apply list_elem_of_fmap in Ha as (dep & -> & Hdep).
  eapply (for_st_hit (fun s => ancestors s = {[b]} ∪ ancestors st)
                     (fun s => sorted_pair_key (svc_id service) (dep_service dep)
                               ∈ reported s)); [exact Hdep| | | | |exact E].
  - intros y s s' Hs Hy. apply walk_frame in Hy as (-> & _). done.
  - intros y s s' Hs Hy. apply walk_frame in Hy as (_ & _ & Hsub). set_solver.
  - intros s s' Hs Hy. eapply walk_closes; [|exact Hy]. rewrite Hs, Hanc. set_solver.
  - done.
Qed.

Lemma origin_body_reported m service st st' :
  origin_body emit m service st = Some st' → reported st ⊆ reported st'.
Proof.
  unfold origin_body. intros Hrun.
  apply (for_st_inv (fun s => reported st ⊆ reported s)) in Hrun; [done| |done].
  intros y s s' _ Hs Hy. apply walk_frame in Hy as (_ & _ & Hsub). set_solver.
Qed.

(** If the dependencies of the origin include an id [b] for which
    [enter] holds of every walk entered on [b] with the origin alone
    on the path, the key [k] is reported by the end of the run. *)
Lemma run_reports services a sa b k :
  serviceMap_of services !! a = Some sa → b ∈ dep_ids sa →
  (∀ service st st',
     svc_id service = a → ancestors st = {[a]} →
     walk emit (S (size (serviceMap_of services))) service (serviceMap_of services) b st
     = Some st' →
     k ∈ reported st') →
  ∀ st, for_st (origin_body emit (serviceMap_of services)) services (mkWalkState ∅ ∅ [])
        = Some st →
        k ∈ reported st.
Proof.
  intros Ha Hb Henter st Hrun.
  destruct (serviceMap_of_Some _ _ _ Ha) as [Hsa Hid].
  eapply (for_st_hit (fun _ => True) (fun s => k ∈ reported s)); [exact Hsa| | | | |exact Hrun].
  - done.
  - intros y s s' Hs Hy. apply origin_body_reported in Hy. set_solver.
  - intros s s' _ Hy. unfold origin_body in Hy. rewrite Hid, Ha in Hy.
    change (default [] (Some sa ≫= svc_dependsOn)) with (deps_of sa) in Hy.
    apply list_elem_of_fmap in Hb as (dep & -> & Hdep).
    eapply (for_st_hit (fun s => ancestors s = {[a]}) (fun s => k ∈ reported s));
      [exact Hdep| | | | |exact Hy].
    + intros y s0 s0' Hs Hy0. apply walk_frame in Hy0 as (-> & _). done.
    + intros y s0 s0' Hs Hy0. apply walk_frame in Hy0 as (_ & _ & Hsub). set_solver.
    + intros s0 s0' Hs Hy0. by eapply Henter.
    + done.
  - done.
Qed.
End reported_facts.

(** ** Cycle detection: the detections and their keys *)

Lemma sorted_pair_key_comm a b : sorted_pair_key a b = sorted_pair_key b a.
Proof.
  unfold sorted_pair_key.
  destruct (String.leb a b) eqn:Hab, (String.leb b a) eqn:Hba; try done.
  - by rewrite (String.leb_antisym _ _ Hab Hba).
  - destruct (String.leb_total a b); congruence.
Qed.

Lemma unordered_pair_key p q :
  unordered_pair p = unordered_pair q → detection_key p = detection_key q.
Proof.
  destruct p as [s i], q as [s' i']. unfold unordered_pair, detection_key. simpl.
  intros Heq.
  assert (svc_id s = svc_id s' ∧ i = i' ∨ svc_id s = i' ∧ i = svc_id s') as [[-> ->]|[-> ->]].
  { assert (svc_id s ∈ ({[svc_id s'; i']} : gset string)) as H1 by (rewrite <-Heq; set_solver).
    assert (i ∈ ({[svc_id s'; i']} : gset string)) as H2 by (rewrite <-Heq; set_solver).
    assert (svc_id s' ∈ ({[svc_id s; i]} : gset string)) as H3 by (rewrite Heq; set_solver).
    assert (i' ∈ ({[svc_id s; i]} : gset string)) as H4 by (rewrite Heq; set_solver).
    set_solver. }
  - done.
  - apply sorted_pair_key_comm.
Qed.

Lemma NoDup_fmap_coarser {A B C : Type} (f : A → B) (g : A → C) (l : list A) :
  (∀ x y, g x = g y → f x = f y) → NoDup (f <$> l) → NoDup (g <$> l).
Proof.
  intros Hfg. induction l as [|x l IH]; simpl; [constructor|].
  rewrite !NoDup_cons. intros [Hx Hl]. split; [|by apply IH].
  intros (y & Hy & Hin)%list_elem_of_fmap. apply Hx.
  apply list_elem_of_fmap. exists y. split; [by apply Hfg|done].
Qed.

Lemma walk_keys fuel service m i st st' :
  walk (fun s i => (s, i)) fuel service m i st = Some st' →
  keys_agree st → keys_agree st'.
Proof.
  revert i st st'. induction fuel as [|fuel IH]; intros i st st' Hw [Hrep Hnd];
    simpl in Hw; [done|].
  case_bool_decide as Hin.
  - case_bool_decide as Hkey; simplify_eq; [done|]. split; simpl.
    + rewrite fmap_app, list_to_set_app_L, Hrep. simpl. set_solver.
    + rewrite fmap_app. apply NoDup_app. split_and!; [done| |apply NoDup_singleton].
      intros k Hk ->%list_elem_of_singleton. apply Hkey. rewrite Hrep.
      by apply elem_of_list_to_set.
  - match type of Hw with context [for_st ?body ?l ?s0] =>
      destruct (for_st body l s0) as [s1|] eqn:E; simpl in Hw; [|done]
    end.
    simplify_eq. apply (for_st_inv keys_agree) in E; [done| |done].
    intros y s s' _ Hs Hy. by eapply IH.
Qed.

Lemma walk_origins fuel service m i st st' (P : Service → Prop) :
  walk (fun s i => (s, i)) fuel service m i st = Some st' →
  P service → Forall (fun p => P p.1) (results st) → Forall (fun p => P p.1) (results st').
Proof.
  revert i st st'. induction fuel as [|fuel IH]; intros i st st' Hw HP Hall;
    simpl in Hw; [done|].
  case_bool_decide as Hin.
  - case_bool_decide as Hkey; simplify_eq; [done|]. simpl.
    apply Forall_app. split; [done|]. by constructor.
  - match type of Hw with context [for_st ?body ?l ?s0] =>
      destruct (for_st body l s0) as [s1|] eqn:E; simpl in Hw; [|done]
    end.
    simplify_eq. simpl.
    apply (for_st_inv (fun s => Forall (fun p => P p.1) (results s))) in E; [done| |done].
    intros y s s' _ Hs Hy. by eapply IH.
Qed.

(** The run of [circularDetections]: it returns, its detections have
    pairwise distinct keys, their origins are services of the array, and
    every reported key is the key of a detection. *)
Lemma circularDetections_run services :
  ∃ st, for_st (origin_body (fun s i => (s, i)) (serviceMap_of services)) services
               (mkWalkState ∅ ∅ []) = Some st
        ∧ circularDetections services = Some (results st)
        ∧ keys_agree st
        ∧ Forall (fun p => p.1 ∈ services) (results st).
Proof.
  destruct (findCircularDeps_with_total (fun s i => (s, i)) services) as [ps Hps].
  unfold circularDetections. rewrite Hps. rewrite findCircularDeps_with_unfold in Hps.
  destruct (for_st _ services _) as [st|] eqn:E; simpl in Hps; [|done]. simplify_eq.
  exists st. split; [done|]. split; [done|].
  apply (for_st_inv (fun s => keys_agree s ∧ Forall (fun p => p.1 ∈ services) (results s)))
    in E; [done| |].
  - intros service s s' Hservice [Hk Ho] Hbody. unfold origin_body in Hbody.
    apply (for_st_inv (fun s => keys_agree s ∧ Forall (fun p => p.1 ∈ services) (results s)))
      in Hbody; [done| |done].
    intros y s0 s0' _ [Hk0 Ho0] Hw. split.
    + by eapply walk_keys.
    + by eapply (walk_origins _ _ _ _ _ _ (fun s => s ∈ services)).
  - split; [split; [done|constructor]|constructor].
Qed.

(** Two services that depend on each other (or one that depends on
    itself): the key of the first with itself is the key of a
    detection. *)
Lemma mutual_dependency_detected services a b sa sb :
  serviceMap_of services !! a = Some sa → b ∈ dep_ids sa →
  serviceMap_of services !! b = Some sb → a ∈ dep_ids sb →
  ∃ detections p,
    circularDetections services = Some detections
    ∧ p ∈ detections ∧ p.1 ∈ services
    ∧ detection_key p = sorted_pair_key a a.
Proof.
  intros Ha Hb Hb' Ha'.
  destruct (circularDetections_run services) as (st & Hrun & Hdet & [Hrep Hnd] & Horig).
  assert (sorted_pair_key a a ∈ reported st) as Hk.
  { eapply (run_reports _ services a sa b); [done|done| |exact Hrun].
    intros service s s' <- Hanc Hw. by eapply walk_back. }
  rewrite Hrep in Hk. apply elem_of_list_to_set, list_elem_of_fmap in Hk as (p & Hp & Hin).
  exists (results st), p. split_and!; [done|done| |done].
  rewrite Forall_forall in Horig. by apply Horig.
Qed.

(** C3. When two services depend on each other, [findCircularDeps]
    returns at least one finding, of type [circular_dependency]: this
    holds of the services that two ids of the array resolve to, and so
    of any two members of an array whose ids are unique. For every
    array, the findings are the rendering of detections (origin, id
    where the cycle closed) that are pairwise distinct as sorted-pair
    keys and as unordered pairs. *)
Theorem C3_findCircularDeps_direct_cycle_dedup (services : list Service) :
  (∀ a b sa sb,
     serviceMap_of services !! a = Some sa → b ∈ dep_ids sa →
     serviceMap_of services !! b = Some sb → a ∈ dep_ids sb →
     ∃ fs, findCircularDeps services = Some fs ∧ (1 ≤ length fs)%nat
           ∧ Forall (fun f => lr_type f = "circular_dependency") fs)
  ∧ (∀ s1 s2,
       NoDup (svc_id <$> services) → s1 ∈ services → s2 ∈ services →
       svc_id s2 ∈ dep_ids s1 → svc_id s1 ∈ dep_ids s2 →
       ∃ fs, findCircularDeps services = Some fs ∧ (1 ≤ length fs)%nat
             ∧ Forall (fun f => lr_type f = "circular_dependency") fs)
  ∧ (∃ detections,
       circularDetections services = Some detections
       ∧ findCircularDeps services
         = Some ((fun p => circularFinding (serviceMap_of services) p.1 p.2) <$> detections)
       ∧ NoDup (detection_key <$> detections)
       ∧ NoDup (unordered_pair <$> detections)).
Proof.
  assert (∀ a b sa sb,
            serviceMap_of services !! a = Some sa → b ∈ dep_ids sa →
            serviceMap_of services !! b = Some sb → a ∈ dep_ids sb →
            ∃ fs, findCircularDeps services = Some fs ∧ (1 ≤ length fs)%nat
                  ∧ Forall (fun f => lr_type f = "circular_dependency") fs) as Hres.
  { intros a b sa sb Ha Hb Hb' Ha'.
    destruct (mutual_dependency_detected services a b sa sb)
      as (ds & p & Hds & Hp & _); [done..|].
    rewrite findCircularDeps_detections, Hds. simpl. eexists. split; [done|]. split.
    - rewrite length_fmap. destruct ds; [by apply elem_of_nil in Hp|simpl; lia].
    - apply Forall_fmap, Forall_true. done. }
  split_and!.
  - exact Hres.
  - intros s1 s2 Hnd H1 H2 H12 H21.
    apply (Hres (svc_id s1) (svc_id s2) s1 s2); [by apply serviceMap_of_unique|done
                                                 |by apply serviceMap_of_unique|done].
  - destruct (circularDetections_run services) as (st & _ & Hdet & [_ Hnd] & _).
    exists (results st). split_and!; [done| |done|].
    + by rewrite findCircularDeps_detections, Hdet.
    + eapply NoDup_fmap_coarser; [|exact Hnd]. apply unordered_pair_key.
Qed.

Lemma C3_findCircularDeps_direct_cycle_dedup_witness :
  let s1 := mkService "s1" "svc-a" None None (Some [mkDependency "s2" None None]) in
  let s2 := mkService "s2" "svc-b" None None (Some [mkDependency "s1" None None]) in
  ∃ fs, findCircularDeps [s1; s2] = Some fs ∧ (1 ≤ length fs)%nat
        ∧ Forall (fun f => lr_type f = "circular_dependency") fs.
Proof.
  apply (proj1 (proj2 (C3_findCircularDeps_direct_cycle_dedup
                  [mkService "s1" "svc-a" None None (Some [mkDependency "s2" None None]);
                   mkService "s2" "svc-b" None None (Some [mkDependency "s1" None None])]))
           (mkService "s1" "svc-a" None None (Some [mkDependency "s2" None None]))
           (mkService "s2" "svc-b" None None (Some [mkDependency "s1" None None]))).
  - apply (bool_decide_unpack _). vm_compute. exact I.
  - left.
  - right. left.
  - left.
  - left.
Defined.

(** ** Cycle detection: self-dependencies and the dedup key *)

Lemma has_colon_app u v : has_colon (u +:+ String ":" v) = true.
Proof. induction u as [|c u IH]; simpl; [done|]. rewrite IH. apply orb_true_r. Qed.

Lemma key_split_prefix u u' w w' :
  has_colon u = false → has_colon u' = false →
  u +:+ ":" +:+ w = u' +:+ ":" +:+ w' → u = u' ∧ w = w'.
Proof.
  revert u'. induction u as [|c u IH]; intros [|c' u'] Hu Hu' Heq; simpl in *;
    simplify_eq; try done.
  apply orb_false_iff in Hu as [_ Hu]. apply orb_false_iff in Hu' as [_ Hu'].
  destruct (IH u') as [-> ->]; done.
Qed.

Lemma key_split_suffix u u' w w' :
  has_colon u = false → has_colon u' = false →
  w +:+ ":" +:+ u = w' +:+ ":" +:+ u' → w = w' ∧ u = u'.
Proof.
  intros Hu Hu'. revert w'. induction w as [|c w IH]; intros [|c' w'] Heq.
  - change (String ":" u = String ":" u') in Heq. by simplify_eq.
  - change (String ":" u = String c' (w' +:+ String ":" u')) in Heq. simplify_eq.
    by rewrite has_colon_app in Hu.
  - change (String c (w +:+ String ":" u) = String ":" u') in Heq. simplify_eq.
    by rewrite has_colon_app in Hu'.
  - change (String c (w +:+ ":" +:+ u) = String c' (w' +:+ ":" +:+ u')) in Heq.
    simplify_eq. destruct (IH w') as [-> ->]; done.
Qed.

(** Without the separator in the ids of services, the key of a service
    with itself belongs to no other pair with a service as origin. *)
Lemma sorted_pair_key_self o x a :
  has_colon o = false → has_colon a = false →
  sorted_pair_key o x = sorted_pair_key a a → o = a ∧ x = a.
Proof.
  intros Ho Ha. unfold sorted_pair_key.
  destruct (String.leb a a), (String.leb o x); intros Heq.
  - by apply key_split_prefix in Heq.
  - apply key_split_suffix in Heq as [-> ->]; done.
  - by apply key_split_prefix in Heq.
  - apply key_split_suffix in Heq as [-> ->]; done.
Qed.

Lemma unique_id_eq services (s t : Service) :
  NoDup (svc_id <$> services) → s ∈ services → t ∈ services →
  svc_id s = svc_id t → s = t.
Proof.
  intros Hnd Hs Ht Hid.
  pose proof (serviceMap_of_unique _ _ Hnd Hs) as H1.
  pose proof (serviceMap_of_unique _ _ Hnd Ht) as H2.
  rewrite Hid in H1. congruence.
Qed.

(** The self-dependency of a service is reported, with the service as
    the entity of the finding, in every array whose ids are unique and
    do not contain the separator of the dedup key. *)
Lemma self_dependency_detected services A :
  NoDup (svc_id <$> services) →
  Forall (fun s => has_colon (svc_id s) = false) services →
  A ∈ services → svc_id A ∈ dep_ids A →
  ∃ fs, findCircularDeps services = Some fs
        ∧ circularFinding (serviceMap_of services) A (svc_id A) ∈ fs.
Proof.
  intros Hnd Hcolon HA Hself. rewrite Forall_forall in Hcolon.
  pose proof (serviceMap_of_unique _ _ Hnd HA) as Hlook.
  destruct (mutual_dependency_detected services (svc_id A) (svc_id A) A A)
    as (ds & [o x] & Hds & Hp & Ho & Hkey); try done.
  unfold detection_key in Hkey. simpl in *.
  apply sorted_pair_key_self in Hkey as [Hid ->]; [|by apply Hcolon..].
  assert (o = A) as -> by by eapply unique_id_eq.
  rewrite findCircularDeps_detections, Hds. simpl. eexists. split; [done|].
  apply list_elem_of_fmap. by exists (A, svc_id A).
Qed.

(** C8 fails when the dedup key of the self-dependency collides with
    the key of an earlier detection: in [colliding], whose ids are
    unique, the service named A depends on itself and
    [findCircularDeps] returns findings for O and P only. *)
Theorem C8_self_dependency_missed_on_key_collision :
  let A := mkService "x:x" "A" None None (Some [mkDependency "x:x" None None]) in
  NoDup (svc_id <$> colliding)
  ∧ A ∈ colliding
  ∧ svc_id A ∈ dep_ids A
  ∧ sorted_pair_key "x" "x:x:x" = sorted_pair_key "x:x" "x:x"
  ∧ findCircularDeps colliding
    = Some [mkLintResult "circular_dependency" error "O" "service"
              "Circular dependency detected: O ↔ P" None;
            mkLintResult "circular_dependency" error "P" "service"
              "Circular dependency detected: P ↔ P" None]
  ∧ ∀ fs, findCircularDeps colliding = Some fs →
          ¬ ∃ f, f ∈ fs ∧ lr_entity f = svc_name A.
Proof.
  assert (findCircularDeps colliding
          = Some [mkLintResult "circular_dependency" error "O" "service"
                    "Circular dependency detected: O ↔ P" None;
                  mkLintResult "circular_dependency" error "P" "service"
                    "Circular dependency detected: P ↔ P" None]) as Hrun
    by (vm_compute; reflexivity).
  split_and!.
  - apply (bool_decide_unpack _). vm_compute. exact I.
  - right. right. left.
  - left.
  - reflexivity.
  - exact Hrun.
  - intros fs Hfs. rewrite Hrun in Hfs. injection Hfs as <-.
    intros (f & Hf & Hname).
    apply elem_of_cons in Hf as [->|Hf]; [discriminate Hname|].
    apply elem_of_cons in Hf as [->|Hf]; [discriminate Hname|].
    by apply elem_of_nil in Hf.
Qed.

(** ** Cycle detection: exactness *)

(** What a walk records lies on a cycle: with the origin on the path and
    every id of the path reaching the id the walk is entered on, each
    new detection closes at an id that the origin reaches and that
    reaches itself. *)
Lemma walk_sound fuel service m i st st' :
  walk (fun s i => (s, i)) fuel service m i st = Some st' →
  svc_id service ∈ ancestors st →
  (∀ a, a ∈ ancestors st → tc (depends m) a i) →
  Forall (fun p => tc (depends m) (svc_id p.1) p.2 ∧ tc (depends m) p.2 p.2) (results st) →
  Forall (fun p => tc (depends m) (svc_id p.1) p.2 ∧ tc (depends m) p.2 p.2) (results st').
Proof.
  revert i st st'. induction fuel as [|fuel IH]; intros i st st' Hw Horigin Hpath Hall;
    simpl in Hw; [done|].
  case_bool_decide as Hin.
  - case_bool_decide as Hkey; simplify_eq; [done|]. simpl.
    apply Forall_app. split; [done|]. constructor; [|constructor]. simpl. auto.
  - destruct (m !! i) as [s|] eqn:Hs; simpl in Hw.
    + match type of Hw with context [for_st ?body ?l ?s0] =>
        destruct (for_st body l s0) as [s1|] eqn:E; simpl in Hw; [|done]
      end.
      simplify_eq. simpl.
      apply (for_st_inv
               (fun s' => ancestors s' = {[i]} ∪ ancestors st
                          ∧ Forall (fun p => tc (depends m) (svc_id p.1) p.2
                                             ∧ tc (depends m) p.2 p.2) (results s')))
        in E; [by destruct E| |done].
      intros dep s0 s0' Hdep [Hanc Hres] Hstep. split.
      * apply walk_frame in Hstep as (-> & _). done.
      * eapply IH; [exact Hstep| | |done].
        -- rewrite Hanc. set_solver.
        -- intros a. rewrite Hanc, elem_of_union, elem_of_singleton.
           assert (depends m i (dep_service dep)) as Hedge.
           { exists s. split; [done|]. apply list_elem_of_fmap. by exists dep. }
           intros [->|Ha]; [by apply tc_once|].
           eapply tc_r; [by apply Hpath|done].
    + by simplify_eq.
Qed.

Lemma circularDetections_sound services detections :
  circularDetections services = Some detections →
  Forall (fun p => p.1 ∈ services
                   ∧ tc (depends (serviceMap_of services)) (svc_id p.1) p.2
                   ∧ tc (depends (serviceMap_of services)) p.2 p.2) detections.
Proof.
  intros Hds.
  destruct (circularDetections_run services) as (st & Hrun & Hdet & _ & Horig).
  rewrite Hds in Hdet. simplify_eq.
  apply (for_st_inv
           (fun s => Forall (fun p => tc (depends (serviceMap_of services)) (svc_id p.1) p.2
                                      ∧ tc (depends (serviceMap_of services)) p.2 p.2)
                            (results s))) in Hrun.
  - rewrite Forall_forall in Horig, Hrun. apply Forall_forall. intros p Hp.
    split; [by apply Horig|by apply Hrun].
  - intros service s s' _ Hres Hbody. unfold origin_body in Hbody.
    destruct (serviceMap_of services !! svc_id service) as [sv|] eqn:Hsv.
    2:{ change (default [] (None ≫= svc_dependsOn)) with (@nil Dependency) in Hbody.
        simpl in Hbody. by simplify_eq. }
    change (default [] (Some sv ≫= svc_dependsOn)) with (deps_of sv) in Hbody.
    apply (for_st_inv
             (fun s0 => ancestors s0 = {[svc_id service]}
                        ∧ Forall (fun p => tc (depends (serviceMap_of services)) (svc_id p.1) p.2
                                           ∧ tc (depends (serviceMap_of services)) p.2 p.2)
                                 (results s0)))
      in Hbody; [by destruct Hbody| |done].
    intros dep s0 s0' Hdep [Hanc Hres0] Hstep. split.
    + apply walk_frame in Hstep as (-> & _). done.
    + eapply walk_sound; [exact Hstep| | |done].
      * rewrite Hanc. set_solver.
      * intros a. rewrite Hanc, elem_of_singleton. intros ->. apply tc_once.
        exists sv. split; [done|]. apply list_elem_of_fmap. by exists dep.
  - constructor.
Qed.

Section finds_facts.
Context {R : Type} (emit : Service → string → R).
Implicit Types st : WalkState R.

(** A walk entered on an id from which the path can be reached back
    reports a key, whatever else it meets on the way. *)
Lemma walk_finds n fuel service m i a st st' :
  nsteps (depends m) n i a → a ∈ ancestors st →
  walk emit fuel service m i st = Some st' →
  ∃ k, k ∈ reported st'.
Proof.
  revert fuel i st st'. induction n as [|n IH]; intros fuel i st st' Hsteps Ha Hw.
  - inversion Hsteps; subst. eexists. by eapply walk_closes.
  - destruct (decide (i ∈ ancestors st)) as [Hin|Hin].
    { eexists. by eapply walk_closes. }
    inversion Hsteps as [|? ? j ? [s [Hs Hj]] Hrest]; subst.
    destruct fuel as [|fuel]; simpl in Hw; [done|].
    rewrite bool_decide_eq_false_2 in Hw by done. rewrite Hs in Hw. simpl in Hw.
    match type of Hw with context [for_st ?body ?l ?s0] =>
      destruct (for_st body l s0) as [s1|] eqn:E; simpl in Hw; [|done]
    end.
    simplify_eq. simpl.
    apply list_elem_of_fmap in Hj as (dep & -> & Hdep).
    eapply (for_st_hit (fun s' => ancestors s' = {[i]} ∪ ancestors st)
                       (fun s' => ∃ k, k ∈ reported s')); [exact Hdep| | | | |exact E].
    + intros y s0 s' Hs0 Hy. apply walk_frame in Hy as (-> & _). done.
    + intros y s0 s' [k Hk] Hy. apply walk_frame in Hy as (_ & _ & Hsub).
      exists k. set_solver.
    + intros s0 s' Hs0 Hy. eapply (IH fuel); [exact Hrest| |exact Hy].
      rewrite Hs0. set_solver.
    + done.
Qed.

(** When some id reaches itself, the run reports a key. *)
Lemma run_finds services x st :
  tc (depends (serviceMap_of services)) x x →
  for_st (origin_body emit (serviceMap_of services)) services (mkWalkState ∅ ∅ []) = Some st →
  ∃ k, k ∈ reported st.
Proof.
  intros Hcycle Hrun.
  assert (∃ sx j, serviceMap_of services !! x = Some sx ∧ j ∈ dep_ids sx
                  ∧ rtc (depends (serviceMap_of services)) j x) as (sx & j & Hx & Hj & Hback).
  { inversion Hcycle as [? ? [s [Hs Hj]]|? j ? [s [Hs Hj]] Hrest]; subst.
    - exists s, x. split_and!; [done|done|apply rtc_refl].
    - exists s, j. split_and!; [done|done|by apply tc_rtc]. }
  apply rtc_nsteps in Hback as [n Hn].
  destruct (serviceMap_of_Some _ _ _ Hx) as [Hsx Hid].
  eapply (for_st_hit (fun _ => True) (fun s => ∃ k, k ∈ reported s));
    [exact Hsx| | | | |exact Hrun].
  - done.
  - intros y s s' [k Hk] Hy. apply origin_body_reported in Hy. exists k. set_solver.
  - intros s s' _ Hy. unfold origin_body in Hy. rewrite Hid, Hx in Hy.
    change (default [] (Some sx ≫= svc_dependsOn)) with (deps_of sx) in Hy.
    apply list_elem_of_fmap in Hj as (dep & -> & Hdep).
    eapply (for_st_hit (fun s => ancestors s = {[x]}) (fun s => ∃ k, k ∈ reported s));
      [exact Hdep| | | | |exact Hy].
    + intros y s0 s0' Hs Hy0. apply walk_frame in Hy0 as (-> & _). done.
    + intros y s0 s0' [k Hk] Hy0. apply walk_frame in Hy0 as (_ & _ & Hsub).
      exists k. set_solver.
    + intros s0 s0' Hs Hy0. eapply walk_finds; [exact Hn| |exact Hy0].
      rewrite Hs. set_solver.
    + done.
  - done.
Qed.
End finds_facts.

(** X1. Every finding of [findCircularDeps] stands for a detection whose
    origin is a service of the array and whose closing id is reached
    from the origin, and from itself, along [dependsOn] edges. *)
Theorem findCircularDeps_sound (services : list Service) (fs : list LintResult) :
  findCircularDeps services = Some fs →
  ∃ detections,
    fs = (fun p => circularFinding (serviceMap_of services) p.1 p.2) <$> detections
    ∧ Forall (fun p => p.1 ∈ services
                       ∧ tc (depends (serviceMap_of services)) (svc_id p.1) p.2
                       ∧ tc (depends (serviceMap_of services)) p.2 p.2) detections.
Proof.
  rewrite findCircularDeps_detections.
  destruct (circularDetections services) as [ds|] eqn:Hds; simpl; [|done].
  intros [= <-]. exists ds. split; [done|]. by apply circularDetections_sound.
Qed.

Lemma findCircularDeps_sound_witness :
  ∃ detections,
    [mkLintResult "circular_dependency" error "svc-a" "service"
       "Circular dependency detected: svc-a ↔ svc-a" None]
    = (fun p => circularFinding (serviceMap_of [plain "s1" "svc-a" ["s1"]]) p.1 p.2)
      <$> detections
    ∧ Forall (fun p => p.1 ∈ [plain "s1" "svc-a" ["s1"]]
                       ∧ tc (depends (serviceMap_of [plain "s1" "svc-a" ["s1"]])) (svc_id p.1) p.2
                       ∧ tc (depends (serviceMap_of [plain "s1" "svc-a" ["s1"]])) p.2 p.2)
             detections.
Proof.
  apply (findCircularDeps_sound [plain "s1" "svc-a" ["s1"]]).
  vm_compute. reflexivity.
Defined.

Lemma findCircularDeps_nil_iff (services : list Service) :
  findCircularDeps services = Some []
  ↔ ∀ x, ¬ tc (depends (serviceMap_of services)) x x.
Proof.
  rewrite findCircularDeps_detections.
  destruct (circularDetections_run services) as (st & Hrun & Hdet & [Hrep _] & _).
  rewrite Hdet. simpl. split.
  - intros Hnil x Hcycle.
    destruct (run_finds _ services x st Hcycle Hrun) as [k Hk].
    rewrite Hrep in Hk. apply elem_of_list_to_set in Hk.
    destruct (results st); [by apply elem_of_nil in Hk|done].
  - intros Hacyclic. destruct (results st) as [|p ps] eqn:Hres; [done|].
    pose proof (circularDetections_sound services _ Hdet) as Hall.
    apply Forall_cons in Hall as [(_ & _ & Hcycle) _].
    by apply Hacyclic in Hcycle.
Qed.

(** X2. [findCircularDeps] returns no finding exactly when no id
    reaches itself along [dependsOn] edges. *)
Theorem findCircularDeps_empty_iff_acyclic (services : list Service) :
  findCircularDeps services = Some []
  ↔ ∀ x, ¬ tc (depends (serviceMap_of services)) x x.
Proof. apply findCircularDeps_nil_iff. Qed.

(** ** Traversals: the shape of the forest *)

Lemma tree_nodes_unfold n : tree_nodes n = n :: forest_nodes (node_children n).
Proof.
  by destruct n.
Qed.

Lemma forest_nodes_cons n ns : forest_nodes (n :: ns) = n :: forest_nodes (node_children n) ++ forest_nodes ns.
Proof. unfold forest_nodes at 1. by rewrite bind_cons, tree_nodes_unfold. Qed.

Lemma map_st_labels {A B St L : Type} (g : B → L) (h : A → L)
    (f : A → St → option (B * St)) xs st ys st' :
  (∀ x s y s', x ∈ xs → f x s = Some (y, s') → g y = h x) →
  map_st f xs st = Some (ys, st') → g <$> ys = h <$> xs.
Proof.
  revert st ys. induction xs as [|x xs IH]; intros st ys Hf Hrun; simpl in Hrun.
  - by simplify_eq.
  - destruct (f x st) as [[y s1]|] eqn:E; simpl in Hrun; [|done].
    destruct (map_st f xs s1) as [[ys1 s2]|] eqn:E1; simpl in Hrun; [|done].
    simplify_eq. rewrite !fmap_cons. f_equal.
    + eapply Hf; [left|done].
    + eapply IH; [|done]. intros z s z' s' Hz. apply Hf. by right.
Qed.

(** The roots of the forest of a call that goes past its guard on a
    known service: one per dependency. *)
Lemma walkDown_from_roots fuel i m maxDepth v d s forest v' :
  geq d maxDepth = false → i ∉ v → m !! i = Some s →
  walkDown_from fuel i m maxDepth v d = Some (forest, v') →
  node_label <$> forest = dep_label m <$> deps_of s.
Proof.
  intros Hd Hv Hs Hw. destruct fuel as [|fuel]; [done|].
  rewrite (walkDown_from_expand _ _ _ _ _ _ s) in Hw by done.
  eapply map_st_labels; [|exact Hw].
  intros dep v0 y v1 _ Hdep. cbv beta in Hdep.
  destruct (walkDown_from fuel (dep_service dep) m maxDepth v0 (d + 1)) as [[ch v2]|];
    simpl in Hdep; [|done].
  by simplify_eq.
Qed.

Lemma walkDown_root_labels (serviceId : string) (serviceMap : gmap string Service)
    (maxDepth : number) (service : Service) :
  serviceMap !! serviceId = Some service → geq 0 maxDepth = false →
  ∃ forest, walkDown serviceId serviceMap maxDepth = Some forest
            ∧ node_label <$> forest = dep_label serviceMap <$> deps_of service.
Proof.
  intros Hs Hd. destruct (walkDown_total serviceId serviceMap maxDepth) as [forest Hrun].
  exists forest. split; [done|]. unfold walkDown in Hrun.
  destruct (walkDown_from _ serviceId serviceMap maxDepth ∅ 0) as [[f v]|] eqn:E;
    simpl in Hrun; [|done].
  simplify_eq. eapply walkDown_from_roots; [done| |done|exact E]. set_solver.
Qed.

(** X3. For a known service and a depth limit above zero, [walkDown]
    lists every dependency of the service as a root, in the order of
    [dependsOn], with its id, its api and description, and the name of
    the target or the raw id when the target does not exist. *)
Theorem walkDown_roots (serviceId : string) (serviceMap : gmap string Service)
    (maxDepth : number) (service : Service) :
  serviceMap !! serviceId = Some service → geq 0 maxDepth = false →
  ∃ forest, walkDown serviceId serviceMap maxDepth = Some forest
            ∧ node_label <$> forest = dep_label serviceMap <$> deps_of service.
Proof. apply walkDown_root_labels. Qed.

Lemma walkDown_roots_witness :
  ∃ forest, walkDown "payments" (serviceMap_of sample) (Num 1) = Some forest
            ∧ node_label <$> forest
              = dep_label (serviceMap_of sample)
                <$> [mkDependency "stripe" None (Some "Processes events");
                     mkDependency "auth" (Some "Service tokens") None].
Proof.
  apply (walkDown_roots "payments" (serviceMap_of sample) (Num 1)
           (mkService "payments" "payments" None None
              (Some [mkDependency "stripe" None (Some "Processes events");
                     mkDependency "auth" (Some "Service tokens") None])));
    vm_compute; reflexivity.
Defined.

Lemma walkDown_from_children fuel i m maxDepth v d forest v' :
  walkDown_from fuel i m maxDepth v d = Some (forest, v') →
  (forest = [] ∨ ∃ s, m !! i = Some s ∧ node_label <$> forest = dep_label m <$> deps_of s)
  ∧ Forall (children_of_service m) (forest_nodes forest).
Proof.
  revert i v d forest v'. induction fuel as [|fuel IH]; intros i v d forest v' Hw; [done|].
  destruct (geq d maxDepth) eqn:Hd.
  { rewrite walkDown_from_stop in Hw by by left. simplify_eq. split; [by left|constructor]. }
  destruct (decide (i ∈ v)) as [Hv|Hv].
  { rewrite walkDown_from_stop in Hw by by right. simplify_eq. split; [by left|constructor]. }
  destruct (m !! i) as [s|] eqn:Hs.
  2:{ rewrite walkDown_from_absent in Hw by done. simplify_eq. split; [by left|constructor]. }
  split.
  { right. exists s. split; [done|]. by eapply walkDown_from_roots. }
  rewrite (walkDown_from_expand _ _ _ _ _ _ s) in Hw by done.
  apply (map_st_inv (fun _ => True)
           (fun n => children_of_service m n
                     ∧ Forall (children_of_service m) (forest_nodes (node_children n))))
    in Hw as [Hall _]; [| |done].
  - clear -Hall. induction Hall as [|n ns [Hn Hch] _ IHns]; [constructor|].
    rewrite forest_nodes_cons. constructor; [done|]. by apply Forall_app.
  - intros dep v0 y v1 _ _ Hdep. split; [|done]. cbv beta in Hdep.
    destruct (walkDown_from fuel (dep_service dep) m maxDepth v0 (d + 1)) as [[ch v2]|] eqn:E;
      simpl in Hdep; [|done].
    simplify_eq. apply IH in E as [Hroots Hnodes]. by split.
Qed.

(** X4. Every node of the forest of [walkDown] either has no children
    or has, as children, the dependencies of the service bearing its id,
    all of them and in order: the forest shows only edges of the
    catalog and never a part of a service's dependency list. *)
Theorem walkDown_children (serviceId : string) (serviceMap : gmap string Service)
    (maxDepth : number) :
  ∃ forest, walkDown serviceId serviceMap maxDepth = Some forest
            ∧ Forall (children_of_service serviceMap) (forest_nodes forest).
Proof.
  destruct (walkDown_total serviceId serviceMap maxDepth) as [forest Hrun].
  exists forest. split; [done|]. unfold walkDown in Hrun.
  destruct (walkDown_from _ serviceId serviceMap maxDepth ∅ 0) as [[f v]|] eqn:E;
    simpl in Hrun; [|done].
  simplify_eq. by apply walkDown_from_children in E as [_ ?].
Qed.

(** *** Each service is expanded once *)

Lemma expanded_cons n ns :
  expanded (n :: ns)
  = (if decide (node_children n ≠ []) then [node_id n] else [])
    ++ expanded (node_children n) ++ expanded ns.
Proof.
  unfold expanded. rewrite forest_nodes_cons, filter_cons, filter_app.
  case_decide; by rewrite ?fmap_cons, fmap_app.
Qed.

Lemma map_st_apart {A B : Type} (E : B → list string)
    (f : A → gset string → option (B * gset string)) xs st ys st' :
  (∀ x s y s', x ∈ xs → st ⊆ s → f x s = Some (y, s') →
     s ⊆ s' ∧ NoDup (E y) ∧ ∀ z, z ∈ E y → (z ∉ s) ∧ z ∈ s') →
  map_st f xs st = Some (ys, st') →
  st ⊆ st' ∧ NoDup (ys ≫= E) ∧ ∀ z, z ∈ ys ≫= E → (z ∉ st) ∧ z ∈ st'.
Proof.
  revert st ys. induction xs as [|x xs IH]; intros st ys Hf Hrun; simpl in Hrun.
  - simplify_eq. split_and!; [done|constructor|]. intros z Hz. by apply elem_of_nil in Hz.
  - destruct (f x st) as [[y s1]|] eqn:E1; simpl in Hrun; [|done].
    destruct (map_st f xs s1) as [[ys1 s2]|] eqn:E2; simpl in Hrun; [|done].
    simplify_eq.
    destruct (Hf x st y s1) as (Hsub & Hnd & Hin); [left|done|done|].
    destruct (IH s1 ys1) as (Hsub' & Hnd' & Hin'); [|done|].
    { intros z s z' s' Hz Hs. apply Hf; [by right|by etrans]. }
    rewrite bind_cons. split_and!.
    + by etrans.
    + apply NoDup_app. split_and!; [done| |done].
      intros z Hz Hz'. apply Hin in Hz as [_ Hz]. apply Hin' in Hz' as [Hz' _]. done.
    + intros z [Hz|Hz]%elem_of_app.
      * apply Hin in Hz as [Hz1 Hz2]. split; [done|]. by apply Hsub'.
      * apply Hin' in Hz as [Hz1 Hz2]. split; [|done]. intros Hz. by apply Hz1, Hsub.
Qed.

Lemma expanded_bind ns : expanded ns = ns ≫= (fun n => expanded [n]).
Proof.
  induction ns as [|n ns IH]; [done|].
  rewrite bind_cons, <-IH, !expanded_cons.
  change (expanded []) with (@nil string). by rewrite !app_nil_r, <-(assoc_L (++)).
Qed.

Lemma walkDown_from_expanded fuel i m maxDepth v d forest v' :
  walkDown_from fuel i m maxDepth v d = Some (forest, v') →
  v ⊆ v'
  ∧ (forest ≠ [] → (i ∉ v) ∧ i ∈ v')
  ∧ NoDup (expanded forest)
  ∧ ∀ x, x ∈ expanded forest → (x ∉ v) ∧ x ∈ v' ∧ x ≠ i.
Proof.
  revert i v d forest v'. induction fuel as [|fuel IH]; intros i v d forest v' Hw; [done|].
  assert (∀ w : gset string, w ⊆ w ∧ (@nil DepNode ≠ [] → (i ∉ w) ∧ i ∈ w)
            ∧ NoDup (expanded []) ∧ ∀ x, x ∈ expanded [] → (x ∉ w) ∧ x ∈ w ∧ x ≠ i) as Hnil.
  { intros w. split_and!; [done|done|constructor|]. intros x Hx. by apply elem_of_nil in Hx. }
  destruct (geq d maxDepth) eqn:Hd.
  { rewrite walkDown_from_stop in Hw by by left. simplify_eq. apply Hnil. }
  destruct (decide (i ∈ v)) as [Hv|Hv].
  { rewrite walkDown_from_stop in Hw by by right. simplify_eq. apply Hnil. }
  destruct (m !! i) as [s|] eqn:Hs.
  2:{ rewrite walkDown_from_absent in Hw by done. simplify_eq.
      split_and!; [set_solver|done|constructor|].
      intros x Hx. by apply elem_of_nil in Hx. }
  rewrite (walkDown_from_expand _ _ _ _ _ _ s) in Hw by done.
  apply (map_st_apart (fun n => expanded [n])) in Hw as (Hsub & Hnd & Hin).
  - clear IH Hnil Hs. rewrite expanded_bind. split_and!; [set_solver|set_solver|done|].
    intros x Hx. apply Hin in Hx. clear Hin Hnd. set_solver.
  - intros dep v0 y v1 _ Hv0 Hdep. cbv beta in Hdep.
    destruct (walkDown_from fuel (dep_service dep) m maxDepth v0 (d + 1)) as [[ch v2]|] eqn:E;
      simpl in Hdep; [|done].
    simplify_eq. apply IH in E as (Hsub & Hne & Hnd & Hin).
    rewrite expanded_cons. simpl. change (expanded []) with (@nil string).
    rewrite app_nil_r. split; [done|]. case_decide as Hch.
    + destruct (Hne Hch) as [Ho Hn]. split.
      * simpl. apply NoDup_cons. split; [|done]. intros Hx.
        by apply Hin in Hx as (_ & _ & ?).
      * intros z [->|Hz]%elem_of_cons; [done|]. by apply Hin in Hz as (? & ? & _).
    + split; [done|]. intros z Hz. by apply Hin in Hz as (? & ? & _).
Qed.

(** X5. In the forest of [walkDown] the nodes that have children bear
    pairwise distinct ids, none of them the root's, and all of them ids
    of services of the map: every service is expanded at most once, so
    at most as many nodes are expanded as the map has services. *)
Theorem walkDown_expands_once (serviceId : string) (serviceMap : gmap string Service)
    (maxDepth : number) :
  ∃ forest, walkDown serviceId serviceMap maxDepth = Some forest
            ∧ NoDup (expanded forest)
            ∧ (serviceId ∉ expanded forest)
            ∧ (∀ x, x ∈ expanded forest → is_Some (serviceMap !! x))
            ∧ (length (expanded forest) ≤ size serviceMap)%nat.
Proof.
  destruct (walkDown_total serviceId serviceMap maxDepth) as [forest Hrun].
  exists forest. split; [done|]. unfold walkDown in Hrun.
  destruct (walkDown_from _ serviceId serviceMap maxDepth ∅ 0) as [[f v]|] eqn:E;
    simpl in Hrun; [|done].
  simplify_eq.
  pose proof (walkDown_from_children _ _ _ _ _ _ _ _ E) as [_ Hch].
  apply walkDown_from_expanded in E as (_ & _ & Hnd & Hin).
  assert (∀ x, x ∈ expanded forest → is_Some (serviceMap !! x)) as Hdom.
  { intros x (n & -> & Hn)%list_elem_of_fmap.
    apply list_elem_of_filter in Hn as [Hne Hn].
    rewrite Forall_forall in Hch. destruct (Hch n Hn) as [?|(s & -> & _)]; [done|eauto]. }
  split_and!; [done| |done|].
  - intros Hx. apply Hin in Hx. naive_solver.
  - rewrite <-size_dom, <-(size_list_to_set (C:=gset string)) by done.
    apply subseteq_size. intros x Hx%elem_of_list_to_set. by apply elem_of_dom, Hdom.
Qed.

(** ** Upward traversal, orphans and directions *)

Lemma walkUp_from_roots fuel i rev maxDepth v d forest v' :
  geq d maxDepth = false → i ∉ v →
  walkUp_from fuel i rev maxDepth v d = Some (forest, v') →
  node_label <$> forest = entry_label <$> default [] (rev !! i).
Proof.
  intros Hd Hv Hw. destruct fuel as [|fuel]; [done|].
  rewrite walkUp_from_expand in Hw by done.
  eapply map_st_labels; [|exact Hw].
  intros dep v0 y v1 _ Hdep. cbv beta in Hdep.
  destruct (walkUp_from fuel (svc_id (rev_service dep)) rev maxDepth v0 (d + 1))
    as [[ch v2]|]; simpl in Hdep; [|done].
  by simplify_eq.
Qed.

Lemma buildReverseIndex_entries services i :
  default [] (buildReverseIndex services !! i) = entries_for i (edges services).
Proof.
  rewrite buildReverseIndex_lookup. case_decide as He; [by rewrite He|done].
Qed.

Lemma walkUp_root_labels (serviceId : string) (services : list Service) (maxDepth : number) :
  geq 0 maxDepth = false →
  ∃ forest, walkUp serviceId (buildReverseIndex services) maxDepth = Some forest
            ∧ node_label <$> forest = entry_label <$> entries_for serviceId (edges services).
Proof.
  intros Hd.
  destruct (walkUp_total serviceId (buildReverseIndex services) maxDepth) as [forest Hrun].
  exists forest. split; [done|]. unfold walkUp in Hrun.
  destruct (walkUp_from _ serviceId (buildReverseIndex services) maxDepth ∅ 0)
    as [[f v]|] eqn:E; simpl in Hrun; [|done].
  simplify_eq. rewrite <-buildReverseIndex_entries.
  eapply walkUp_from_roots; [done| |exact E]. set_solver.
Qed.

(** X6. With a depth limit above zero, [walkUp] over the reverse index
    of a catalog lists as roots the dependencies on the id, one per
    edge and in the order of the catalog, each with the depending
    service's id and name and the edge's api and description. *)
Theorem walkUp_roots (serviceId : string) (services : list Service) (maxDepth : number) :
  geq 0 maxDepth = false →
  ∃ forest, walkUp serviceId (buildReverseIndex services) maxDepth = Some forest
            ∧ node_label <$> forest = entry_label <$> entries_for serviceId (edges services).
Proof. apply walkUp_root_labels. Qed.

Lemma walkUp_roots_witness :
  ∃ forest, walkUp "auth" (buildReverseIndex sample) (Num 1) = Some forest
            ∧ node_label <$> forest = entry_label <$> entries_for "auth" (edges sample).
Proof. apply (walkUp_roots "auth" sample (Num 1)). reflexivity. Defined.

Lemma walkUp_from_depth fuel i rev (D : Z) v d forest v' :
  walkUp_from fuel i rev (Num D) v d = Some (forest, v') →
  (∀ k : nat, D - d < Z.of_nat k → nodes_at k forest = [])
  ∧ (∀ k : nat, Z.of_nat k = D - d → Forall (fun n => node_children n = []) (nodes_at k forest))
  ∧ (D ≤ d → forest = []).
Proof.
  revert i v d forest v'. induction fuel as [|fuel IH]; intros i v d forest v' Hw; [done|].
  destruct (D <=? d) eqn:Hd.
  { rewrite walkUp_from_stop in Hw by by left. simplify_eq.
    split_and!; intros; rewrite ?nodes_at_nil; done. }
  apply Z.leb_gt in Hd.
  destruct (decide (i ∈ v)) as [Hv|Hv].
  { rewrite walkUp_from_stop in Hw by by right. simplify_eq.
    split_and!; intros; rewrite ?nodes_at_nil; done. }
  rewrite walkUp_from_expand in Hw by (done || by apply Z.leb_gt).
  apply (map_st_inv (fun _ => True)
           (fun n => (∀ k : nat, D - (d + 1) < Z.of_nat k → nodes_at k (node_children n) = [])
                     ∧ (∀ k : nat, Z.of_nat k = D - (d + 1) →
                          Forall (fun n => node_children n = []) (nodes_at k (node_children n)))
                     ∧ (D ≤ d + 1 → node_children n = [])))
    in Hw as [Hall _]; [| |done].
  2:{ intros dep v0 y v1 _ _ Hdep. split; [|done]. cbv beta in Hdep.
      destruct (walkUp_from fuel (svc_id (rev_service dep)) rev (Num D) v0 (d + 1))
        as [[ch v2]|] eqn:E; simpl in Hdep; [|done].
      simplify_eq. simpl. by eapply IH. }
  split_and!.
  - intros [|[|k]] Hk; [done|lia|]. rewrite nodes_at_SS. apply bind_nil_Forall.
    eapply Forall_impl; [done|]. intros n (Hn & _ & _). apply Hn. lia.
  - intros [|[|k]] Hk; [done| |].
    + simpl. eapply Forall_impl; [done|]. intros n (_ & _ & Hn). apply Hn. lia.
    + rewrite nodes_at_SS. apply Forall_bind.
      eapply Forall_impl; [done|]. intros n (_ & Hn & _). apply Hn. lia.
  - lia.
Qed.

(** X7. [walkUp] keeps the depth limit as [walkDown] does: with an
    integer limit [d] the forest has no node at a depth above [d], its
    nodes at depth [d] have no children, and it is empty when [d] is
    zero or less. *)
Theorem walkUp_depth_bound (serviceId : string)
    (reverseIndex : gmap string (list RevEntry)) (d : Z) :
  ∃ forest,
    walkUp serviceId reverseIndex (Num d) = Some forest
    ∧ (∀ k : nat, d < Z.of_nat k → nodes_at k forest = [])
    ∧ (∀ n, n ∈ nodes_at (Z.to_nat d) forest → node_children n = [])
    ∧ (d ≤ 0 → forest = []).
Proof.
  destruct (walkUp_total serviceId reverseIndex (Num d)) as [forest Hrun].
  exists forest. split; [done|]. unfold walkUp in Hrun.
  destruct (walkUp_from (S (size reverseIndex)) serviceId reverseIndex (Num d) ∅ 0)
    as [[f v]|] eqn:E; simpl in Hrun; [|done]. simplify_eq.
  apply walkUp_from_depth in E as (Hdeep & Hleaf & Hzero). split_and!.
  - intros k Hk. apply Hdeep. lia.
  - intros n Hn. destruct (decide (0 ≤ d)) as [Hpos|Hneg].
    + specialize (Hleaf (Z.to_nat d)). rewrite Forall_forall in Hleaf.
      apply Hleaf; [lia|done].
    + rewrite Hzero in Hn by lia. rewrite nodes_at_nil in Hn.
      by apply elem_of_nil in Hn.
  - intros Hd. apply Hzero. lia.
Qed.

Lemma elem_of_findOrphans services s :
  s ∈ findOrphans services
  ↔ s ∈ services ∧ deps_of s = [] ∧ ∀ t, t ∈ services → svc_id s ∉ dep_ids t.
Proof.
  rewrite findOrphans_filter, list_elem_of_filter, Forall_forall. tauto.
Qed.

(** X8. In a catalog with unique ids and with a depth limit above
    zero, the orphans are exactly the services for which [resolveDeps]
    finds nothing in either direction. *)
Theorem orphan_iff_no_deps (services : list Service) (s : Service) (maxDepth : number) :
  NoDup (svc_id <$> services) → s ∈ services → geq 0 maxDepth = false →
  s ∈ findOrphans services
  ↔ resolveDeps (svc_id s) services maxDepth None
    = Some (mkDepsResult (svc_id s, svc_name s) [] []).
Proof.
  intros Hnd Hs Hd. pose proof (serviceMap_of_unique _ _ Hnd Hs) as Hlook.
  destruct (walkDown_root_labels _ _ maxDepth _ Hlook Hd) as (down & Hdown & Hdl).
  destruct (walkUp_root_labels (svc_id s) services maxDepth Hd) as (up & Hup & Hul).
  unfold resolveDeps. rewrite Hdown, Hup, Hlook. simpl.
  rewrite elem_of_findOrphans. split.
  - intros (_ & Hno & Hnone).
    rewrite Hno in Hdl. apply fmap_nil_inv in Hdl as ->.
    assert (entries_for (svc_id s) (edges services) = []) as He.
    { rewrite <-buildReverseIndex_entries.
      by rewrite (proj2 (buildReverseIndex_None services (svc_id s)) Hnone). }
    rewrite He in Hul. by apply fmap_nil_inv in Hul as ->.
  - intros [= -> ->]. split; [done|]. split.
    + symmetry in Hdl. by apply fmap_nil_inv in Hdl.
    + apply buildReverseIndex_None. symmetry in Hul. apply fmap_nil_inv in Hul.
      rewrite buildReverseIndex_lookup, Hul. by rewrite decide_True.
Qed.

Lemma orphan_iff_no_deps_witness :
  mkService "notifications" "notifications" None None None ∈ findOrphans sample
  ↔ resolveDeps "notifications" sample (Num 10) None
    = Some (mkDepsResult ("notifications", "notifications") [] []).
Proof.
  apply (orphan_iff_no_deps sample
           (mkService "notifications" "notifications" None None None) (Num 10)).
  - apply (bool_decide_unpack _). vm_compute. exact I.
  - do 4 right. left.
  - reflexivity.
Defined.

Lemma filter_without_deps (l k : list Service) :
  Forall (fun t => deps_of t = []) l → Forall (fun t => deps_of t = []) k →
  filter (fun s => deps_of s = [] ∧ Forall (fun t => svc_id s ∉ dep_ids t) k) l = l.
Proof.
  intros Hl Hk. induction Hl as [|s l Hs _ IH]; [done|].
  rewrite filter_cons, decide_True, IH; [done|]. split; [done|].
  eapply Forall_impl; [exact Hk|]. intros t Ht. unfold dep_ids. rewrite Ht.
  apply not_elem_of_nil.
Qed.

(** X9. [findOrphans] is idempotent: among the orphans of a catalog
    every service is an orphan. *)
Theorem findOrphans_idempotent (services : list Service) :
  findOrphans (findOrphans services) = findOrphans services.
Proof.
  rewrite (findOrphans_filter (findOrphans services)).
  assert (Forall (fun t => deps_of t = []) (findOrphans services)) as Hno.
  { apply Forall_forall. intros t Ht. by apply elem_of_findOrphans in Ht as (_ & ? & _). }
  by apply filter_without_deps.
Qed.

(** X10. [resolveDeps] always returns; with the direction [up] it
    lists no dependencies and the same dependents as without a
    direction, and with [down] no dependents and the same
    dependencies. *)
Theorem resolveDeps_directions (serviceId : string) (services : list Service)
    (maxDepth : number) :
  ∃ both,
    resolveDeps serviceId services maxDepth None = Some both
    ∧ resolveDeps serviceId services maxDepth (Some Up)
      = Some (mkDepsResult (res_service both) (res_dependents both) [])
    ∧ resolveDeps serviceId services maxDepth (Some Down)
      = Some (mkDepsResult (res_service both) [] (res_dependencies both)).
Proof.
  unfold resolveDeps.
  destruct (walkUp_total serviceId (buildReverseIndex services) maxDepth) as [up ->].
  destruct (walkDown_total serviceId (serviceMap_of services) maxDepth) as [down ->].
  simpl. eauto.
Qed.

(** ** The checks, one by one *)

Lemma filter_nil_Forall {A : Type} (P : A → Prop) `{∀ x, Decision (P x)} (l : list A) :
  filter P l = [] ↔ Forall (fun x => ¬ P x) l.
Proof.
  induction l as [|x l IH]; [by split; [constructor|]|].
  rewrite filter_cons, Forall_cons. case_decide; [naive_solver|]. rewrite IH. tauto.
Qed.

Lemma filter_ext_in {A : Type} (P Q : A → Prop)
    `{∀ x, Decision (P x)} `{∀ x, Decision (Q x)} (l : list A) :
  (∀ x, x ∈ l → P x ↔ Q x) → filter P l = filter Q l.
Proof.
  induction l as [|x l IH]; intros Hext; [done|].
  rewrite !filter_cons, IH by (intros y Hy; apply Hext; by right).
  destruct (Hext x) as [H1 H2]; [left|]. repeat case_decide; tauto.
Qed.

Lemma fmap_nil_iff {A B : Type} (f : A → B) (l : list A) : f <$> l = [] ↔ l = [].
Proof. split; [apply fmap_nil_inv|by intros ->]. Qed.

Lemma findDanglingDeps_edges services serviceIds :
  findDanglingDeps services serviceIds
  = danglingFinding <$> filter (fun e => e.1 ∉ serviceIds) (edges services).
Proof.
  unfold findDanglingDeps, edges.
  induction services as [|s services IH]; [done|].
  rewrite !bind_cons, filter_app, fmap_app, IH. f_equal.
  unfold edges_of. induction (deps_of s) as [|d ds IHd]; [done|].
  rewrite fmap_cons, !filter_cons. simpl.
  destruct (decide (dep_service d ∈ serviceIds)) as [Hin|Hin].
  - rewrite !decide_False; [done|by intros ?|].
    by rewrite bool_decide_eq_true_2.
  - rewrite !decide_True; [by rewrite !fmap_cons, IHd|done|].
    by rewrite bool_decide_eq_false_2.
Qed.

Lemma findDanglingDeps_nil_iff (services : list Service) (serviceIds : gset string) :
  findDanglingDeps services serviceIds = []
  ↔ ∀ s d, s ∈ services → d ∈ deps_of s → dep_service d ∈ serviceIds.
Proof.
  rewrite findDanglingDeps_edges, fmap_nil_iff, filter_nil_Forall, Forall_forall. split.
  - intros Hall s d Hs Hd.
    destruct (decide (dep_service d ∈ serviceIds)) as [|Hno]; [done|].
    exfalso. apply (Hall (dep_service d, mkRevEntry s (dep_api d) (dep_description d))); [|done].
    apply elem_of_edges. by exists s, d.
  - intros Hall [k x] Hin Hno.
    destruct (proj1 (elem_of_edges _ _ _) Hin) as (s & d & Hs & Hd & -> & _).
    simpl in Hno. apply Hno. by apply (Hall s d).
Qed.

(** X11. [findDanglingDeps] has one error per dependency whose target
    is not among the given ids, in the order of the catalog, naming the
    depending service and quoting the missing id; it is empty exactly
    when every target is among the ids. *)
Theorem findDanglingDeps_exact (services : list Service) (serviceIds : gset string) :
  findDanglingDeps services serviceIds
  = danglingFinding <$> filter (fun e => e.1 ∉ serviceIds) (edges services)
  ∧ (findDanglingDeps services serviceIds = []
     ↔ ∀ s d, s ∈ services → d ∈ deps_of s → dep_service d ∈ serviceIds).
Proof.
  split; [apply findDanglingDeps_edges|apply findDanglingDeps_nil_iff].
Qed.

(** *** Duplicate names *)

Lemma share_count_cons toLowerCase x names l :
  share_count toLowerCase (x :: names) l
  = ((if decide (toLowerCase x = l) then 1 else 0) + share_count toLowerCase names l)%nat.
Proof. unfold share_count. rewrite filter_cons. by case_decide. Qed.

Lemma share_count_zero toLowerCase names l :
  share_count toLowerCase names l = 0%nat ↔ l ∉ toLowerCase <$> names.
Proof.
  induction names as [|x names IH]; [by split; [intros _; apply not_elem_of_nil|]|].
  rewrite share_count_cons, fmap_cons, not_elem_of_cons, <-IH.
  case_decide as Hx; split; intros Hc;
    [lia|destruct Hc; congruence|split; [congruence|lia]|destruct Hc; lia].
Qed.

Lemma share_count_NoDup toLowerCase names :
  NoDup (toLowerCase <$> names) ↔ ∀ l, (share_count toLowerCase names l ≤ 1)%nat.
Proof.
  induction names as [|x names IH].
  { split; [intros _ l; unfold share_count; simpl; lia|constructor]. }
  rewrite fmap_cons, NoDup_cons, IH. split.
  - intros [Hx Hall] l. rewrite share_count_cons. case_decide as Hl.
    + subst l. apply share_count_zero in Hx. lia.
    + apply Hall.
  - intros Hall. split.
    + apply share_count_zero. specialize (Hall (toLowerCase x)).
      rewrite share_count_cons, decide_True in Hall by done. lia.
    + intros l. specialize (Hall l). rewrite share_count_cons in Hall. lia.
Qed.

Lemma check_nil_iff toLowerCase items kind :
  check toLowerCase items kind = [] ↔ NoDup (toLowerCase <$> items).
Proof.
  rewrite share_count_NoDup. split.
  - intros Hnil l. pose proof (check_for toLowerCase items kind l) as Hfor.
    rewrite Hnil in Hfor. destruct (1 <? share_count toLowerCase items l)%nat eqn:Hc; [done|].
    apply Nat.ltb_ge in Hc. done.
  - intros Hall. destruct (check toLowerCase items kind) as [|f fs] eqn:E; [done|].
    pose proof (check_for toLowerCase items kind (lr_entity f)) as Hfor.
    rewrite E, filter_cons, decide_True in Hfor by done.
    specialize (Hall (lr_entity f)). apply Nat.ltb_ge in Hall. by rewrite Hall in Hfor.
Qed.

Lemma findDuplicateNames_nil toLowerCase services systems owners :
  findDuplicateNames toLowerCase services systems owners = []
  ↔ NoDup (toLowerCase <$> (svc_name <$> services))
    ∧ NoDup (toLowerCase <$> (sys_name <$> systems))
    ∧ NoDup (toLowerCase <$> (own_name <$> owners)).
Proof.
  unfold findDuplicateNames. rewrite !app_nil, !check_nil_iff. tauto.
Qed.

(** X12. [findDuplicateNames] finds nothing exactly when, within each
    kind, the names are pairwise distinct after lower-casing. *)
Theorem findDuplicateNames_nil_iff (toLowerCase : string → string)
    (services : list Service) (systems : list System) (owners : list Owner) :
  findDuplicateNames toLowerCase services systems owners = []
  ↔ NoDup (toLowerCase <$> (svc_name <$> services))
    ∧ NoDup (toLowerCase <$> (sys_name <$> systems))
    ∧ NoDup (toLowerCase <$> (own_name <$> owners)).
Proof. apply findDuplicateNames_nil. Qed.

(** ** The checks together *)

Lemma findOrphanedSystemRefs_nil_iff services (systemIds : gset string) :
  findOrphanedSystemRefs services systemIds = []
  ↔ ∀ s, s ∈ services → truthy (svc_system s) = true → str (svc_system s) ∈ systemIds.
Proof.
  unfold findOrphanedSystemRefs. rewrite fmap_nil_iff, filter_nil_Forall, Forall_forall.
  split; intros Hall s Hs.
  - intros Ht. destruct (decide (str (svc_system s) ∈ systemIds)) as [|Hno]; [done|].
    exfalso. apply (Hall s Hs). by rewrite Ht, bool_decide_eq_false_2.
  - rewrite andb_true_iff, negb_true_iff, bool_decide_eq_false. intros [Ht Hno].
    by apply Hno, Hall.
Qed.

Lemma owner_refs_nil_iff {A : Type} (owner : A → option string) (xs : list A)
    (ownerIds : gset string) :
  filter (fun x => truthy (owner x) && negb (bool_decide (str (owner x) ∈ ownerIds)) = true) xs
  = []
  ↔ ∀ x, x ∈ xs → truthy (owner x) = true → str (owner x) ∈ ownerIds.
Proof.
  rewrite filter_nil_Forall, Forall_forall. split; intros Hall x Hx.
  - intros Ht. destruct (decide (str (owner x) ∈ ownerIds)) as [|Hno]; [done|].
    exfalso. apply (Hall x Hx). by rewrite Ht, bool_decide_eq_false_2.
  - rewrite andb_true_iff, negb_true_iff, bool_decide_eq_false. intros [Ht Hno].
    by apply Hno, Hall.
Qed.

Lemma findOrphanedOwnerRefs_nil_iff services systems (ownerIds : gset string) :
  findOrphanedOwnerRefs services systems ownerIds = []
  ↔ (∀ s, s ∈ services → truthy (svc_owner s) = true → str (svc_owner s) ∈ ownerIds)
    ∧ (∀ y, y ∈ systems → truthy (sys_owner y) = true → str (sys_owner y) ∈ ownerIds).
Proof.
  unfold findOrphanedOwnerRefs.
  by rewrite app_nil, !fmap_nil_iff, (owner_refs_nil_iff svc_owner),
    (owner_refs_nil_iff sys_owner).
Qed.

Lemma findMissingOwners_nil_iff services :
  findMissingOwners services = [] ↔ ∀ s, s ∈ services → truthy (svc_owner s) = true.
Proof.
  unfold findMissingOwners. rewrite fmap_nil_iff, filter_nil_Forall, Forall_forall.
  split; intros Hall s Hs.
  - specialize (Hall s Hs). by destruct (truthy (svc_owner s)).
  - by rewrite (Hall s Hs).
Qed.

Lemma findEmptySystems_nil_iff systems services :
  findEmptySystems systems services = []
  ↔ ∀ y, y ∈ systems → ∃ s, s ∈ services ∧ svc_system s = Some (sys_id y).
Proof.
  unfold findEmptySystems. rewrite fmap_nil_iff, filter_nil_Forall, Forall_forall.
  assert (∀ y, existsb (fun s => bool_decide (svc_system s = Some (sys_id y))) services = true
               ↔ ∃ s, s ∈ services ∧ svc_system s = Some (sys_id y)) as Hex.
  { intros y. rewrite existsb_exists. split.
    - intros (s & Hs%list_elem_of_In & Heq%bool_decide_eq_true). eauto.
    - intros (s & Hs & Heq). exists s. split; [by apply list_elem_of_In|].
      by apply bool_decide_eq_true. }
  split; intros Hall y Hy.
  - apply Hex. specialize (Hall y Hy). by destruct (existsb _ services).
  - specialize (Hall y Hy). apply Hex in Hall. by rewrite Hall.
Qed.

(** The findings of [runLintChecks], check by check. *)
Lemma runLintChecks_parts toLowerCase services systems owners :
  ∃ circular,
    findCircularDeps services = Some circular
    ∧ runLintChecks toLowerCase services systems owners
      = Some (findOrphanedSystemRefs services (list_to_set (sys_id <$> systems))
              ++ findOrphanedOwnerRefs services systems (list_to_set (own_id <$> owners))
              ++ findMissingOwners services
              ++ findDanglingDeps services (list_to_set (svc_id <$> services))
              ++ circular
              ++ findDuplicateNames toLowerCase services systems owners
              ++ findEmptySystems systems services).
Proof.
  unfold runLintChecks. destruct (findCircularDeps_total services) as (cs & -> & _).
  simpl. eauto.
Qed.

Lemma Forall_fmap_kind {A : Type} (P : LintResult → Prop) (mk : A → LintResult) (xs : list A) :
  (∀ x, P (mk x)) → Forall P (mk <$> xs).
Proof. intros Hmk. apply Forall_fmap, Forall_true. intros x. apply Hmk. Qed.

(** Each finding is an error or a warning according to its type. *)
Lemma runLintChecks_severity toLowerCase services systems owners fs :
  runLintChecks toLowerCase services systems owners = Some fs →
  Forall (fun f =>
            (lr_severity f = warning ∧ lr_type f ∈ ["missing_owner"; "empty_system"])
            ∨ (lr_severity f = error
               ∧ lr_type f ∈ ["orphaned_system_ref"; "orphaned_owner_ref";
                              "dangling_dependency"; "circular_dependency";
                              "duplicate_name"])) fs.
Proof.
  destruct (runLintChecks_parts toLowerCase services systems owners) as (cs & Hcs & ->).
  intros [= <-]. unfold findOrphanedOwnerRefs, findDuplicateNames.
  rewrite findCircularDeps_detections in Hcs.
  destruct (circularDetections services) as [ds|]; simpl in Hcs; [|done].
  simplify_eq. rewrite findDanglingDeps_edges, !check_unfold, !Forall_app.
  split_and!; apply Forall_fmap_kind; intros x;
    first [left; split; [reflexivity|in_list] | right; split; [reflexivity|in_list]].
Qed.

Lemma not_in_types (t : string) (ts : list string) (fs : list LintResult) :
  Forall (fun f => lr_type f = t) fs → t ∈ ts →
  (∀ f, f ∈ fs → lr_type f ∉ ts) → fs = [].
Proof.
  intros Hall Ht Hno. destruct fs as [|f fs]; [done|].
  apply Forall_cons in Hall as [Hf _]. exfalso.
  apply (Hno f); [left|]. by rewrite Hf.
Qed.

(** X13. [runLintChecks] reports no dangling or orphaned reference
    exactly when every reference that is set resolves: the system and
    the owner of each service, the owner of each system, and the target
    of each dependency, looked up among the ids of the catalog itself. *)
Theorem runLintChecks_references (toLowerCase : string → string)
    (services : list Service) (systems : list System) (owners : list Owner) :
  ∃ fs, runLintChecks toLowerCase services systems owners = Some fs
        ∧ ((∀ f, f ∈ fs → lr_type f ∉ ["orphaned_system_ref"; "orphaned_owner_ref";
                                        "dangling_dependency"])
           ↔ refs_resolve services systems owners).
Proof.
  destruct (runLintChecks_parts toLowerCase services systems owners) as (cs & Hcs & Hrun).
  eexists. split; [exact Hrun|].
  destruct (findCircularDeps_total services) as (cs' & Hcs' & Hty).
  rewrite Hcs in Hcs'. simplify_eq.
  pose proof (findOrphanedSystemRefs_type services (list_to_set (sys_id <$> systems))) as HA.
  pose proof (findOrphanedOwnerRefs_type services systems (list_to_set (own_id <$> owners)))
    as HB.
  pose proof (findDanglingDeps_type services (list_to_set (svc_id <$> services))) as HD.
  unfold refs_resolve.
  assert (∀ (i : string) (l : list string), i ∈ l ↔ i ∈ (list_to_set l : gset string)) as Hset
    by (intros; by rewrite elem_of_list_to_set).
  split.
  - intros Hno.
    assert (findOrphanedSystemRefs services (list_to_set (sys_id <$> systems)) = []) as HA'.
    { eapply (not_in_types _ ["orphaned_system_ref"; "orphaned_owner_ref"; "dangling_dependency"]);
        [exact HA|in_list|]. intros f Hf. apply Hno.
      rewrite !elem_of_app. auto. }
    assert (findOrphanedOwnerRefs services systems (list_to_set (own_id <$> owners)) = [])
      as HB'.
    { eapply (not_in_types _ ["orphaned_system_ref"; "orphaned_owner_ref"; "dangling_dependency"]);
        [exact HB|in_list|]. intros f Hf. apply Hno.
      rewrite !elem_of_app. auto. }
    assert (findDanglingDeps services (list_to_set (svc_id <$> services)) = []) as HD'.
    { eapply (not_in_types _ ["orphaned_system_ref"; "orphaned_owner_ref"; "dangling_dependency"]);
        [exact HD|in_list|]. intros f Hf. apply Hno.
      rewrite !elem_of_app. auto. }
    pose proof (proj1 (findOrphanedSystemRefs_nil_iff _ _) HA') as HA1.
    destruct (proj1 (findOrphanedOwnerRefs_nil_iff _ _ _) HB') as [HB1 HB2].
    pose proof (proj1 (findDanglingDeps_nil_iff _ _) HD') as HD1.
    split_and!; intros; apply Hset; eauto.
  - intros (H1 & H2 & H3 & H4).
    assert (findOrphanedSystemRefs services (list_to_set (sys_id <$> systems)) = []) as ->.
    { apply findOrphanedSystemRefs_nil_iff. intros. apply Hset. eauto. }
    assert (findOrphanedOwnerRefs services systems (list_to_set (own_id <$> owners)) = [])
      as ->.
    { apply findOrphanedOwnerRefs_nil_iff. split; intros; apply Hset; eauto. }
    assert (findDanglingDeps services (list_to_set (svc_id <$> services)) = []) as ->.
    { apply findDanglingDeps_nil_iff. intros. apply Hset. eauto. }
    simpl. intros f Hf Hin.
    pose proof (findMissingOwners_type services) as HC.
    pose proof (findDuplicateNames_type toLowerCase services systems owners) as HE.
    pose proof (findEmptySystems_type systems services) as HF.
    rewrite Forall_forall in HC, Hty, HE, HF.
    rewrite !elem_of_app in Hf.
    destruct Hf as [Hf|[Hf|[Hf|Hf]]];
      [apply HC in Hf|apply Hty in Hf|apply HE in Hf|apply HF in Hf];
      rewrite Hf in Hin; rewrite !elem_of_cons, elem_of_nil in Hin;
      destruct Hin as [?|[?|[?|[]]]]; discriminate.
Qed.

(** X14. The [lint] command always reports. Its counts of errors and
    warnings add up to the number of findings, the exit code is 1 when
    there is an error and 0 otherwise, and the only findings that do
    not make it fail are [missing_owner] and [empty_system]. *)
Theorem lint_exit_policy (toLowerCase : string → string)
    (services : list Service) (systems : list System) (owners : list Owner) :
  ∃ report code,
    lint toLowerCase services systems owners = Some (report, code)
    ∧ runLintChecks toLowerCase services systems owners = Some (rep_results report)
    ∧ (rep_errors report + rep_warnings report = length (rep_results report))%nat
    ∧ (code = 0%nat ∨ code = 1%nat)
    ∧ (rep_success report = true ↔ code = 0%nat)
    ∧ (code = 1%nat
       ↔ ∃ f, f ∈ rep_results report ∧ lr_type f ∉ ["missing_owner"; "empty_system"]).
Proof.
  destruct (runLintChecks_parts toLowerCase services systems owners) as (cs & _ & Hrun).
  pose proof (runLintChecks_severity _ _ _ _ _ Hrun) as Hsev.
  unfold lint. rewrite Hrun. simpl. remember (_ ++ _) as fs eqn:Hfs. clear Hfs Hrun.
  eexists _, _. split; [done|]. simpl. split; [done|].
  assert (length (filter (fun r => lr_severity r = error) fs)
          + length (filter (fun r => lr_severity r = warning) fs) = length fs)%nat as Hsum.
  { clear. induction fs as [|f fs IH]; [done|].
    rewrite !filter_cons. destruct (lr_severity f); simpl; lia. }
  assert ((0 < length (filter (fun r => lr_severity r = error) fs))%nat
          ↔ ∃ f, f ∈ fs ∧ lr_type f ∉ ["missing_owner"; "empty_system"]) as Herr.
  { rewrite Forall_forall in Hsev. split.
    - destruct (filter _ fs) as [|f l] eqn:E; [simpl; lia|]. intros _.
      assert (f ∈ filter (fun r => lr_severity r = error) fs) as Hf by (rewrite E; left).
      apply list_elem_of_filter in Hf as [Hf Hin]. exists f. split; [done|].
      destruct (Hsev f Hin) as [[Hw _]|[_ Hty]]; [congruence|].
      intros Hty'. rewrite !elem_of_cons, elem_of_nil in Hty'.
      destruct Hty' as [Heq|[Heq|[]]]; rewrite Heq in Hty;
        rewrite !elem_of_cons, elem_of_nil in Hty;
        destruct Hty as [?|[?|[?|[?|[?|[]]]]]]; discriminate.
    - intros (f & Hin & Hty).
      assert (f ∈ filter (fun r => lr_severity r = error) fs) as Hf.
      { apply list_elem_of_filter. split; [|done].
        destruct (Hsev f Hin) as [[_ Hw]|[He _]]; [done|done]. }
      destruct (filter _ fs); [by apply elem_of_nil in Hf|simpl; lia]. }
  split_and!.
  - exact Hsum.
  - destruct (0 <? _)%nat; auto.
  - destruct (length (filter (fun r => lr_severity r = error) fs)); simpl; split; done.
  - rewrite <-Herr. destruct (length (filter (fun r => lr_severity r = error) fs));
      simpl; split; (done || lia).
Qed.

(** X15. [runLintChecks] returns the empty list exactly for the clean
    catalogs: every reference resolves, every service has an owner, no
    id reaches itself along [dependsOn] edges, names are distinct
    within each kind after lower-casing, and every system has a
    service. *)
Theorem runLintChecks_clean_iff (toLowerCase : string → string)
    (services : list Service) (systems : list System) (owners : list Owner) :
  runLintChecks toLowerCase services systems owners = Some []
  ↔ clean_catalog toLowerCase services systems owners.
Proof.
  destruct (runLintChecks_parts toLowerCase services systems owners) as (cs & Hcs & ->).
  assert (∀ (i : string) (l : list string), i ∈ l ↔ i ∈ (list_to_set l : gset string)) as Hset
    by (intros; by rewrite elem_of_list_to_set).
  pose proof (findCircularDeps_nil_iff services) as Hcyc. rewrite Hcs in Hcyc.
  unfold clean_catalog, refs_resolve. split.
  - intros [= Hnil]. rewrite !app_nil in Hnil.
    destruct Hnil as (HA & HB & HC & HD & -> & HE & HF).
    pose proof (proj1 (findOrphanedSystemRefs_nil_iff _ _) HA) as HA1.
    destruct (proj1 (findOrphanedOwnerRefs_nil_iff _ _ _) HB) as [HB1 HB2].
    pose proof (proj1 (findMissingOwners_nil_iff _) HC) as HC1.
    pose proof (proj1 (findDanglingDeps_nil_iff _ _) HD) as HD1.
    pose proof (proj1 (findDuplicateNames_nil _ _ _ _) HE) as HE1.
    pose proof (proj1 (findEmptySystems_nil_iff _ _) HF) as HF1.
    destruct HE1 as (HE1 & HE2 & HE3).
    split_and!; try done; try (intros; apply Hset; eauto). by apply Hcyc.
  - intros ((H1 & H2 & H3 & H4) & HC & Hacyc & HE1 & HE2 & HE3 & HF).
    apply Hcyc in Hacyc as [= ->].
    rewrite (proj2 (findOrphanedSystemRefs_nil_iff _ _)) by (intros; apply Hset; eauto).
    rewrite (proj2 (findOrphanedOwnerRefs_nil_iff _ _ _))
      by (split; intros; apply Hset; eauto).
    rewrite (proj2 (findMissingOwners_nil_iff _)) by done.
    rewrite (proj2 (findDanglingDeps_nil_iff _ _)) by (intros; apply Hset; eauto).
    rewrite (proj2 (findDuplicateNames_nil _ _ _ _)) by done.
    by rewrite (proj2 (findEmptySystems_nil_iff _ _)).
Qed.
(** ** Relation resolver *)

Lemma find_Some_elem {A : Type} (f : A → bool) (l : list A) (x : A) :
  find f l = Some x → x ∈ l ∧ f x = true.
Proof.
  induction l as [|y l IH]; simpl; [done|].
  destruct (f y) eqn:Hy.
  - intros [= ->]. split; [left|done].
  - intros [Hin Hx]%IH. split; [by right|done].
Qed.

Lemma find_None_iff {A : Type} (f : A → bool) (l : list A) :
  find f l = None ↔ ∀ x, x ∈ l → f x = false.
Proof.
  induction l as [|y l IH]; simpl.
  - split; [|done]. intros _ x Hx. by apply elem_of_nil in Hx.
  - destruct (f y) eqn:Hy.
    + split; [done|]. intros Hall. rewrite (Hall y) in Hy by left. done.
    + rewrite IH. split.
      * intros Hall x [->|Hx]%elem_of_cons; [done|by apply Hall].
      * intros Hall x Hx. apply Hall. by right.
Qed.

Lemma find_is_Some {A : Type} (f : A → bool) (l : list A) (x : A) :
  x ∈ l → f x = true → is_Some (find f l).
Proof.
  intros Hin Hx. destruct (find f l) eqn:E; [done|].
  rewrite find_None_iff in E. rewrite (E x Hin) in Hx. done.
Qed.

(** Among records with distinct ids, looking an id up finds the record
    that bears it. *)
Lemma find_by_id {A : Type} (key : A → string) (l : list A) (x : A) :
  NoDup (key <$> l) → x ∈ l → find (fun y => String.eqb (key y) (key x)) l = Some x.
Proof.
  induction l as [|y l IH]; simpl; [by intros _ ?%elem_of_nil|].
  intros [Hy Hnd]%NoDup_cons [->|Hin]%elem_of_cons.
  - by rewrite String.eqb_refl.
  - destruct (String.eqb_spec (key y) (key x)) as [Heq|_]; [|by apply IH].
    exfalso. apply Hy. rewrite Heq. apply list_elem_of_fmap. by exists x.
Qed.

Lemma existsb_dep_ids (i : string) (s : Service) :
  existsb (fun d => String.eqb (dep_service d) i) (deps_of s) = true ↔ i ∈ dep_ids s.
Proof.
  unfold dep_ids. rewrite existsb_exists, list_elem_of_fmap. split.
  - intros (d & Hd & Heq). apply String.eqb_eq in Heq. exists d.
    split; [done|]. by apply list_elem_of_In.
  - intros (d & -> & Hd). exists d. split; [by apply list_elem_of_In|].
    apply String.eqb_refl.
Qed.

Lemma ref_is_true (ref : option string) (i : string) :
  ref_is ref i = true ↔ ref = Some i.
Proof.
  destruct ref as [r|]; simpl; [|done]. rewrite String.eqb_eq. split; congruence.
Qed.

Lemma truthy_Some (ref : option string) :
  truthy ref = true → ref = Some (str ref) ∧ str ref ≠ EmptyString.
Proof.
  destruct ref as [r|]; simpl; [|done]. intros Hr. split; [done|].
  intros ->. done.
Qed.

Lemma first_dependency (i : string) (s : Service) :
  match find (fun d => String.eqb (dep_service d) i) (deps_of s) with
  | None => None
  | Some dep => Some (mkRevEntry s (dep_api dep) (dep_description dep))
  end = head (entries_for i (edges_of s)).
Proof.
  unfold edges_of. induction (deps_of s) as [|d ds IHd]; simpl; [done|].
  rewrite entries_for_cons. simpl.
  destruct (String.eqb_spec (dep_service d) i) as [Heq|Hne].
  - by rewrite decide_True by done.
  - by rewrite decide_False by done.
Qed.

Lemma some_dependency (i : string) (s : Service) :
  existsb (fun d => String.eqb (dep_service d) i) (deps_of s)
  = bool_decide (entries_for i (edges_of s) ≠ []).
Proof.
  unfold edges_of. induction (deps_of s) as [|d ds IHd]; simpl; [done|].
  rewrite entries_for_cons. simpl.
  destruct (String.eqb_spec (dep_service d) i) as [Heq|Hne].
  - by rewrite decide_True by done.
  - by rewrite decide_False by done.
Qed.

(** The dependents [resolveService] lists for an id, service by
    service. *)
Lemma dependents_bind (i : string) (services : list Service) :
  omap (fun s =>
          match find (fun d => String.eqb (dep_service d) i) (deps_of s) with
          | None => None
          | Some dep => Some (mkRevEntry s (dep_api dep) (dep_description dep))
          end)
       (filter (fun s => existsb (fun d => String.eqb (dep_service d) i) (deps_of s) = true)
               services)
  = services ≫= (fun s => take 1 (entries_for i (edges_of s))).
Proof.
  induction services as [|s services IH]; [done|].
  rewrite filter_cons, bind_cons, <-IH, some_dependency. clear IH.
  destruct (entries_for i (edges_of s)) as [|e es] eqn:E.
  - by rewrite decide_False by (rewrite bool_decide_eq_true; auto).
  - rewrite decide_True by by rewrite bool_decide_eq_true.
    cbn [omap list_omap]. by rewrite first_dependency, E.
Qed.

Lemma entries_for_edges (i : string) (services : list Service) :
  entries_for i (edges services) = services ≫= (fun s => entries_for i (edges_of s)).
Proof.
  unfold edges. induction services as [|s services IH]; [done|].
  rewrite !bind_cons, <-IH. unfold entries_for. by rewrite filter_app, fmap_app.
Qed.

Lemma entries_for_length (i : string) (s : Service) :
  length (entries_for i (edges_of s)) = length (filter (fun j => j = i) (dep_ids s)).
Proof.
  unfold edges_of, dep_ids. induction (deps_of s) as [|d ds IH]; [done|].
  rewrite !fmap_cons, entries_for_cons, filter_cons. simpl.
  case_decide; simpl; by rewrite IH.
Qed.

Lemma NoDup_filter_eq_length (i : string) (l : list string) :
  NoDup l → (length (filter (fun j => j = i) l) ≤ 1)%nat.
Proof.
  induction 1 as [|j l Hj Hnd IH]; [simpl; lia|].
  rewrite filter_cons. case_decide as Heq; [|done]. subst j. simpl.
  destruct (filter (fun j => j = i) l) as [|k ks] eqn:E; [simpl; lia|].
  exfalso. apply Hj.
  assert (k ∈ filter (fun j => j = i) l) as Hk by (rewrite E; left).
  apply list_elem_of_filter in Hk as [-> Hk]. done.
Qed.

(** X16. [resolveService] returns nothing exactly for an id that no
    service of the catalog bears; what it returns is a service of the
    catalog with that id, and where ids are distinct every service of
    the catalog is found under its id. *)
Theorem resolveService_lookup (serviceId : string) (catalog : CatalogData) :
  (resolveService serviceId catalog = None ↔ serviceId ∉ svc_id <$> cat_services catalog)
  ∧ (∀ r, resolveService serviceId catalog = Some r →
          rs_service r ∈ cat_services catalog ∧ svc_id (rs_service r) = serviceId)
  ∧ (NoDup (svc_id <$> cat_services catalog) →
     ∀ s, s ∈ cat_services catalog →
          ∃ r, resolveService (svc_id s) catalog = Some r ∧ rs_service r = s).
Proof.
  split_and!.
  - unfold resolveService.
    destruct (find _ (cat_services catalog)) as [s|] eqn:E.
    + apply find_Some_elem in E as [Hin Heq%String.eqb_eq]. split; [done|].
      intros Hno. exfalso. apply Hno. apply list_elem_of_fmap. by exists s.
    + split; [|done]. intros _ (s & -> & Hin)%list_elem_of_fmap.
      rewrite find_None_iff in E. specialize (E s Hin). simpl in E.
      by rewrite String.eqb_refl in E.
  - intros r. unfold resolveService.
    destruct (find _ (cat_services catalog)) as [s|] eqn:E; [|done].
    intros [= <-]. simpl. apply find_Some_elem in E as [Hin Heq%String.eqb_eq]. done.
  - intros Hnd s Hs. unfold resolveService.
    rewrite (find_by_id svc_id _ s Hnd Hs). by eexists.
Qed.

(** X17. The dependents [resolveService] lists are entries of the
    reverse index of the catalog at the id, in its order, one for each
    service that depends on the id; where no service names a
    dependency twice, they are all the entries of the index. *)
Theorem resolveService_dependents (serviceId : string) (catalog : CatalogData)
    (r : ResolvedService) :
  resolveService serviceId catalog = Some r →
  rs_dependents r
    `sublist_of` default [] (buildReverseIndex (cat_services catalog) !! serviceId)
  ∧ rev_service <$> rs_dependents r
    = filter (fun s => serviceId ∈ dep_ids s) (cat_services catalog)
  ∧ ((∀ s, s ∈ cat_services catalog → NoDup (dep_ids s)) →
     rs_dependents r = default [] (buildReverseIndex (cat_services catalog) !! serviceId)).
Proof.
  unfold resolveService.
  destruct (find _ (cat_services catalog)) as [s0|]; [|done].
  intros [= <-]. simpl. rewrite dependents_bind, buildReverseIndex_entries, entries_for_edges.
  generalize (cat_services catalog) as services. intros services. split_and!.
  - induction services as [|s services IH]; [done|]. rewrite !bind_cons.
    apply sublist_app; [|done]. apply sublist_take.
  - induction services as [|s services IH]; [done|]. rewrite bind_cons.
    rewrite fmap_app, IH, filter_cons. clear IH.
    destruct (decide (serviceId ∈ dep_ids s)) as [Hin|Hno].
    + apply list_elem_of_fmap in Hin as (d & -> & Hd).
      assert (mkRevEntry s (dep_api d) (dep_description d)
                ∈ entries_for (dep_service d) (edges_of s)) as He.
      { apply elem_of_entries_for. apply list_elem_of_fmap. by exists d. }
      assert (∀ e, e ∈ entries_for (dep_service d) (edges_of s) → rev_service e = s) as Hs.
      { intros e (d' & Heq & _)%elem_of_entries_for%list_elem_of_fmap.
        by injection Heq as _ ->. }
      destruct (entries_for (dep_service d) (edges_of s)) as [|e es];
        [by apply elem_of_nil in He|].
      simpl. rewrite (Hs e) by left. done.
    + destruct (entries_for serviceId (edges_of s)) as [|e es] eqn:E; [done|].
      exfalso. apply Hno.
      assert (e ∈ entries_for serviceId (edges_of s)) as He by (rewrite E; left).
      apply elem_of_entries_for, list_elem_of_fmap in He as (d & [= -> ->] & Hd).
      apply list_elem_of_fmap. by exists d.
  - intros Hnd. induction services as [|s services IH]; [done|]. rewrite !bind_cons.
    rewrite IH by (intros t Ht; apply Hnd; by right). f_equal.
    pose proof (NoDup_filter_eq_length serviceId _ (Hnd s ltac:(left))) as Hlen.
    rewrite <-entries_for_length in Hlen.
    destruct (entries_for serviceId (edges_of s)) as [|e [|e' es]]; simpl in *; [done|done|lia].
Qed.

Lemma resolveService_dependents_witness :
  ∃ r, resolveService "auth" (mkCatalogData sample [] []) = Some r
       ∧ rs_dependents r `sublist_of` default [] (buildReverseIndex sample !! "auth")
       ∧ rev_service <$> rs_dependents r = filter (fun s => "auth" ∈ dep_ids s) sample
       ∧ ((∀ s, s ∈ sample → NoDup (dep_ids s)) →
          rs_dependents r = default [] (buildReverseIndex sample !! "auth")).
Proof.
  eexists. split; [reflexivity|].
  apply (resolveService_dependents "auth" (mkCatalogData sample [] [])).
  reflexivity.
Defined.

(** Resolving an id that [find] has just found finds the same record. *)
Lemma find_again {A : Type} (key : A → string) (l : list A) (i : string) (x : A) :
  find (fun y => String.eqb (key y) i) l = Some x →
  find (fun y => String.eqb (key y) (key x)) l = Some x.
Proof.
  intros Hfind. pose proof (find_Some_elem _ _ _ Hfind) as [_ Heq%String.eqb_eq].
  by rewrite Heq.
Qed.

(** X18. What [resolveService] resolves, the other resolvers list
    back: the owner it returns is the one [resolveOwner] returns for
    that owner's id, with the service among its services, and likewise
    the system with [resolveSystem]. *)
Theorem resolveService_listed_back (serviceId : string) (catalog : CatalogData)
    (r : ResolvedService) :
  resolveService serviceId catalog = Some r →
  (∀ o, rs_owner r = Some o →
        ∃ ro, resolveOwner (own_id o) catalog = Some ro
              ∧ ro_owner ro = o ∧ rs_service r ∈ ro_services ro)
  ∧ (∀ y, rs_system r = Some y →
          ∃ ry, resolveSystem (sys_id y) catalog = Some ry
                ∧ ry_system ry = y ∧ rs_service r ∈ ry_services ry).
Proof.
  unfold resolveService.
  destruct (find _ (cat_services catalog)) as [s|] eqn:E; [|done].
  intros [= <-]. simpl. apply find_Some_elem in E as [Hin _]. split.
  - intros o Ho. destruct (truthy (svc_owner s)) eqn:Ht; [|done].
    apply truthy_Some in Ht as [Hs _].
    pose proof (find_Some_elem _ _ _ Ho) as [_ Heq%String.eqb_eq].
    unfold resolveOwner. rewrite (find_again own_id _ _ _ Ho).
    eexists. split; [done|]. simpl. split; [done|].
    apply list_elem_of_filter. split; [|done]. apply ref_is_true. congruence.
  - intros y Hy. destruct (truthy (svc_system s)) eqn:Ht; [|done].
    apply truthy_Some in Ht as [Hs _].
    pose proof (find_Some_elem _ _ _ Hy) as [_ Heq%String.eqb_eq].
    unfold resolveSystem. rewrite (find_again sys_id _ _ _ Hy).
    eexists. split; [done|]. simpl. split; [done|].
    apply list_elem_of_filter. split; [|done]. apply ref_is_true. congruence.
Qed.

Lemma resolveService_listed_back_witness :
  ∃ r, resolveService "s1" makeCatalog = Some r
       ∧ (∀ o, rs_owner r = Some o →
               ∃ ro, resolveOwner (own_id o) makeCatalog = Some ro
                     ∧ ro_owner ro = o ∧ rs_service r ∈ ro_services ro)
       ∧ (∀ y, rs_system r = Some y →
               ∃ ry, resolveSystem (sys_id y) makeCatalog = Some ry
                     ∧ ry_system ry = y ∧ rs_service r ∈ ry_services ry).
Proof.
  eexists. split; [reflexivity|].
  apply (resolveService_listed_back "s1" makeCatalog). reflexivity.
Defined.

(** X19. Where service ids are distinct, what [resolveOwner] and
    [resolveSystem] list under an id other than the empty string
    resolves back: [resolveService] on a listed service returns that
    service with the same owner, or the same system. *)
Theorem resolved_lists_resolve_back (catalog : CatalogData) :
  NoDup (svc_id <$> cat_services catalog) →
  (∀ ownerId ro s,
     ownerId ≠ EmptyString → resolveOwner ownerId catalog = Some ro → s ∈ ro_services ro →
     ∃ r, resolveService (svc_id s) catalog = Some r
          ∧ rs_service r = s ∧ rs_owner r = Some (ro_owner ro))
  ∧ (∀ systemId ry s,
       systemId ≠ EmptyString → resolveSystem systemId catalog = Some ry →
       s ∈ ry_services ry →
       ∃ r, resolveService (svc_id s) catalog = Some r
            ∧ rs_service r = s ∧ rs_system r = Some (ry_system ry)).
Proof.
  intros Hnd. split.
  - intros ownerId ro s Hne. unfold resolveOwner.
    destruct (find _ (cat_owners catalog)) as [o|] eqn:E; [|done].
    intros [= <-]. simpl. intros [Href%ref_is_true Hin]%list_elem_of_filter.
    unfold resolveService. rewrite (find_by_id svc_id _ s Hnd Hin).
    eexists. split; [done|]. simpl. split; [done|].
    rewrite Href. simpl.
    destruct (String.eqb_spec ownerId EmptyString) as [->|_]; [done|]. done.
  - intros systemId ry s Hne. unfold resolveSystem.
    destruct (find _ (cat_systems catalog)) as [y|] eqn:E; [|done].
    intros [= <-]. simpl. intros [Href%ref_is_true Hin]%list_elem_of_filter.
    unfold resolveService. rewrite (find_by_id svc_id _ s Hnd Hin).
    eexists. split; [done|]. simpl. split; [done|].
    rewrite Href. simpl.
    destruct (String.eqb_spec systemId EmptyString) as [->|_]; [done|]. done.
Qed.

Lemma resolved_lists_resolve_back_witness :
  (∀ ownerId ro s,
     ownerId ≠ EmptyString → resolveOwner ownerId makeCatalog = Some ro →
     s ∈ ro_services ro →
     ∃ r, resolveService (svc_id s) makeCatalog = Some r
          ∧ rs_service r = s ∧ rs_owner r = Some (ro_owner ro))
  ∧ (∀ systemId ry s,
       systemId ≠ EmptyString → resolveSystem systemId makeCatalog = Some ry →
       s ∈ ry_services ry →
       ∃ r, resolveService (svc_id s) makeCatalog = Some r
            ∧ rs_service r = s ∧ rs_system r = Some (ry_system ry)).
Proof.
  apply (resolved_lists_resolve_back makeCatalog).
  apply (bool_decide_unpack _). vm_compute. exact I.
Defined.

(** X20. In a catalog whose references all resolve, [resolveService]
    leaves nothing unresolved: the owner and the system are returned
    wherever the service names one, and every dependency of the
    service can itself be resolved. *)
Theorem resolveService_complete (serviceId : string)
    (services : list Service) (systems : list System) (owners : list Owner)
    (r : ResolvedService) :
  refs_resolve services systems owners →
  resolveService serviceId (mkCatalogData services systems owners) = Some r →
  (truthy (svc_owner (rs_service r)) = true →
   ∃ o, rs_owner r = Some o ∧ o ∈ owners ∧ svc_owner (rs_service r) = Some (own_id o))
  ∧ (truthy (svc_system (rs_service r)) = true →
     ∃ y, rs_system r = Some y ∧ y ∈ systems ∧ svc_system (rs_service r) = Some (sys_id y))
  ∧ (∀ d, d ∈ deps_of (rs_service r) →
          ∃ r', resolveService (dep_service d) (mkCatalogData services systems owners)
                = Some r'
                ∧ svc_id (rs_service r') = dep_service d).
Proof.
  intros (Hsys & Hown & _ & Hdeps). unfold resolveService at 1. simpl.
  destruct (find _ services) as [s|] eqn:E; [|done].
  intros [= <-]. simpl. apply find_Some_elem in E as [Hin _]. split_and!.
  - intros Ht. rewrite Ht. specialize (Hown s Hin Ht).
    apply list_elem_of_fmap in Hown as (o & Ho & Hino).
    destruct (find_is_Some (fun o => String.eqb (own_id o) (str (svc_owner s))) owners o Hino)
      as [o' Ho']; [rewrite Ho; apply String.eqb_refl|].
    exists o'. split; [done|].
    apply find_Some_elem in Ho' as [Hin' Heq%String.eqb_eq]. split; [done|].
    apply truthy_Some in Ht as [Hs _]. congruence.
  - intros Ht. rewrite Ht. specialize (Hsys s Hin Ht).
    apply list_elem_of_fmap in Hsys as (y & Hy & Hiny).
    destruct (find_is_Some (fun y => String.eqb (sys_id y) (str (svc_system s))) systems y Hiny)
      as [y' Hy']; [rewrite Hy; apply String.eqb_refl|].
    exists y'. split; [done|].
    apply find_Some_elem in Hy' as [Hin' Heq%String.eqb_eq]. split; [done|].
    apply truthy_Some in Ht as [Hs _]. congruence.
  - intros d Hd. specialize (Hdeps s d Hin Hd).
    apply list_elem_of_fmap in Hdeps as (t & Ht & Hint).
    unfold resolveService. simpl.
    destruct (find_is_Some (fun s => String.eqb (svc_id s) (dep_service d)) services t Hint)
      as [t' Ht']; [rewrite Ht; apply String.eqb_refl|].
    rewrite Ht'. eexists. split; [done|]. simpl.
    by apply find_Some_elem in Ht' as [_ Heq%String.eqb_eq].
Qed.

Lemma resolveService_complete_witness :
  ∃ r, resolveService "s3" makeCatalog = Some r
       ∧ (truthy (svc_owner (rs_service r)) = true →
          ∃ o, rs_owner r = Some o ∧ o ∈ cat_owners makeCatalog
               ∧ svc_owner (rs_service r) = Some (own_id o))
       ∧ (truthy (svc_system (rs_service r)) = true →
          ∃ y, rs_system r = Some y ∧ y ∈ cat_systems makeCatalog
               ∧ svc_system (rs_service r) = Some (sys_id y))
       ∧ (∀ d, d ∈ deps_of (rs_service r) →
               ∃ r', resolveService (dep_service d) makeCatalog = Some r'
                     ∧ svc_id (rs_service r') = dep_service d).
Proof.
  eexists. split; [reflexivity|].
  apply (resolveService_complete "s3" (cat_services makeCatalog) (cat_systems makeCatalog)
           (cat_owners makeCatalog)); [|reflexivity].
  unfold refs_resolve. split_and!.
  - refine (proj1 (Forall_forall _ _) _). apply (bool_decide_unpack _). vm_compute. exact I.
  - refine (proj1 (Forall_forall _ _) _). apply (bool_decide_unpack _). vm_compute. exact I.
  - refine (proj1 (Forall_forall _ _) _). apply (bool_decide_unpack _). vm_compute. exact I.
  - intros s d Hs. revert d. apply Forall_forall. revert s Hs. apply Forall_forall.
    apply (bool_decide_unpack _). vm_compute. exact I.
Defined.

(** X21. [findEmptySystems] flags, in the order of the catalog, the
    systems for whose id [resolveSystem] lists no service. *)
Theorem findEmptySystems_resolveSystem (services : list Service) (systems : list System)
    (owners : list Owner) :
  lr_entity <$> findEmptySystems systems services
  = sys_name <$> filter (fun y => ry_services
                                    <$> resolveSystem (sys_id y)
                                          (mkCatalogData services systems owners)
                                  = Some [])
                        systems.
Proof.
  unfold findEmptySystems. rewrite <-list_fmap_compose.
  change (lr_entity ∘ _) with sys_name. f_equal.
  apply filter_ext_in. intros y Hy.
  unfold resolveSystem. simpl.
  destruct (find_is_Some (fun s => String.eqb (sys_id s) (sys_id y)) systems y Hy)
    as [y' ->]; [apply String.eqb_refl|]. simpl.
  rewrite negb_true_iff.
  assert (filter (fun s => ref_is (svc_system s) (sys_id y) = true) services = []
          ↔ existsb (fun s => bool_decide (svc_system s = Some (sys_id y))) services = false)
    as Hiff.
  { rewrite filter_nil_Forall, Forall_forall, <-not_true_iff_false, existsb_exists. split.
    - intros Hall (s & Hs%list_elem_of_In & Hb%bool_decide_eq_true).
      apply (Hall s Hs). by apply ref_is_true.
    - intros Hno s Hs Href%ref_is_true. apply Hno. exists s.
      split; [by apply list_elem_of_In|by apply bool_decide_eq_true]. }
  rewrite <-Hiff. split; [by intros ->|by intros [= ->]].
Qed.
(** ** Rendering of a forest *)

Lemma append_nil_r (a : string) : a +:+ EmptyString = a.
Proof.
  induction a as [|c a IH]; [done|].
  change (String c (a +:+ EmptyString) = String c a). by rewrite IH.
Qed.

Lemma append_assoc (a b c : string) : (a +:+ b) +:+ c = a +:+ (b +:+ c).
Proof.
  induction a as [|x a IH]; [done|].
  change (String x ((a +:+ b) +:+ c) = String x (a +:+ (b +:+ c))). by rewrite IH.
Qed.

(** The recursion of the source: a node prints its line, then its
    children under the longer prefix. *)
Lemma renderNode_unfold dim prefix isLast node :
  renderNode dim prefix isLast node
  = node_line dim prefix (if isLast then "└── " else "├── ") node
    :: renderTree dim (node_children node)
         (prefix +:+ (if isLast then "    " else "│   ")).
Proof.
  destruct node as [i name api description children]. simpl. f_equal.
  induction children as [|c cs IH]; [done|]. simpl. by rewrite IH.
Qed.

Lemma rendered_as_deeper dim prefix childPrefix line node :
  rendered_as dim (prefix +:+ childPrefix) line node → rendered_as dim prefix line node.
Proof.
  intros (indent & connector & Hc & ->). exists (childPrefix +:+ indent), connector.
  by rewrite append_assoc.
Qed.

Lemma renderTree_from_nodes dim nodes prefix :
  Forall (fun n => ∀ prefix isLast,
            Forall2 (rendered_as dim prefix) (renderNode dim prefix isLast n) (tree_nodes n))
         nodes →
  Forall2 (rendered_as dim prefix) (renderTree dim nodes prefix) (forest_nodes nodes).
Proof.
  induction 1 as [|n nodes Hn _ IH]; [constructor|].
  change (renderTree dim (n :: nodes) prefix)
    with (renderNode dim prefix (match nodes with [] => true | _ => false end) n
          ++ renderTree dim nodes prefix).
  unfold forest_nodes. rewrite bind_cons. apply Forall2_app; [apply Hn|apply IH].
Qed.

Lemma renderNode_lines dim node :
  ∀ prefix isLast,
    Forall2 (rendered_as dim prefix) (renderNode dim prefix isLast node) (tree_nodes node).
Proof.
  induction node as [node IH] using DepNode_forest_ind. intros prefix isLast.
  rewrite renderNode_unfold, tree_nodes_unfold. constructor.
  - exists EmptyString, (if isLast then "└── " else "├── ").
    rewrite append_nil_r. split; [|done]. destruct isLast; [left|right; left].
  - eapply Forall2_impl; [by apply renderTree_from_nodes|].
    intros line n. apply rendered_as_deeper.
Qed.

(** X22. [renderTree] prints one line for each node of the forest,
    parents before their children and siblings in order; the line of a
    node is the prefix, an indentation, a connector and the node's
    name, api and description. *)
Theorem renderTree_lines (dim : string → string) (nodes : list DepNode) (prefix : string) :
  length (renderTree dim nodes prefix) = length (forest_nodes nodes)
  ∧ Forall2 (rendered_as dim prefix) (renderTree dim nodes prefix) (forest_nodes nodes).
Proof.
  assert (Forall2 (rendered_as dim prefix) (renderTree dim nodes prefix) (forest_nodes nodes))
    as Hall.
  { apply renderTree_from_nodes, Forall_true. apply renderNode_lines. }
  split; [by eapply Forall2_length|done].
Qed.
(** ** Traversals: what a forest mentions *)

Lemma forest_ids_cons n ns :
  forest_ids (n :: ns) = node_id n :: forest_ids (node_children n) ++ forest_ids ns.
Proof. unfold forest_ids. by rewrite forest_nodes_cons, fmap_cons, fmap_app. Qed.

Lemma forest_ids_roots forest n : n ∈ forest → node_id n ∈ forest_ids forest.
Proof.
  induction forest as [|r forest IH]; [by intros ?%elem_of_nil|].
  rewrite forest_ids_cons. intros [->|Hin]%elem_of_cons; [left|].
  right. apply elem_of_app. right. by apply IH.
Qed.

(** The nodes built by a [map] over edges out of [i] into trees of
    reachable ids are reachable from [i]. *)
Lemma map_st_reach {A St : Type} (R : relation string) (key : A → string)
    (f : A → St → option (DepNode * St)) xs st ys st' (i : string) :
  (∀ x s y s', x ∈ xs → f x s = Some (y, s') →
     node_id y = key x ∧ ∀ z, z ∈ forest_ids (node_children y) → tc R (key x) z) →
  (∀ x, x ∈ xs → R i (key x)) →
  map_st f xs st = Some (ys, st') →
  ∀ z, z ∈ forest_ids ys → tc R i z.
Proof.
  revert st ys. induction xs as [|x xs IH]; intros st ys Hf HR Hrun; simpl in Hrun.
  - injection Hrun as <- <-. by intros z ?%elem_of_nil.
  - destruct (f x st) as [[y s1]|] eqn:E; simpl in Hrun; [|done].
    destruct (map_st f xs s1) as [[ys1 s2]|] eqn:E1; simpl in Hrun; [|done].
    injection Hrun as <- <-.
    destruct (Hf x st y s1) as [Hid Hsub]; [left|done|].
    intros z. rewrite forest_ids_cons, elem_of_cons, elem_of_app.
    intros [->|[Hz|Hz]].
    + rewrite Hid. apply tc_once, HR. left.
    + eapply tc_l; [apply HR; left|by apply Hsub].
    + eapply (IH s1 ys1); [| |done|done].
      * intros x' s y' s' Hx'. apply Hf. by right.
      * intros x' Hx'. apply HR. by right.
Qed.

(** The visited set after a [map] over edges: it has grown, it holds
    the target of every edge, and the ids added to it have all their
    successors in it and in the forest. *)
Lemma map_st_closed {A : Type} (R : relation string) (key : A → string)
    (f : A → gset string → option (DepNode * gset string)) xs st ys st' :
  (∀ x s y s', x ∈ xs → f x s = Some (y, s') →
     s ⊆ s' ∧ key x ∈ s' ∧ node_id y = key x
     ∧ ∀ a, a ∈ s' → a ∉ s → ∀ z, R a z → z ∈ s' ∧ z ∈ forest_ids (node_children y)) →
  map_st f xs st = Some (ys, st') →
  st ⊆ st'
  ∧ (∀ x, x ∈ xs → key x ∈ st' ∧ key x ∈ forest_ids ys)
  ∧ ∀ a, a ∈ st' → a ∉ st → ∀ z, R a z → z ∈ st' ∧ z ∈ forest_ids ys.
Proof.
  revert st ys. induction xs as [|x xs IH]; intros st ys Hf Hrun; simpl in Hrun.
  - injection Hrun as <- <-. split_and!; [done|by intros x ?%elem_of_nil|done].
  - destruct (f x st) as [[y s1]|] eqn:E; simpl in Hrun; [|done].
    destruct (map_st f xs s1) as [[ys1 s2]|] eqn:E1; simpl in Hrun; [|done].
    injection Hrun as <- <-.
    destruct (Hf x st y s1) as (Hsub & Hkey & Hid & Hcl); [left|done|].
    destruct (IH s1 ys1) as (Hsub' & Hkeys & Hcl'); [|done|].
    { intros x' s y' s' Hx'. apply Hf. by right. }
    split_and!.
    + by etrans.
    + intros x' [->|Hx']%elem_of_cons.
      * split; [by apply Hsub'|]. rewrite forest_ids_cons, <-Hid. left.
      * destruct (Hkeys x' Hx') as [? ?]. split; [done|].
        rewrite forest_ids_cons. right. apply elem_of_app. by right.
    + intros a Ha Hna z Hz. rewrite forest_ids_cons.
      destruct (decide (a ∈ s1)) as [Hs1|Hs1].
      * destruct (Hcl a Hs1 Hna z Hz) as [? ?]. split; [by apply Hsub'|].
        right. apply elem_of_app. by left.
      * destruct (Hcl' a Ha Hs1 z Hz) as [? ?]. split; [done|].
        right. apply elem_of_app. by right.
Qed.

(** A set that holds [i] and the successors of its elements holds what
    [i] reaches. *)
Lemma closed_reach (R : relation string) (v : gset string) (ids : list string) i x :
  (∀ a, a ∈ v → ∀ z, R a z → z ∈ v ∧ z ∈ ids) →
  i ∈ v → tc R i x → x ∈ ids.
Proof.
  intros Hcl Hi Hreach. induction Hreach as [a z Hz|a b z Hab _ IH].
  - by apply (Hcl a Hi z).
  - apply IH. by apply (Hcl a Hi b).
Qed.

Lemma dep_ids_elem (s : Service) (z : string) :
  z ∈ dep_ids s ↔ ∃ dep, dep ∈ deps_of s ∧ dep_service dep = z.
Proof.
  unfold dep_ids. rewrite list_elem_of_fmap. split; intros (dep & ? & ?); by exists dep.
Qed.

(** *** Downstream *)

Lemma walkDown_from_reach fuel i m maxDepth v d forest v' :
  walkDown_from fuel i m maxDepth v d = Some (forest, v') →
  ∀ z, z ∈ forest_ids forest → tc (depends m) i z.
Proof.
  revert i v d forest v'. induction fuel as [|fuel IH]; intros i v d forest v' Hw; [done|].
  destruct (geq d maxDepth) eqn:Hd.
  { rewrite walkDown_from_stop in Hw by by left. injection Hw as <- <-.
    by intros z ?%elem_of_nil. }
  destruct (decide (i ∈ v)) as [Hv|Hv].
  { rewrite walkDown_from_stop in Hw by by right. injection Hw as <- <-.
    by intros z ?%elem_of_nil. }
  destruct (m !! i) as [s|] eqn:Hs.
  2:{ rewrite walkDown_from_absent in Hw by done. injection Hw as <- <-.
      by intros z ?%elem_of_nil. }
  rewrite (walkDown_from_expand _ _ _ _ _ _ s) in Hw by done.
  eapply (map_st_reach (depends m) dep_service); [| |exact Hw].
  - intros dep v0 y v1 _ Hdep. cbv beta in Hdep.
    destruct (walkDown_from fuel (dep_service dep) m maxDepth v0 (d + 1)) as [[ch v2]|] eqn:E;
      simpl in Hdep; [|done].
    injection Hdep as <- <-. simpl. split; [done|]. by eapply IH.
  - intros dep Hdep. exists s. split; [done|]. apply dep_ids_elem. by exists dep.
Qed.

Lemma walkDown_from_closed fuel i m maxDepth v d forest v' :
  (∀ d, geq d maxDepth = false) →
  walkDown_from fuel i m maxDepth v d = Some (forest, v') →
  v ⊆ v' ∧ i ∈ v'
  ∧ ∀ a, a ∈ v' → a ∉ v → ∀ z, depends m a z → z ∈ v' ∧ z ∈ forest_ids forest.
Proof.
  intros Hinf. revert i v d forest v'.
  induction fuel as [|fuel IH]; intros i v d forest v' Hw; [done|].
  destruct (decide (i ∈ v)) as [Hv|Hv].
  { rewrite walkDown_from_stop in Hw by by right. injection Hw as <- <-. done. }
  destruct (m !! i) as [s|] eqn:Hs.
  2:{ rewrite walkDown_from_absent in Hw by done. injection Hw as <- <-.
      split_and!; [set_solver|set_solver|].
      intros a Ha Hna z (s & Hsa & _). exfalso.
      apply elem_of_union in Ha as [->%elem_of_singleton|Ha]; [congruence|done]. }
  rewrite (walkDown_from_expand _ _ _ _ _ _ s) in Hw by done.
  apply (map_st_closed (depends m) dep_service) in Hw as (Hsub & Hkeys & Hcl).
  - split_and!.
    + clear -Hsub. set_solver.
    + clear -Hsub. set_solver.
    + intros a Ha Hna z Hz. destruct (decide (a = i)) as [->|Hne].
      * destruct Hz as (s' & Hs' & (dep & Hdep & <-)%dep_ids_elem).
        rewrite Hs in Hs'. injection Hs' as <-. by apply Hkeys.
      * apply (Hcl a Ha); [|done]. clear -Hna Hne. set_solver.
  - intros dep v0 y v1 _ Hdep. cbv beta in Hdep.
    destruct (walkDown_from fuel (dep_service dep) m maxDepth v0 (d + 1)) as [[ch v2]|] eqn:E;
      simpl in Hdep; [|done].
    injection Hdep as <- <-. simpl.
    destruct (IH _ _ _ _ _ E) as (? & ? & ?). done.
Qed.

(** X23. [walkDown] mentions only what the service transitively
    depends on: the id of every node of the forest is reached from the
    given id along [dependsOn] edges of the map. *)
Theorem walkDown_sound (serviceId : string) (serviceMap : gmap string Service)
    (maxDepth : number) :
  ∃ forest, walkDown serviceId serviceMap maxDepth = Some forest
            ∧ ∀ x, x ∈ forest_ids forest → tc (depends serviceMap) serviceId x.
Proof.
  destruct (walkDown_total serviceId serviceMap maxDepth) as [forest Hrun].
  exists forest. split; [done|]. unfold walkDown in Hrun.
  destruct (walkDown_from _ serviceId serviceMap maxDepth ∅ 0) as [[f v]|] eqn:E;
    simpl in Hrun; [|done].
  injection Hrun as <-. by eapply walkDown_from_reach.
Qed.

(** X24. Without a depth limit ([Infinity], or [NaN], which no depth
    reaches either), [walkDown] mentions exactly what the service
    transitively depends on. *)
Theorem walkDown_unbounded_complete (serviceId : string)
    (serviceMap : gmap string Service) (maxDepth : number) :
  maxDepth = PosInfinity ∨ maxDepth = NaN →
  ∃ forest, walkDown serviceId serviceMap maxDepth = Some forest
            ∧ ∀ x, x ∈ forest_ids forest ↔ tc (depends serviceMap) serviceId x.
Proof.
  intros Hmax.
  assert (∀ d, geq d maxDepth = false) as Hinf by (by destruct Hmax as [-> | ->]).
  destruct (walkDown_total serviceId serviceMap maxDepth) as [forest Hrun].
  exists forest. split; [done|]. unfold walkDown in Hrun.
  destruct (walkDown_from _ serviceId serviceMap maxDepth ∅ 0) as [[f v]|] eqn:E;
    simpl in Hrun; [|done].
  injection Hrun as <-. intros x. split; [by eapply walkDown_from_reach|].
  destruct (walkDown_from_closed _ _ _ _ _ _ _ _ Hinf E) as (_ & Hi & Hcl).
  apply (closed_reach _ v); [|done]. intros a Ha. apply Hcl; [done|]. set_solver.
Qed.

Lemma walkDown_unbounded_complete_witness :
  ∃ forest, walkDown "gw" (serviceMap_of sample) PosInfinity = Some forest
            ∧ ∀ x, x ∈ forest_ids forest ↔ tc (depends (serviceMap_of sample)) "gw" x.
Proof. apply (walkDown_unbounded_complete "gw" (serviceMap_of sample) PosInfinity). by left. Defined.

(** *** Upstream *)

Lemma walkUp_from_reach fuel i rev maxDepth v d forest v' :
  walkUp_from fuel i rev maxDepth v d = Some (forest, v') →
  ∀ z, z ∈ forest_ids forest → tc (dependent_in rev) i z.
Proof.
  revert i v d forest v'. induction fuel as [|fuel IH]; intros i v d forest v' Hw; [done|].
  destruct (geq d maxDepth) eqn:Hd.
  { rewrite walkUp_from_stop in Hw by by left. injection Hw as <- <-.
    by intros z ?%elem_of_nil. }
  destruct (decide (i ∈ v)) as [Hv|Hv].
  { rewrite walkUp_from_stop in Hw by by right. injection Hw as <- <-.
    by intros z ?%elem_of_nil. }
  rewrite walkUp_from_expand in Hw by done.
  eapply (map_st_reach (dependent_in rev) (fun e => svc_id (rev_service e)));
    [| |exact Hw].
  - intros e v0 y v1 _ He. cbv beta in He.
    destruct (walkUp_from fuel (svc_id (rev_service e)) rev maxDepth v0 (d + 1))
      as [[ch v2]|] eqn:E; simpl in He; [|done].
    injection He as <- <-. simpl. split; [done|]. by eapply IH.
  - intros e He. by exists e.
Qed.

Lemma walkUp_from_closed fuel i rev maxDepth v d forest v' :
  (∀ d, geq d maxDepth = false) →
  walkUp_from fuel i rev maxDepth v d = Some (forest, v') →
  v ⊆ v' ∧ i ∈ v'
  ∧ ∀ a, a ∈ v' → a ∉ v → ∀ z, dependent_in rev a z → z ∈ v' ∧ z ∈ forest_ids forest.
Proof.
  intros Hinf. revert i v d forest v'.
  induction fuel as [|fuel IH]; intros i v d forest v' Hw; [done|].
  destruct (decide (i ∈ v)) as [Hv|Hv].
  { rewrite walkUp_from_stop in Hw by by right. injection Hw as <- <-. done. }
  rewrite walkUp_from_expand in Hw by done.
  apply (map_st_closed (dependent_in rev) (fun e => svc_id (rev_service e))) in Hw
    as (Hsub & Hkeys & Hcl).
  - split_and!.
    + clear -Hsub. set_solver.
    + clear -Hsub. set_solver.
    + intros a Ha Hna z Hz. destruct (decide (a = i)) as [->|Hne].
      * destruct Hz as (e & He & <-). by apply Hkeys.
      * apply (Hcl a Ha); [|done]. clear -Hna Hne. set_solver.
  - intros e v0 y v1 _ He. cbv beta in He.
    destruct (walkUp_from fuel (svc_id (rev_service e)) rev maxDepth v0 (d + 1))
      as [[ch v2]|] eqn:E; simpl in He; [|done].
    injection He as <- <-. simpl.
    destruct (IH _ _ _ _ _ E) as (? & ? & ?). done.
Qed.

(** In the reverse index of a catalog, the dependents of an id are the
    ids of the services that list it. *)
Lemma dependent_in_index (services : list Service) (a b : string) :
  dependent_in (buildReverseIndex services) a b ↔ depends_in services b a.
Proof.
  unfold dependent_in, depends_in. rewrite buildReverseIndex_entries. split.
  - intros (e & (S & D & HS & HD & -> & ->)%elem_of_entries_for%elem_of_edges & <-).
    exists S. split; [done|]. split; [done|]. apply dep_ids_elem. by exists D.
  - intros (s & Hs & <- & (D & HD & <-)%dep_ids_elem).
    exists (mkRevEntry s (dep_api D) (dep_description D)). split; [|done].
    apply elem_of_entries_for, elem_of_edges. by exists s, D.
Qed.

Lemma tc_dependent_in_index (services : list Service) (a b : string) :
  tc (dependent_in (buildReverseIndex services)) a b ↔ tc (depends_in services) b a.
Proof.
  split.
  - induction 1 as [x y Hxy|x y z Hxy _ IH].
    + by apply tc_once, dependent_in_index.
    + eapply tc_r; [exact IH|]. by apply dependent_in_index.
  - induction 1 as [x y Hxy|x y z Hxy _ IH].
    + by apply tc_once, dependent_in_index.
    + eapply tc_r; [exact IH|]. by apply dependent_in_index.
Qed.

(** X25. Over the reverse index of a catalog, [walkUp] mentions only
    ids of services that transitively depend on the given id, and
    without a depth limit it mentions all of them. *)
Theorem walkUp_dependents (serviceId : string) (services : list Service)
    (maxDepth : number) :
  ∃ forest, walkUp serviceId (buildReverseIndex services) maxDepth = Some forest
            ∧ (∀ x, x ∈ forest_ids forest → tc (depends_in services) x serviceId)
            ∧ (maxDepth = PosInfinity ∨ maxDepth = NaN →
               ∀ x, tc (depends_in services) x serviceId → x ∈ forest_ids forest).
Proof.
  destruct (walkUp_total serviceId (buildReverseIndex services) maxDepth) as [forest Hrun].
  exists forest. split; [done|]. unfold walkUp in Hrun.
  destruct (walkUp_from _ serviceId (buildReverseIndex services) maxDepth ∅ 0)
    as [[f v]|] eqn:E; simpl in Hrun; [|done].
  injection Hrun as <-. split.
  - intros x Hx. apply tc_dependent_in_index. by eapply walkUp_from_reach.
  - intros Hmax x Hx%tc_dependent_in_index.
    assert (∀ d, geq d maxDepth = false) as Hinf by (by destruct Hmax as [-> | ->]).
    destruct (walkUp_from_closed _ _ _ _ _ _ _ _ Hinf E) as (_ & Hi & Hcl).
    apply (closed_reach (dependent_in (buildReverseIndex services)) v _ serviceId);
      [|done|done].
    intros a Ha. apply Hcl; [done|]. set_solver.
Qed.
(** ** The diamond *)

(** A call that goes past the depth guard leaves its id marked. *)
Lemma walkDown_from_marks fuel i m maxDepth v d forest v' :
  geq d maxDepth = false →
  walkDown_from fuel i m maxDepth v d = Some (forest, v') → i ∈ v'.
Proof.
  intros Hd Hw. destruct fuel as [|fuel]; [done|].
  destruct (decide (i ∈ v)) as [Hv|Hv].
  { rewrite walkDown_from_stop in Hw by by right. by injection Hw as <- <-. }
  destruct (m !! i) as [s|] eqn:Hs.
  2:{ rewrite walkDown_from_absent in Hw by done. injection Hw as <- <-.
      apply elem_of_union_l. by apply elem_of_singleton. }
  rewrite (walkDown_from_expand _ _ _ _ _ _ s) in Hw by done.
  apply (map_st_inv (fun s => i ∈ s) (fun _ => True)) in Hw as [_ ?]; [done| |].
  - intros dep v0 y v1 _ Hin Hdep. split; [done|]. cbv beta in Hdep.
    destruct (walkDown_from fuel (dep_service dep) m maxDepth v0 (d + 1)) as [[ch v2]|] eqn:E;
      simpl in Hdep; [|done].
    injection Hdep as <- <-. by apply (walkDown_from_visited _ _ _ _ _ _ _ _ E).
  - apply elem_of_union_l. by apply elem_of_singleton.
Qed.

Lemma walkUp_from_marks fuel i rev maxDepth v d forest v' :
  geq d maxDepth = false →
  walkUp_from fuel i rev maxDepth v d = Some (forest, v') → i ∈ v'.
Proof.
  intros Hd Hw. destruct fuel as [|fuel]; [done|].
  destruct (decide (i ∈ v)) as [Hv|Hv].
  { rewrite walkUp_from_stop in Hw by by right. by injection Hw as <- <-. }
  rewrite walkUp_from_expand in Hw by done.
  apply (map_st_inv (fun s => i ∈ s) (fun _ => True)) in Hw as [_ ?]; [done| |].
  - intros e v0 y v1 _ Hin He. split; [done|]. cbv beta in He.
    destruct (walkUp_from fuel (svc_id (rev_service e)) rev maxDepth v0 (d + 1))
      as [[ch v2]|] eqn:E; simpl in He; [|done].
    injection He as <- <-. by apply (walkUp_from_visited _ _ _ _ _ _ _ _ E).
  - apply elem_of_union_l. by apply elem_of_singleton.
Qed.

(** What a call marks is its id or reached from it. *)
Lemma walkDown_from_marked fuel i m maxDepth v d forest v' :
  walkDown_from fuel i m maxDepth v d = Some (forest, v') →
  ∀ x, x ∈ v' → x ∈ v ∨ x = i ∨ tc (depends m) i x.
Proof.
  revert i v d forest v'. induction fuel as [|fuel IH]; intros i v d forest v' Hw; [done|].
  destruct (geq d maxDepth) eqn:Hd.
  { rewrite walkDown_from_stop in Hw by by left. injection Hw as <- <-. auto. }
  destruct (decide (i ∈ v)) as [Hv|Hv].
  { rewrite walkDown_from_stop in Hw by by right. injection Hw as <- <-. auto. }
  destruct (m !! i) as [s|] eqn:Hs.
  2:{ rewrite walkDown_from_absent in Hw by done. injection Hw as <- <-.
      intros x [->%elem_of_singleton|Hx]%elem_of_union; auto. }
  rewrite (walkDown_from_expand _ _ _ _ _ _ s) in Hw by done.
  apply (map_st_inv (fun s' => ∀ x, x ∈ s' → x ∈ v ∨ x = i ∨ tc (depends m) i x)
           (fun _ => True)) in Hw as [_ ?]; [done| |].
  - intros dep v0 y v1 Hin Hv0 Hdep. split; [done|]. cbv beta in Hdep.
    destruct (walkDown_from fuel (dep_service dep) m maxDepth v0 (d + 1)) as [[ch v2]|] eqn:E;
      simpl in Hdep; [|done].
    injection Hdep as <- <-. intros x Hx.
    assert (depends m i (dep_service dep)) as Hedge.
    { exists s. split; [done|]. apply dep_ids_elem. by exists dep. }
    destruct (IH _ _ _ _ _ E x Hx) as [Hx0|[->|Hreach]].
    + by apply Hv0.
    + right. right. by apply tc_once.
    + right. right. by eapply tc_l.
  - intros x [->%elem_of_singleton|Hx]%elem_of_union; auto.
Qed.

Lemma walkUp_from_marked fuel i rev maxDepth v d forest v' :
  walkUp_from fuel i rev maxDepth v d = Some (forest, v') →
  ∀ x, x ∈ v' → x ∈ v ∨ x = i ∨ tc (dependent_in rev) i x.
Proof.
  revert i v d forest v'. induction fuel as [|fuel IH]; intros i v d forest v' Hw; [done|].
  destruct (geq d maxDepth) eqn:Hd.
  { rewrite walkUp_from_stop in Hw by by left. injection Hw as <- <-. auto. }
  destruct (decide (i ∈ v)) as [Hv|Hv].
  { rewrite walkUp_from_stop in Hw by by right. injection Hw as <- <-. auto. }
  rewrite walkUp_from_expand in Hw by done.
  apply (map_st_inv (fun s' => ∀ x, x ∈ s' → x ∈ v ∨ x = i ∨ tc (dependent_in rev) i x)
           (fun _ => True)) in Hw as [_ ?]; [done| |].
  - intros e v0 y v1 Hin Hv0 He. split; [done|]. cbv beta in He.
    destruct (walkUp_from fuel (svc_id (rev_service e)) rev maxDepth v0 (d + 1))
      as [[ch v2]|] eqn:E; simpl in He; [|done].
    injection He as <- <-. intros x Hx.
    assert (dependent_in rev i (svc_id (rev_service e))) as Hedge by by exists e.
    destruct (IH _ _ _ _ _ E x Hx) as [Hx0|[->|Hreach]].
    + by apply Hv0.
    + right. right. by apply tc_once.
    + right. right. by eapply tc_l.
  - intros x [->%elem_of_singleton|Hx]%elem_of_union; auto.
Qed.

(** The diamond below [a] in a service map: [a] depends on [b] and
    [c], in this order, each of them on [d] alone, and [d] does not
    lead back to [c].  The [d] under [b] carries the forest of [d], the
    [d] under [c] nothing. *)
Lemma walkDown_diamond (m : gmap string Service) maxDepth a b c d A B C e1 e2 f g :
  NoDup [a; b; c; d] →
  m !! a = Some A → deps_of A = [e1; e2] → dep_service e1 = b → dep_service e2 = c →
  m !! b = Some B → deps_of B = [f] → dep_service f = d →
  m !! c = Some C → deps_of C = [g] → dep_service g = d →
  ¬ tc (depends m) d c →
  geq 1 maxDepth = false →
  ∃ sub,
    walkDown a m maxDepth
    = Some [mkDepNode b (svc_name B) (dep_api e1) (dep_description e1)
              [mkDepNode d (default d (svc_name <$> m !! d)) (dep_api f) (dep_description f)
                 sub];
            mkDepNode c (svc_name C) (dep_api e2) (dep_description e2)
              [mkDepNode d (default d (svc_name <$> m !! d)) (dep_api g) (dep_description g)
                 []]]
    ∧ (∀ x, x ∈ forest_ids sub → tc (depends m) d x)
    ∧ (geq 2 maxDepth = false →
       ∀ D, m !! d = Some D → node_label <$> sub = dep_label m <$> deps_of D).
Proof.
  intros Hnd Ha HA <- <- Hb HB <- Hc HC Hg Hback H1.
  pose proof (geq_1_0 _ H1) as H0.
  apply distinct4 in Hnd as (Hab & Hac & Had & Hbc & Hbd & Hcd).
  destruct (walkDown_from_total (S (size m)) (dep_service f) m maxDepth
              ({[dep_service e1]} ∪ ({[a]} ∪ ∅)) (0 + 1 + 1)) as (sub & v2 & Hsub).
  { rewrite <-size_dom. apply size_unmarked. }
  assert (dep_service e2 ∉ v2) as Hc2.
  { intros Hin. destruct (walkDown_from_marked _ _ _ _ _ _ _ _ Hsub _ Hin) as [Hv|[Heq|Hreach]].
    - clear -Hv Hac Hbc. set_solver.
    - done.
    - done. }
  exists sub. split_and!.
  - apply (walkDown_run (S (S (S (size m)))) _ _ _ _ ({[dep_service e2]} ∪ v2)).
    rewrite (walkDown_from_expand _ _ _ _ _ _ A), HA by (done || set_solver).
    cbn [map_st].
    rewrite (walkDown_from_expand _ _ _ _ _ _ B), HB by (done || set_solver).
    cbn [map_st]. rewrite Hsub.
    cbn [mbind option_bind map_st].
    rewrite (walkDown_from_expand _ _ _ _ _ _ C), HC by done.
    cbn [map_st]. rewrite Hg.
    rewrite walkDown_from_stop.
    + cbn [mbind option_bind map_st]. by rewrite Hb, Hc.
    + destruct (geq (0 + 1 + 1) maxDepth) eqn:H2; [by left|right].
      apply elem_of_union_r. by eapply walkDown_from_marks.
  - intros x Hx. by eapply walkDown_from_reach.
  - intros H2 D HD. eapply walkDown_from_roots; [exact H2| |exact HD|exact Hsub].
    clear -Had Hbd. set_solver.
Qed.

(** The same diamond seen from [d] in a reverse index: [b] and [c], in
    this order, are the dependents of [d], [a] is the only dependent of
    each, and [a] does not lead up to [c]. *)
Lemma walkUp_diamond (rev : gmap string (list RevEntry)) maxDepth a b c d eB eC eA1 eA2 :
  NoDup [a; b; c; d] →
  rev !! d = Some [eB; eC] → svc_id (rev_service eB) = b → svc_id (rev_service eC) = c →
  rev !! b = Some [eA1] → svc_id (rev_service eA1) = a →
  rev !! c = Some [eA2] → svc_id (rev_service eA2) = a →
  ¬ tc (dependent_in rev) a c →
  geq 1 maxDepth = false →
  ∃ sub,
    walkUp d rev maxDepth
    = Some [mkDepNode b (svc_name (rev_service eB)) (rev_api eB) (rev_description eB)
              [mkDepNode a (svc_name (rev_service eA1)) (rev_api eA1) (rev_description eA1)
                 sub];
            mkDepNode c (svc_name (rev_service eC)) (rev_api eC) (rev_description eC)
              [mkDepNode a (svc_name (rev_service eA2)) (rev_api eA2) (rev_description eA2)
                 []]]
    ∧ (∀ x, x ∈ forest_ids sub → tc (dependent_in rev) a x)
    ∧ (geq 2 maxDepth = false → node_label <$> sub = entry_label <$> default [] (rev !! a)).
Proof.
  intros Hnd Hd <- <- Hb Ha1 Hc Ha2 Hback H1.
  pose proof (geq_1_0 _ H1) as H0.
  apply distinct4 in Hnd as (Hab & Hac & Had & Hbc & Hbd & Hcd).
  destruct (walkUp_from_total (S (size rev)) a rev maxDepth
              ({[svc_id (rev_service eB)]} ∪ ({[d]} ∪ ∅)) (0 + 1 + 1)) as (sub & v2 & Hsub).
  { rewrite <-size_dom. apply size_unmarked. }
  assert (svc_id (rev_service eC) ∉ v2) as Hc2.
  { intros Hin. destruct (walkUp_from_marked _ _ _ _ _ _ _ _ Hsub _ Hin) as [Hv|[Heq|Hreach]].
    - clear -Hv Hcd Hbc. set_solver.
    - by apply Hac.
    - done. }
  exists sub. split_and!.
  - apply (walkUp_run (S (S (S (size rev)))) _ _ _ _ ({[svc_id (rev_service eC)]} ∪ v2)).
    rewrite walkUp_from_expand, Hd by (done || set_solver).
    cbn [default from_option id map_st].
    rewrite walkUp_from_expand, Hb by (done || set_solver).
    cbn [default from_option id map_st]. rewrite Ha1, Hsub.
    cbn [mbind option_bind map_st].
    rewrite walkUp_from_expand, Hc by done.
    cbn [default from_option id map_st]. rewrite Ha2.
    rewrite walkUp_from_stop.
    + cbn [mbind option_bind map_st]. done.
    + destruct (geq (0 + 1 + 1) maxDepth) eqn:H2; [by left|right].
      apply elem_of_union_r. by eapply walkUp_from_marks.
  - intros x Hx. by eapply walkUp_from_reach.
  - intros H2. eapply walkUp_from_roots; [exact H2| |exact Hsub].
    clear -Had Hab. set_solver.
Qed.

(** *** The diamond in a catalog *)

Lemma dep_ids_one (s : Service) (x : string) :
  dep_ids s = [x] → ∃ f, deps_of s = [f] ∧ dep_service f = x.
Proof.
  unfold dep_ids. destruct (deps_of s) as [|f [|f' l]]; [done| |done].
  intros [= <-]. by exists f.
Qed.

Lemma dep_ids_two (s : Service) (x y : string) :
  dep_ids s = [x; y] →
  ∃ e1 e2, deps_of s = [e1; e2] ∧ dep_service e1 = x ∧ dep_service e2 = y.
Proof.
  unfold dep_ids. destruct (deps_of s) as [|e1 [|e2 [|e3 l]]]; [done|done| |done].
  intros [= <- <-]. by exists e1, e2.
Qed.

(** With distinct ids the map and the array have the same edges. *)
Lemma depends_in_map (services : list Service) (a b : string) :
  NoDup (svc_id <$> services) →
  depends_in services a b → depends (serviceMap_of services) a b.
Proof.
  intros Hnd (s & Hs & <- & Hb). exists s. split; [|done]. by apply serviceMap_of_unique.
Qed.

Lemma tc_depends_in_map (services : list Service) (a b : string) :
  NoDup (svc_id <$> services) →
  tc (depends_in services) a b → tc (depends (serviceMap_of services)) a b.
Proof.
  intros Hnd. induction 1 as [x y Hxy|x y z Hxy _ IH].
  - by apply tc_once, depends_in_map.
  - eapply tc_l; [by apply depends_in_map|done].
Qed.

Lemma filter_eq_NoDup {A : Type} `{EqDecision A} (l : list A) (x : A) :
  NoDup l → x ∈ l → filter (fun y => y = x) l = [x].
Proof.
  induction 1 as [|y l Hy Hnd IH]; [by intros ?%elem_of_nil|].
  rewrite filter_cons. intros [->|Hx]%elem_of_cons.
  - rewrite decide_True by done. f_equal.
    apply filter_nil_Forall, Forall_forall. by intros z Hz ->.
  - rewrite decide_False by (by intros ->). by apply IH.
Qed.

Lemma filter_pair_NoDup {A : Type} `{EqDecision A} (l : list A) (x y : A) :
  NoDup l → x ∈ l → y ∈ l → x ≠ y →
  filter (fun z => z = x ∨ z = y) l = [x; y] ∨ filter (fun z => z = x ∨ z = y) l = [y; x].
Proof.
  intros Hnd Hx Hy Hne. induction Hnd as [|z l Hz Hnd IH]; [by apply elem_of_nil in Hx|].
  rewrite filter_cons.
  apply elem_of_cons in Hx as [->|Hx]; apply elem_of_cons in Hy as [->|Hy]; [done| | |].
  - left. rewrite decide_True by by left. f_equal.
    rewrite <-(filter_eq_NoDup l y Hnd Hy). apply filter_ext_in.
    intros w Hin. split; [|by right]. intros [->|?]; done.
  - right. rewrite decide_True by by right. f_equal.
    rewrite <-(filter_eq_NoDup l x Hnd Hx). apply filter_ext_in.
    intros w Hin. split; [|by left]. intros [?| ->]; done.
  - rewrite decide_False; [by apply IH|]. intros [->| ->]; done.
Qed.

Lemma bind_filter_support {A B : Type} (P : A → Prop) `{∀ x, Decision (P x)}
    (f : A → list B) (l : list A) :
  (∀ x, x ∈ l → ¬ P x → f x = []) → l ≫= f = filter P l ≫= f.
Proof.
  induction l as [|x l IH]; intros Hf; [done|].
  rewrite filter_cons, bind_cons, IH by (intros y Hy; apply Hf; by right).
  case_decide as HP; [by rewrite bind_cons|]. by rewrite (Hf x) by (done || left).
Qed.

Lemma NoDup_services (services : list Service) :
  NoDup (svc_id <$> services) → NoDup services.
Proof. apply NoDup_fmap_1. Qed.

(** The entries of the reverse index at an id, from the services that
    list it. *)
Lemma entries_for_nil (i : string) (s : Service) :
  i ∉ dep_ids s → entries_for i (edges_of s) = [].
Proof.
  intros Hno. destruct (entries_for i (edges_of s)) as [|e es] eqn:E; [done|].
  exfalso. apply Hno.
  assert (e ∈ entries_for i (edges_of s)) as He by (rewrite E; left).
  apply elem_of_entries_for, list_elem_of_fmap in He as (dep & [= -> ->] & Hd).
  apply dep_ids_elem. by exists dep.
Qed.

Lemma entries_for_listing (i : string) (services : list Service) :
  entries_for i (edges services)
  = filter (fun s => i ∈ dep_ids s) services ≫= (fun s => entries_for i (edges_of s)).
Proof.
  rewrite entries_for_edges. apply bind_filter_support.
  intros s _. apply entries_for_nil.
Qed.

Lemma buildReverseIndex_Some (services : list Service) (i : string) (es : list RevEntry) :
  es ≠ [] → entries_for i (edges services) = es → buildReverseIndex services !! i = Some es.
Proof.
  intros Hne <-. rewrite buildReverseIndex_lookup. by rewrite decide_False.
Qed.

(** How often the shared id occurs in the forest of a diamond. *)
Lemma occurrences_shared (x : string) (forest sub : list DepNode) :
  shared_under_both x forest sub →
  (∀ n, n ∈ forest → node_id n ≠ x) → x ∉ forest_ids sub →
  occurrences x forest = 2%nat.
Proof.
  intros (first & second & s1 & s2 & -> & H1 & H2 & Hs1 & Hs2 & Hsub & Hleaf) Hroots Hno.
  unfold occurrences.
  assert (forest_nodes [first; second] = [first; s1] ++ forest_nodes sub ++ [second; s2])
    as ->.
  { rewrite !forest_nodes_cons, H1, H2, !forest_nodes_cons, Hsub, Hleaf.
    change (forest_nodes []) with (@nil DepNode). simpl. by rewrite !app_nil_r. }
  assert (filter (fun n => node_id n = x) (forest_nodes sub) = []) as Hnone.
  { apply filter_nil_Forall, Forall_forall. intros n Hn Hx. apply Hno.
    unfold forest_ids. apply list_elem_of_fmap. by exists n. }
  rewrite !filter_app, Hnone, !filter_cons, filter_nil.
  rewrite (decide_False (P:=node_id first = x)) by (apply Hroots; left).
  rewrite (decide_False (P:=node_id second = x)) by (apply Hroots; right; left).
  by rewrite !decide_True by done.
Qed.

Lemma NoDup4 (a b c d : string) :
  a ≠ b → a ≠ c → a ≠ d → b ≠ c → b ≠ d → c ≠ d → NoDup [a; b; c; d].
Proof.
  intros Hab Hac Had Hbc Hbd Hcd. rewrite !NoDup_cons, !not_elem_of_cons.
  split_and!; try done; try apply not_elem_of_nil. constructor.
Qed.

Lemma walkDown_diamond_shared (m : gmap string Service) maxDepth a b c d A B C e1 e2 f g :
  NoDup [a; b; c; d] →
  m !! a = Some A → deps_of A = [e1; e2] → dep_service e1 = b → dep_service e2 = c →
  m !! b = Some B → deps_of B = [f] → dep_service f = d →
  m !! c = Some C → deps_of C = [g] → dep_service g = d →
  ¬ tc (depends m) d c → ¬ tc (depends m) d d →
  geq 1 maxDepth = false →
  ∃ down sub,
    walkDown a m maxDepth = Some down
    ∧ node_id <$> down = [b; c]
    ∧ shared_under_both d down sub
    ∧ occurrences d down = 2%nat
    ∧ (geq 2 maxDepth = false →
       ∀ D, m !! d = Some D → node_label <$> sub = dep_label m <$> deps_of D).
Proof.
  intros Hnd Ha HA He1 He2 Hb HB Hf Hc HC Hg Hback Hself H1.
  destruct (walkDown_diamond m maxDepth a b c d A B C e1 e2 f g)
    as (sub & Hrun & Hreach & Hroots); try done.
  apply distinct4 in Hnd as (Hab & Hac & Had & Hbc & Hbd & Hcd).
  eexists _, sub. split; [exact Hrun|].
  assert (shared_under_both d
            [mkDepNode b (svc_name B) (dep_api e1) (dep_description e1)
               [mkDepNode d (default d (svc_name <$> m !! d)) (dep_api f) (dep_description f)
                  sub];
             mkDepNode c (svc_name C) (dep_api e2) (dep_description e2)
               [mkDepNode d (default d (svc_name <$> m !! d)) (dep_api g) (dep_description g)
                  []]] sub) as Hshape.
  { eexists _, _, _, _. split_and!; reflexivity. }
  split_and!; [done|done| |done].
  apply (occurrences_shared _ _ sub Hshape).
  - intros n [->|[->|[]%elem_of_nil]%elem_of_cons]%elem_of_cons; done.
  - intros Hin. by apply Hself, Hreach.
Qed.

Lemma walkUp_diamond_shared (rev : gmap string (list RevEntry)) maxDepth a b c d
    eB eC eA1 eA2 :
  NoDup [a; b; c; d] →
  rev !! d = Some [eB; eC] → svc_id (rev_service eB) = b → svc_id (rev_service eC) = c →
  rev !! b = Some [eA1] → svc_id (rev_service eA1) = a →
  rev !! c = Some [eA2] → svc_id (rev_service eA2) = a →
  ¬ tc (dependent_in rev) a c → ¬ tc (dependent_in rev) a a →
  geq 1 maxDepth = false →
  ∃ up sub,
    walkUp d rev maxDepth = Some up
    ∧ node_id <$> up = [b; c]
    ∧ shared_under_both a up sub
    ∧ occurrences a up = 2%nat
    ∧ (geq 2 maxDepth = false → node_label <$> sub = entry_label <$> default [] (rev !! a)).
Proof.
  intros Hnd Hd HeB HeC Hb Ha1 Hc Ha2 Hback Hself H1.
  destruct (walkUp_diamond rev maxDepth a b c d eB eC eA1 eA2)
    as (sub & Hrun & Hreach & Hroots); try done.
  apply distinct4 in Hnd as (Hab & Hac & Had & Hbc & Hbd & Hcd).
  eexists _, sub. split; [exact Hrun|].
  assert (shared_under_both a
            [mkDepNode b (svc_name (rev_service eB)) (rev_api eB) (rev_description eB)
               [mkDepNode a (svc_name (rev_service eA1)) (rev_api eA1)
                  (rev_description eA1) sub];
             mkDepNode c (svc_name (rev_service eC)) (rev_api eC) (rev_description eC)
               [mkDepNode a (svc_name (rev_service eA2)) (rev_api eA2)
                  (rev_description eA2) []]] sub) as Hshape.
  { eexists _, _, _, _. split_and!; reflexivity. }
  split_and!; [done|done| |done].
  apply (occurrences_shared _ _ sub Hshape).
  - intros n [->|[->|[]%elem_of_nil]%elem_of_cons]%elem_of_cons; simpl; congruence.
  - intros Hin. by apply Hself, Hreach.
Qed.

Lemma entries_for_single (s : Service) (f : Dependency) (x : string) :
  deps_of s = [f] → dep_service f = x →
  entries_for x (edges_of s) = [mkRevEntry s (dep_api f) (dep_description f)].
Proof.
  intros Hs Hf. unfold edges_of. rewrite Hs. simpl.
  rewrite entries_for_cons. simpl. by rewrite decide_True.
Qed.

Lemma entries_for_pair (s : Service) (e1 e2 : Dependency) :
  deps_of s = [e1; e2] → dep_service e1 ≠ dep_service e2 →
  entries_for (dep_service e1) (edges_of s)
  = [mkRevEntry s (dep_api e1) (dep_description e1)]
  ∧ entries_for (dep_service e2) (edges_of s)
    = [mkRevEntry s (dep_api e2) (dep_description e2)].
Proof.
  intros Hs Hne. unfold edges_of. rewrite Hs. simpl.
  rewrite !entries_for_cons. simpl.
  rewrite (decide_True (P:=dep_service e1 = dep_service e1)) by done.
  rewrite (decide_True (P:=dep_service e2 = dep_service e2)) by done.
  rewrite (decide_False (P:=dep_service e2 = dep_service e1)) by done.
  by rewrite (decide_False (P:=dep_service e1 = dep_service e2)) by done.
Qed.

Lemma buildReverseIndex_listing (services : list Service) (i : string)
    (l : list Service) (es : list RevEntry) :
  filter (fun s => i ∈ dep_ids s) services = l →
  l ≫= (fun s => entries_for i (edges_of s)) = es → es ≠ [] →
  buildReverseIndex services !! i = Some es.
Proof.
  intros Hl Hes Hne. apply buildReverseIndex_Some; [done|].
  by rewrite entries_for_listing, Hl.
Qed.

(** The part of the diamond above the shared service, for the two
    middle services [P] and [Q] in the order of the array. *)
Lemma walkUp_diamond_catalog (services : list Service) (A P Q D : Service)
    (eP eQ eA1 eA2 : RevEntry) (maxDepth : number) :
  NoDup (svc_id <$> services) →
  ¬ tc (depends (serviceMap_of services)) (svc_id A) (svc_id A) →
  NoDup [svc_id A; svc_id P; svc_id Q; svc_id D] →
  depends (serviceMap_of services) (svc_id A) (svc_id Q) →
  filter (fun s => svc_id D ∈ dep_ids s) services = [P; Q] →
  filter (fun s => svc_id P ∈ dep_ids s) services = [A] →
  filter (fun s => svc_id Q ∈ dep_ids s) services = [A] →
  entries_for (svc_id D) (edges_of P) = [eP] → rev_service eP = P →
  entries_for (svc_id D) (edges_of Q) = [eQ] → rev_service eQ = Q →
  entries_for (svc_id P) (edges_of A) = [eA1] → rev_service eA1 = A →
  entries_for (svc_id Q) (edges_of A) = [eA2] → rev_service eA2 = A →
  geq 1 maxDepth = false →
  ∃ up sub,
    walkUp (svc_id D) (buildReverseIndex services) maxDepth = Some up
    ∧ node_id <$> up = [svc_id P; svc_id Q]
    ∧ shared_under_both (svc_id A) up sub
    ∧ occurrences (svc_id A) up = 2%nat
    ∧ (geq 2 maxDepth = false →
       node_label <$> sub = entry_label <$> entries_for (svc_id A) (edges services)).
Proof.
  intros Hnd Hacyc Hids HAQ HfD HfP HfQ HeP HsP HeQ HsQ HeA1 HsA1 HeA2 HsA2 H1.
  assert (∀ x, tc (dependent_in (buildReverseIndex services)) (svc_id A) x →
               tc (depends (serviceMap_of services)) x (svc_id A)) as Hup.
  { intros x Hx. by apply tc_depends_in_map, tc_dependent_in_index. }
  rewrite <-buildReverseIndex_entries.
  apply (walkUp_diamond_shared _ _ _ _ _ _ eP eQ eA1 eA2); try done.
  - apply (buildReverseIndex_listing _ _ [P; Q]); [done| |done].
    rewrite !bind_cons, HeP, HeQ. done.
  - by rewrite HsP.
  - by rewrite HsQ.
  - apply (buildReverseIndex_listing _ _ [A]); [done| |done].
    rewrite !bind_cons, HeA1. done.
  - by rewrite HsA1.
  - apply (buildReverseIndex_listing _ _ [A]); [done| |done].
    rewrite !bind_cons, HeA2. done.
  - by rewrite HsA2.
  - intros Hback%Hup. apply Hacyc. by eapply tc_l.
  - intros Hself%Hup. by apply Hacyc.
Qed.

(** C1, as the code has it. Take services with distinct ids and no
    dependency cycle, stored in any order, among them a diamond: A
    depends on B and C, in this order, and B and C each on D alone.
    With a depth limit above 1, [walkDown] from A has the roots B and
    C, each with D as its only child, so D occurs twice; the D under B
    carries the dependencies of D when the limit is above 2, the D
    under C, reached second, has no children.  Symmetrically, when B
    and C are the only services that depend on D, and A the only one
    that depends on B or on C, [walkUp] from D has B and C as roots, in
    the order of the array, each with A as its only child; the A under
    the first root carries the dependents of A, the other nothing. *)
Theorem C1_diamond_shared_node_under_both_parents
    (services : list Service) (A B C D : Service) (maxDepth : number) :
  NoDup (svc_id <$> services) →
  (∀ x, x ∈ [svc_id A; svc_id B; svc_id C; svc_id D] →
        ¬ tc (depends (serviceMap_of services)) x x) →
  A ∈ services → B ∈ services → C ∈ services → D ∈ services →
  svc_id B ≠ svc_id C →
  dep_ids A = [svc_id B; svc_id C] → dep_ids B = [svc_id D] → dep_ids C = [svc_id D] →
  geq 1 maxDepth = false →
  (∃ down sub,
     walkDown (svc_id A) (serviceMap_of services) maxDepth = Some down
     ∧ node_id <$> down = [svc_id B; svc_id C]
     ∧ shared_under_both (svc_id D) down sub
     ∧ occurrences (svc_id D) down = 2%nat
     ∧ (geq 2 maxDepth = false →
        node_label <$> sub = dep_label (serviceMap_of services) <$> deps_of D))
  ∧ ((∀ s, s ∈ services → svc_id D ∈ dep_ids s → s = B ∨ s = C) →
     (∀ s, s ∈ services → svc_id B ∈ dep_ids s ∨ svc_id C ∈ dep_ids s → s = A) →
     ∃ up sub,
       walkUp (svc_id D) (buildReverseIndex services) maxDepth = Some up
       ∧ node_id <$> up = svc_id <$> filter (fun s => s = B ∨ s = C) services
       ∧ shared_under_both (svc_id A) up sub
       ∧ occurrences (svc_id A) up = 2%nat
       ∧ (geq 2 maxDepth = false →
          node_label <$> sub = entry_label <$> entries_for (svc_id A) (edges services))).
Proof.
  intros Hnd Hfour HA HB HC HD Hbc HdA HdB HdC H1.
  assert (¬ tc (depends (serviceMap_of services)) (svc_id A) (svc_id A)) as HcA
    by (apply Hfour; in_list).
  assert (¬ tc (depends (serviceMap_of services)) (svc_id B) (svc_id B)) as HcB
    by (apply Hfour; in_list).
  assert (¬ tc (depends (serviceMap_of services)) (svc_id C) (svc_id C)) as HcC
    by (apply Hfour; in_list).
  assert (¬ tc (depends (serviceMap_of services)) (svc_id D) (svc_id D)) as HcD
    by (apply Hfour; in_list).
  pose proof (serviceMap_of_unique _ _ Hnd HA) as HmA.
  pose proof (serviceMap_of_unique _ _ Hnd HB) as HmB.
  pose proof (serviceMap_of_unique _ _ Hnd HC) as HmC.
  pose proof (serviceMap_of_unique _ _ Hnd HD) as HmD.
  destruct (dep_ids_two _ _ _ HdA) as (e1 & e2 & HA' & He1 & He2).
  destruct (dep_ids_one _ _ HdB) as (f & HB' & Hf).
  destruct (dep_ids_one _ _ HdC) as (g & HC' & Hg).
  assert (depends (serviceMap_of services) (svc_id A) (svc_id B)) as Eab.
  { exists A. split; [done|]. rewrite HdA. left. }
  assert (depends (serviceMap_of services) (svc_id A) (svc_id C)) as Eac.
  { exists A. split; [done|]. rewrite HdA. right. left. }
  assert (depends (serviceMap_of services) (svc_id B) (svc_id D)) as Ebd.
  { exists B. split; [done|]. rewrite HdB. left. }
  assert (depends (serviceMap_of services) (svc_id C) (svc_id D)) as Ecd.
  { exists C. split; [done|]. rewrite HdC. left. }
  assert (svc_id A ≠ svc_id B) as Hab.
  { intros Heq. apply HcA, tc_once. rewrite <-Heq in Eab. exact Eab. }
  assert (svc_id A ≠ svc_id C) as Hac.
  { intros Heq. apply HcA, tc_once. rewrite <-Heq in Eac. exact Eac. }
  assert (svc_id B ≠ svc_id D) as Hbd.
  { intros Heq. apply HcB, tc_once. rewrite <-Heq in Ebd. exact Ebd. }
  assert (svc_id C ≠ svc_id D) as Hcd.
  { intros Heq. apply HcC, tc_once. rewrite <-Heq in Ecd. exact Ecd. }
  assert (svc_id A ≠ svc_id D) as Had.
  { intros Heq. apply HcA. eapply tc_l; [exact Eab|].
    apply tc_once. rewrite <-Heq in Ebd. exact Ebd. }
  split.
  - destruct (walkDown_diamond_shared (serviceMap_of services) maxDepth
                (svc_id A) (svc_id B) (svc_id C) (svc_id D) A B C e1 e2 f g)
      as (down & sub & Hrun & Hroots & Hshape & Hocc & Hsub); try done.
    + by apply NoDup4.
    + intros Hback. apply HcC. by eapply tc_l.
    + exists down, sub. split_and!; try done. intros H2. by apply Hsub.
  - intros HonlyD HonlyBC.
    pose proof (NoDup_fmap_1 _ _ Hnd) as Hnds.
    assert (B ≠ C) as HBC by (by intros ->).
    assert (filter (fun s => svc_id D ∈ dep_ids s) services
            = filter (fun s => s = B ∨ s = C) services) as HfD.
    { apply filter_ext_in. intros s Hs. split; [by apply HonlyD|].
      intros [-> | ->]; [rewrite HdB|rewrite HdC]; left. }
    assert (filter (fun s => svc_id B ∈ dep_ids s) services = [A]) as HfB.
    { rewrite <-(filter_eq_NoDup services A Hnds HA). apply filter_ext_in.
      intros s Hs. split; [intros ?; apply HonlyBC; auto|].
      intros ->. rewrite HdA. left. }
    assert (filter (fun s => svc_id C ∈ dep_ids s) services = [A]) as HfC.
    { rewrite <-(filter_eq_NoDup services A Hnds HA). apply filter_ext_in.
      intros s Hs. split; [intros ?; apply HonlyBC; auto|].
      intros ->. rewrite HdA. right. left. }
    destruct (entries_for_pair A e1 e2 HA') as [HeA1 HeA2]; [by rewrite He1, He2|].
    rewrite He1 in HeA1. rewrite He2 in HeA2.
    pose proof (entries_for_single B f _ HB' Hf) as HeB.
    pose proof (entries_for_single C g _ HC' Hg) as HeC.
    destruct (filter_pair_NoDup services B C Hnds HB HC HBC) as [Horder|Horder];
      rewrite Horder in HfD |- *.
    + eapply (walkUp_diamond_catalog services A B C D _ _ _ _ maxDepth Hnd HcA);
        [by apply NoDup4|exact Eac|exact HfD|exact HfB|exact HfC
        |exact HeB|reflexivity|exact HeC|reflexivity
        |exact HeA1|reflexivity|exact HeA2|reflexivity|exact H1].
    + eapply (walkUp_diamond_catalog services A C B D _ _ _ _ maxDepth Hnd HcA);
        [apply NoDup4; congruence|exact Eab|exact HfD|exact HfC|exact HfB
        |exact HeC|reflexivity|exact HeB|reflexivity
        |exact HeA2|reflexivity|exact HeA1|reflexivity|exact H1].
Qed.

Lemma C1_diamond_shared_node_under_both_parents_witness :
  let A := mkService "A" "a" None None
             (Some [mkDependency "B" None None; mkDependency "C" None None]) in
  let B := mkService "B" "b" None None (Some [mkDependency "D" None None]) in
  let C := mkService "C" "c" None None (Some [mkDependency "D" None None]) in
  let D := mkService "D" "d" None None (Some [mkDependency "E" None None]) in
  (∃ down sub,
     walkDown "A" (serviceMap_of diamond_with_tail) (Num 10) = Some down
     ∧ node_id <$> down = ["B"; "C"]
     ∧ shared_under_both "D" down sub
     ∧ occurrences "D" down = 2%nat
     ∧ (geq 2 (Num 10) = false →
        node_label <$> sub = dep_label (serviceMap_of diamond_with_tail) <$> deps_of D))
  ∧ ∃ up sub,
      walkUp "D" (buildReverseIndex diamond_with_tail) (Num 10) = Some up
      ∧ node_id <$> up = svc_id <$> filter (fun s => s = B ∨ s = C) diamond_with_tail
      ∧ shared_under_both "A" up sub
      ∧ occurrences "A" up = 2%nat
      ∧ (geq 2 (Num 10) = false →
         node_label <$> sub = entry_label <$> entries_for "A" (edges diamond_with_tail)).
Proof.
  intros A B C D.
  destruct (C1_diamond_shared_node_under_both_parents diamond_with_tail A B C D (Num 10))
    as [Hdown Hup].
  - apply (bool_decide_unpack _). vm_compute. exact I.
  - intros x _. revert x.
    apply (proj1 (findCircularDeps_nil_iff diamond_with_tail)). vm_compute. reflexivity.
  - apply (bool_decide_unpack _). vm_compute. exact I.
  - apply (bool_decide_unpack _). vm_compute. exact I.
  - apply (bool_decide_unpack _). vm_compute. exact I.
  - apply (bool_decide_unpack _). vm_compute. exact I.
  - discriminate.
  - reflexivity.
  - reflexivity.
  - reflexivity.
  - reflexivity.
  - split; [exact Hdown|]. apply Hup.
    + refine (proj1 (Forall_forall _ _) _). apply (bool_decide_unpack _). vm_compute. exact I.
    + refine (proj1 (Forall_forall _ _) _). apply (bool_decide_unpack _). vm_compute. exact I.
Defined.

(** C1, as stated, fails on the diamond: D is not confined to the
    parent enumerated first, it occurs under B and under C. *)
Lemma C1_diamond_shared_node_not_once :
  ∃ forest,
    walkDown "A" (serviceMap_of diamond) (Num 10) = Some forest
    ∧ occurrences "D" forest = 2%nat
    ∧ child_of "D" "B" forest
    ∧ child_of "D" "C" forest
    ∧ ¬ (occurrences "D" forest = 1%nat ∧ child_of "D" "B" forest ∧ ¬ child_of "D" "C" forest).
Proof.
  eexists. split; [vm_compute; reflexivity|].
  assert (child_of "D" "C"
            [mkDepNode "B" "b" None None [mkDepNode "D" "d" None None []];
             mkDepNode "C" "c" None None [mkDepNode "D" "d" None None []]]) as HC.
  { eexists. split; [right; left|]. split; [done|]. simpl. left. }
  split_and!.
  - reflexivity.
  - eexists. split; [left|]. split; [done|]. simpl. left.
  - done.
  - intros (_ & _ & Hno). by apply Hno.
Qed.
